(** * eulerv2: animation timing and mobject alignment

    A shallow embedding of [src/animation.js] and [src/mobject.js]:
    the per-frame timing of [Animation], the defaults and the per-node
    step of [Write], and the tree alignment and partial-path routines
    of [Group].

    Part IV adds properties of the code beyond those: clones,
    styles, the bounding box, the anchors built from points, the
    argument tuples of the per-node step, and the steps of
    [ShowCreation] and [ReplacementTransform].

    JavaScript numbers are idealised as exact rationals ([Q]); the one
    place where the source divides by a value that may be zero
    ([Write.setConfigFromLength]) uses the extended type [Num].  Where
    the rounding of doubles would show, a statement gives the
    expression the code evaluates ([linewidth * 100 / 100], the corners
    of [getDimensions], [Two.Vector.lerp]) and not a simplified value.
    The alpha channel of a colour is read through the byte a chroma-js
    hex string keeps of it ([hexAlpha]), and the setters of a
    [Two.Group] hand stroke, fill and line width down to the children
    ([Group.paint]).  A thrown [TypeError] is the [None] of the error
    monad [Exc]. *)

From Stdlib Require Import ZArith QArith Qminmax Qround Lqa Lia.
From Stdlib Require Import List Bool PeanoNat.
From Stdlib Require String.
Import ListNotations.
Import String.StringSyntax.

Set Implicit Arguments.
Set Warnings "-register-all".

(* ================================================================== *)
(** * Part I: definitions                                              *)
(* ================================================================== *)

(** ** Numbers *)

Definition Qleb (a b : Q) : bool := Qle_bool a b.
Definition Qltb (a b : Q) : bool := negb (Qle_bool b a).

(** A JavaScript number where a division by zero can occur. *)
Inductive Num : Type :=
| Fin (q : Q)
| PosInf
| NegInf
| NaN.

(** [a / b] on finite operands, with the IEEE results for [b = 0]. *)
Definition num_div (a b : Q) : Num :=
  if Qeq_bool b 0 then
    if Qeq_bool a 0 then NaN
    else if Qltb a 0 then NegInf else PosInf
  else Fin (a / b).

(** [Math.min] of two numbers. *)
Definition Math_min (a b : Num) : Num :=
  match a, b with
  | NaN, _ | _, NaN => NaN
  | NegInf, _ | _, NegInf => NegInf
  | PosInf, x => x
  | x, PosInf => x
  | Fin p, Fin q => if Qleb p q then Fin p else Fin q
  end.

(** [Math.round]: the nearest integer, a half going upwards. *)
Definition Math_round (x : Q) : Z := Qfloor (x + (1 # 2)).

(** ** The error monad *)

(** [None] stands for a thrown [TypeError] (a method or property read
    on [undefined]); for [Group.alignData] it also stands for an
    exhausted recursion budget. *)
Definition Exc (A : Type) : Type := option A.

Definition bind {A B : Type} (m : Exc A) (k : A -> Exc B) : Exc B :=
  match m with
  | Some a => k a
  | None => None
  end.

Notation "x <- m ;; k" := (bind m (fun x => k))
  (at level 61, m at next level, right associativity).
Notation "' p <- m ;; k" := (bind m (fun x => match x with p => k end))
  (at level 61, p pattern, m at next level, right associativity).

(** ** Two.js objects *)

Definition Vec : Type := (Q * Q)%type.

(** [Two.Commands]. *)
Inductive Command : Type := CmdMove | CmdLine | CmdCurve | CmdArc | CmdClose.

(** [new Two.Anchor(x, y, ux, uy, vx, vy, command)]: a position, the
    left control [(ux, uy)], the right control [(vx, vy)]. *)
Record Anchor : Type := mkAnchor {
  pos : Vec;
  controlsLeft : Vec;
  controlsRight : Vec;
  command : Command;
  relative : bool
}.

(** A hex string of chroma-js, [chroma(colour).alpha(a).hex()], kept as
    the colour and the alpha [a] it was written with.  The string
    holds the alpha channel in one byte; what is read from it is
    [hexAlpha]. *)
Definition Hex : Type := (N * Q)%type.

(** chroma-js keeps the alpha of a colour within [0, 1]. *)
Definition limit01 (a : Q) : Q :=
  if Qltb a 0 then 0 else if Qltb 1 a then 1 else a.

(** The alpha byte [hex()] writes: [round(alpha * 255)]. *)
Definition alphaByte (a : Q) : Z := Math_round (limit01 a * 255).

(** The alpha chroma-js reads from the byte of a hex string:
    [round(byte / 255 * 100) / 100]. *)
Definition byteAlpha (n : Z) : Q :=
  Qred (inject_Z (Math_round (inject_Z n / 255 * 100)) / 100).

(** [chroma(hex).alpha()]. *)
Definition hexAlpha (c : Hex) : Q := byteAlpha (alphaByte (snd c)).

(** The classes of mobject.js. *)
Inductive Proto : Type :=
| PGroup | PMobject | PVMobject | PArc | PCircle | PPolygon
| PRegularPolygon | PStar | PRectangle | PSquare | PTexSymbol
| PSingleStringTexMobject | PTexMobject | PTextMobject.

(** A node of the scene graph: a [Two.Path], or a [Two.Group] with its
    class, its [stroke], [fill] and [linewidth], and its [children].
    For a mobject [children[0]] is its path and [children.slice(1)] its
    submobjects. *)
Inductive Shape : Type :=
| TwoPath (vertices : list Anchor) (closed : bool)
| TwoGroup (proto : Proto) (stroke fill : Hex) (linewidth : Q)
           (children : list Shape).

(** The style dictionary of [getStyleDict] and the partial dictionary
    handed to [applyStyle]. *)
Record Style : Type := mkStyle {
  strokeColor : Hex;
  strokeOpacity : Q;
  fillColor : Hex;
  fillOpacity : Q;
  strokeWidth : Q
}.

Record StylePatch : Type := mkPatch {
  setStrokeColor : option Hex;
  setStrokeOpacity : option Q;
  setFillColor : option Hex;
  setFillOpacity : option Q;
  setStrokeWidth : option Q
}.

Definition noPatch : StylePatch := mkPatch None None None None None.

Definition orElse {A : Type} (o : option A) (d : A) : A :=
  match o with Some a => a | None => d end.

(** [Object.assign(style, patch)]. *)
Definition assign (s : Style) (p : StylePatch) : Style :=
  mkStyle (orElse (setStrokeColor p) (strokeColor s))
          (orElse (setStrokeOpacity p) (strokeOpacity s))
          (orElse (setFillColor p) (fillColor s))
          (orElse (setFillOpacity p) (fillOpacity s))
          (orElse (setStrokeWidth p) (strokeWidth s)).

Definition fullPatch (s : Style) : StylePatch :=
  mkPatch (Some (strokeColor s)) (Some (strokeOpacity s))
          (Some (fillColor s)) (Some (fillOpacity s)) (Some (strokeWidth s)).

(** ** Arrays *)

(** [arr[i]] for an integer index. *)
Definition index {A : Type} (l : list A) (i : Z) : option A :=
  if (i <? 0)%Z then None else nth_error l (Z.to_nat i).

(** [arr.slice(0, e)]: a negative [e] counts from the end. *)
Definition slice0 {A : Type} (l : list A) (e : Z) : list A :=
  if (e <? 0)%Z then firstn (Z.to_nat (Z.of_nat (length l) + e)) l
  else firstn (Z.to_nat e) l.

(** [_.chunk(arr, size)], with [fuel] bounding the number of chunks. *)
Fixpoint chunkFuel {A : Type} (fuel size : nat) (l : list A) : list (list A) :=
  match fuel with
  | O => []
  | S fuel' =>
      match l with
      | [] => []
      | _ :: _ => firstn size l :: chunkFuel fuel' size (skipn size l)
      end
  end.

Definition chunk {A : Type} (l : list A) (size : nat) : list (list A) :=
  chunkFuel (length l) size l.

(** [np.arange(n)]. *)
Definition arange (n : nat) : list nat := seq 0 n.

(** [np.linspace(start, stop, num)]. *)
Definition linspace (start stop : Q) (num : nat) : list Q :=
  match num with
  | 1%nat => [start]
  | _ => map (fun j => start + inject_Z (Z.of_nat j) * ((stop - start)
                         / inject_Z (Z.of_nat (num - 1)))) (seq 0 num)
  end.

(** [l[i] = f(l[i])], nothing outside the array. *)
Fixpoint update {A : Type} (i : nat) (f : A -> A) (l : list A) : list A :=
  match l, i with
  | [], _ => []
  | x :: l', O => f x :: l'
  | x :: l', S i' => x :: update i' f l'
  end.

(** Running an effectful body over an array, collecting the results. *)
Definition mapM {A B : Type} (f : A -> Exc B) : list A -> Exc (list B) :=
  fix go (l : list A) : Exc (list B) :=
    match l with
    | [] => Some []
    | x :: l' => y <- f x;; r <- go l';; Some (y :: r)
    end.

(** [arr.filter(f)] for a test that can throw. *)
Definition filterM {A : Type} (f : A -> Exc bool) : list A -> Exc (list A) :=
  fix go (l : list A) : Exc (list A) :=
    match l with
    | [] => Some []
    | x :: l' => b <- f x;; r <- go l';; Some (if b then x :: r else r)
    end.

(** ** Bezier subdivision (utils.js) *)

Definition lerp (p q : Vec) (t : Q) : Vec :=
  (fst p + (fst q - fst p) * t, snd p + (snd q - snd p) * t).

(** Modelled from the spec: [utils.splitBezier] is not in the sources.
    The de Casteljau split of a cubic segment (four control points) at
    [t]; of the two halves the caller [pointwiseBecomePartial] uses the
    result as one segment, the left half.  A value that is not a
    four-point segment ([undefined], a short chunk) cannot be split. *)
Definition splitBezier (quad : option (list Vec)) (t : Q) : Exc (list Vec) :=
  match quad with
  | Some [p0; p1; p2; p3] =>
      let p01 := lerp p0 p1 t in
      let p12 := lerp p1 p2 t in
      let p23 := lerp p2 p3 t in
      let p012 := lerp p01 p12 t in
      let p123 := lerp p12 p23 t in
      Some [p0; p01; p012; lerp p012 p123 t]
  | _ => None
  end.

(** The right half of the same split. *)
Definition splitBezierRight (p0 p1 p2 p3 : Vec) (t : Q) : list Vec :=
  let p01 := lerp p0 p1 t in
  let p12 := lerp p1 p2 t in
  let p23 := lerp p2 p3 t in
  let p012 := lerp p01 p12 t in
  let p123 := lerp p12 p23 t in
  [lerp p012 p123 t; p123; p23; p3].

(** Modelled from the spec: [utils.partialBezierPoints] is not in the
    sources.  [subCurve(segment, a, b)] on the segment between two
    anchors: split at [b], then split the left part at [a / b]; for
    [b = 0] the degenerate segment at the start point. *)
Definition partialBezierPoints (curveStart curveEnd : Anchor) (a b : Q)
    : list Vec :=
  let p0 := pos curveStart in
  let p1 := controlsRight curveStart in
  let p2 := controlsLeft curveEnd in
  let p3 := pos curveEnd in
  if Qeq_bool b 0 then [p0; p0; p0; p0]
  else
    match splitBezier (Some [p0; p1; p2; p3]) b with
    | Some [q0; q1; q2; q3] => splitBezierRight q0 q1 q2 q3 (a / b)
    | _ => []
    end.

(** Modelled from the spec: [utils.integerInterpolate] is not in the
    sources.  Index and residue of the fraction [t] of the range
    [start .. end]: [(end - 1, 1)] at [t >= 1], [(start, 0)] at
    [t <= 0], else the floor and the fractional part. *)
Definition integerInterpolate (start end_ : Z) (t : Q) : Z * Q :=
  if Qleb 1 t then ((end_ - 1)%Z, 1)
  else if Qleb t 0 then (start, 0)
  else
    let scaled := inject_Z (end_ - start) * t in
    ((start + Qfloor scaled)%Z, scaled - inject_Z (Qfloor scaled)).

(** Modelled from the spec: [utils.pathFromAnchors] is not in the
    sources.  An open path with one anchor per position, its left
    control from [handles1] and its right control from [handles2]. *)
Fixpoint anchorsFrom (first : bool) (anchors handles1 handles2 : list Vec)
    : list Anchor :=
  match anchors, handles1, handles2 with
  | a :: anchors', h1 :: handles1', h2 :: handles2' =>
      mkAnchor a h1 h2 (if first then CmdMove else CmdCurve) false
        :: anchorsFrom false anchors' handles1' handles2'
  | _, _, _ => []
  end.

Definition pathFromAnchors (anchors handles1 handles2 : list Vec) : Shape :=
  TwoPath (anchorsFrom true anchors handles1 handles2) false.

(** ** Group: accessors *)

Module Group.

Definition getChildren (m : Shape) : Exc (list Shape) :=
  match m with
  | TwoGroup _ _ _ _ cs => Some cs
  | TwoPath _ _ => None
  end.

(** [this.children[0]]; the model stops where the source would go on
    with [undefined]. *)
Definition path (m : Shape) : Exc Shape :=
  cs <- getChildren m;; nth_error cs 0.

(** [this.children.slice(1)]. *)
Definition submobjects (m : Shape) : Exc (list Shape) :=
  cs <- getChildren m;; Some (tl cs).

(** [this.children[0].vertices], as used through [.length] or an
    index: a [TypeError] unless [children[0]] is a path. *)
Definition points (m : Shape) : Exc (list Anchor) :=
  p <- path m;;
  match p with
  | TwoPath vs _ => Some vs
  | TwoGroup _ _ _ _ _ => None
  end.

(** [this.children[0].vertices = vs]. *)
Definition setVertices (m : Shape) (vs : list Anchor) : Exc Shape :=
  match m with
  | TwoGroup p st fi lw (TwoPath _ c :: subs) =>
      Some (TwoGroup p st fi lw (TwoPath vs c :: subs))
  | _ => None
  end.

(** [this.children[0] = p]. *)
Definition setPath (m : Shape) (p : Shape) : Exc Shape :=
  match m with
  | TwoGroup pr st fi lw cs => Some (TwoGroup pr st fi lw (p :: tl cs))
  | TwoPath _ _ => None
  end.

(** [this.add(c)] and [this.add(cs)]: appended to [children]. *)
Definition add (m : Shape) (cs' : list Shape) : Exc Shape :=
  match m with
  | TwoGroup pr st fi lw cs => Some (TwoGroup pr st fi lw (cs ++ cs'))
  | TwoPath _ _ => None
  end.

(** The children after the recursive calls have mutated the
    submobjects in place. *)
Definition setSubmobjects (m : Shape) (subs : list Shape) : Exc Shape :=
  match m with
  | TwoGroup pr st fi lw (c0 :: _) => Some (TwoGroup pr st fi lw (c0 :: subs))
  | TwoGroup pr st fi lw [] =>
      match subs with
      | [] => Some m
      | _ :: _ => None
      end
  | TwoPath _ _ => None
  end.

(** ** Group: styles *)

(** [applyStyle] hands the style on to the submobjects for these. *)
Definition propagates (p : Proto) : bool :=
  match p with
  | PGroup | PTexMobject | PTextMobject => true
  | _ => false
  end.

(** The dictionary [getStyleDict] reads from [stroke], [fill] and
    [linewidth]: [chroma(stroke).hex()] is the colour with the alpha
    as it is read back, [chroma(stroke).alpha()] that alpha. *)
Definition styleOf (st fi : Hex) (lw : Q) : Style :=
  mkStyle (fst st, hexAlpha st) (hexAlpha st)
          (fst fi, hexAlpha fi) (hexAlpha fi) (lw * 100).

Definition getStyleDict (m : Shape) : Exc Style :=
  match m with
  | TwoGroup _ st fi lw _ => Some (styleOf st fi lw)
  | TwoPath _ _ => None
  end.

(** The setters of [stroke], [fill] and [linewidth] of a [Two.Group]
    hand the value on to every child, and so down the tree.  The style
    of a [Two.Path] is not part of the model. *)
Fixpoint paint (st fi : Hex) (lw : Q) (m : Shape) : Shape :=
  match m with
  | TwoPath vs c => TwoPath vs c
  | TwoGroup pr _ _ _ cs => TwoGroup pr st fi lw (map (paint st fi lw) cs)
  end.

(** The values the end of [applyStyle] assigns:
    [chroma(strokeColor).alpha(strokeOpacity).hex()] and so on. *)
Definition strokeOf (combined : Style) : Hex :=
  (fst (strokeColor combined), strokeOpacity combined).

Definition fillOf (combined : Style) : Hex :=
  (fst (fillColor combined), fillOpacity combined).

Definition linewidthOf (combined : Style) : Q := strokeWidth combined / 100.

(** The three assignments on a node with the children [cs]. *)
Definition restyle (pr : Proto) (combined : Style) (cs : list Shape) : Shape :=
  paint (strokeOf combined) (fillOf combined) (linewidthOf combined)
        (TwoGroup pr (strokeOf combined) (fillOf combined)
                  (linewidthOf combined) cs).

Fixpoint applyStyle (style : StylePatch) (m : Shape) : Exc Shape :=
  match m with
  | TwoPath _ _ => None
  | TwoGroup pr st fi lw cs =>
      if propagates pr then
        match cs with
        | [] => Some m
        | c0 :: subs =>
            subs' <- mapM (applyStyle style) subs;;
            Some (TwoGroup pr st fi lw (c0 :: subs'))
        end
      else
        Some (restyle pr (assign (styleOf st fi lw) style) cs)
  end.


(** ** Group: the environment *)

(** What the routines read from outside this program: the colour
    constants of constants.js, the stroke, fill and line width of a
    freshly constructed [Two.Group], the [width] and [height]
    properties of a node, and the bounding rectangle (left, top, width,
    height) the renderer reports for it. *)
Record Env : Type := mkEnv {
  WHITE : N;
  BLACK : N;
  groupStroke : Hex;
  groupFill : Hex;
  groupLinewidth : Q;
  sizeOf : Shape -> Vec;
  getBoundingClientRect : Shape -> Q * Q * Q * Q
}.

Section WithEnv.

Variable env : Env.

Definition DEFAULT_STYLE : Style :=
  mkStyle (WHITE env, 1) 1 (BLACK env, 1) 0 4.

(** [new Mobject(path, submobjects, style)] and its subclasses that
    pass a style on: the constructor applies [DEFAULT_STYLE] overridden
    by [style]. *)
Definition newMobject (pr : Proto) (p : Shape) (subs : list Shape)
    (style : StylePatch) : Shape :=
  restyle pr (assign DEFAULT_STYLE style) (p :: subs).

(** The class of the object a [clone] method builds. *)
Definition cloneProto (pr : Proto) : Proto :=
  match pr with
  | PGroup => PGroup
  | PTexMobject | PTextMobject => PTexMobject
  | PCircle => PCircle
  | PSquare => PSquare
  | PTexSymbol => PTexSymbol
  | PSingleStringTexMobject => PSingleStringTexMobject
  | _ => PMobject
  end.

(** [Mobject.clone] and [TexSymbol.clone] start from
    [this.path().clone()]. *)
Definition cloneReadsPath (pr : Proto) : bool :=
  match pr with
  | PGroup | PTexMobject | PTextMobject | PCircle | PSquare
  | PSingleStringTexMobject => false
  | _ => true
  end.

(** [Group.clone] builds a [new Group()] and [TexMobject.clone] a
    [TexMobject] with a [null] style: no style is applied to the new
    object.  The other [clone] methods pass [this.getStyleDict()]. *)
Definition cloneStyled (pr : Proto) : bool :=
  match pr with
  | PGroup | PTexMobject | PTextMobject => false
  | _ => true
  end.

(** The [clone] methods: the children are cloned one by one and put
    under a new object of the class. *)
Fixpoint clone (m : Shape) : Exc Shape :=
  match m with
  | TwoPath vs c => Some (TwoPath vs c)
  | TwoGroup pr st fi lw cs =>
      if cloneReadsPath pr && (length cs =? 0)%nat then None
      else
        cs' <- mapM clone cs;;
        if cloneStyled pr then
          (* the style goes on an object that has only the cloned path;
             the cloned children are put in afterwards *)
          let combined := assign DEFAULT_STYLE (fullPatch (styleOf st fi lw)) in
          Some (TwoGroup (cloneProto pr) (strokeOf combined) (fillOf combined)
                         (linewidthOf combined) cs')
        else
          Some (TwoGroup (cloneProto pr) (groupStroke env) (groupFill env)
                         (groupLinewidth env) cs')
  end.

(** ** Group: hierarchy and centres *)

(** [getMobjectHeirarchy]: the node, then the hierarchies of its
    submobjects.  [utils.removeListRedundancies] drops repeated
    objects; the nodes of a tree are distinct objects. *)
Fixpoint getMobjectHeirarchy (m : Shape) : Exc (list Shape) :=
  match m with
  | TwoPath _ _ => None
  | TwoGroup _ _ _ _ cs =>
      match cs with
      | [] => Some [m]
      | _ :: subs =>
          rest <- mapM getMobjectHeirarchy subs;;
          Some (m :: concat rest)
      end
  end.

(** The running [Math.min] and [Math.max] over a list of coordinates;
    [None] while they are still the infinities. *)
Definition extent (l : list Q) : option (Q * Q) :=
  match l with
  | [] => None
  | x :: r => Some (fold_left Qmin r x, fold_left Qmax r x)
  end.

Definition getPointCenter (m : Shape) : Exc Vec :=
  pts <- points m;;
  if (length pts =? 0)%nat then Some (0, 0)
  else
    h <- getMobjectHeirarchy m;;
    all <- mapM points h;;
    let ps := map pos (concat all) in
    match extent (map fst ps), extent (map snd ps) with
    | Some (xMin, xMax), Some (yMin, yMax) =>
        Some ((xMax + xMin) / 2, (yMax + yMin) / 2)
    | _, _ => None
    end.

Definition getPixelCenter (m : Shape) : Exc Vec :=
  pts <- points m;;
  if (length pts =? 0)%nat then
    Some (fst (sizeOf env m) / 2, snd (sizeOf env m) / 2)
  else
    let '(rl, rt, rw, rh) := getBoundingClientRect env m in
    Some (rl + rw / 2, rt + rh / 2).

Definition getPointMobject (m : Shape) : Exc Shape :=
  center <- getPointCenter m;;
  Some (newMobject PMobject (pathFromAnchors [center] [center] [center]) []
          noPatch).

(** ** Group: alignment *)

Definition pushSelfIntoSubmobjects (m : Shape) : Exc Shape :=
  p <- path m;;
  p' <- clone p;;
  sd <- getStyleDict m;;
  clonedMobject <- applyStyle (fullPatch sd) (newMobject PMobject p' [] noPatch);;
  center <- getPointCenter m;;
  m1 <- setPath m (pathFromAnchors [center] [center] [center]);;
  add m1 [clonedMobject].

Definition nullPointAlign (this other : Shape) : Exc (Shape * Shape) :=
  pt <- points this;;
  po <- points other;;
  if (length pt =? 0)%nat && negb (length po =? 0)%nat then
    other' <- pushSelfIntoSubmobjects other;; Some (this, other')
  else if (length po =? 0)%nat && negb (length pt =? 0)%nat then
    this' <- pushSelfIntoSubmobjects this;; Some (this', other)
  else Some (this, other).

(** [repeatIndices] and [splitFactors] of [addSubmobjects] and
    [addPoints]: index [x] of the [target] new slots goes to the old
    slot [floor(x * current / target)], and slot [i] is split into as
    many pieces as indices went to it. *)
Definition repeatIndices (current target : nat) : list nat :=
  map (fun x => (x * current / target)%nat) (arange target).

Definition splitFactors (current target : nat) : list nat :=
  map (fun i => count_occ Nat.eq_dec (repeatIndices current target) i)
      (seq 0 current).

(** The [n] calls [this.add(this.getPointMobject())]. *)
Fixpoint addPointMobjects (n : nat) (m : Shape) : Exc Shape :=
  match n with
  | O => Some m
  | S n' =>
      pm <- getPointMobject m;;
      m' <- add m [pm];;
      addPointMobjects n' m'
  end.

(** The copies of submobject [sub] that go into [newSubmobjects]: a
    clone, then [sf - 1] clones restyled with the alpha of both colours
    set to 0. *)
Definition copiesOf (sub : Shape) (sf : nat) : Exc (list Shape) :=
  submob <- clone sub;;
  extra <- mapM (fun _ : nat =>
                   submob' <- clone sub;;
                   oldStyle <- getStyleDict sub;;
                   applyStyle
                     (mkPatch (Some (fst (strokeColor oldStyle), 0)) None
                              (Some (fst (fillColor oldStyle), 0)) None None)
                     submob')
                (seq 0 (sf - 1));;
  Some (submob :: extra).

Definition addSubmobjects (m : Shape) (n : nat) : Exc Shape :=
  subs <- submobjects m;;
  let currentNumSubmobjects := length subs in
  if (currentNumSubmobjects =? 0)%nat then addPointMobjects n m
  else
    let target := (currentNumSubmobjects + n)%nat in
    let sfs := splitFactors currentNumSubmobjects target in
    copies <- mapM (fun isub : nat * Shape =>
                      copiesOf (snd isub) (nth (fst isub) sfs 0%nat))
                   (combine (seq 0 currentNumSubmobjects) subs);;
    let newSubmobjects := concat copies in
    (* this.remove(this.submobjects()); this.add(newSubmobjects) *)
    m1 <- setSubmobjects m [];;
    add m1 newSubmobjects.

Definition alignSubmobjects (this other : Shape) : Exc (Shape * Shape) :=
  st <- submobjects this;;
  so <- submobjects other;;
  if (length st =? length so)%nat then Some (this, other)
  else if (length st <? length so)%nat then
    this' <- addSubmobjects this (length so - length st);; Some (this', other)
  else
    other' <- addSubmobjects other (length st - length so);; Some (this, other').

(** The second loop of [setAnchorsFromPoints], at anchor index [k]:
    four points at a time; a missing point is read through
    [undefined]. *)
Fixpoint fillAnchors (points : list Vec) (k : nat) (anchors : list Anchor)
    : Exc (list Anchor) :=
  match points with
  | [] => Some anchors
  | p0 :: p1 :: p2 :: p3 :: rest =>
      let anchors1 :=
        update k (fun a => mkAnchor p0 (controlsLeft a) p1
                             (command a) (relative a)) anchors in
      let anchors2 :=
        update (S k) (fun a => mkAnchor p3 p2 (controlsRight a)
                                 (command a) (relative a)) anchors1 in
      fillAnchors rest (S k) anchors2
  | _ => None
  end.

(** [new Two.Anchor(0, 0, 0, 0, 0, 0, 'C')] with [relative = false]. *)
Definition blankAnchor : Anchor :=
  mkAnchor (0, 0) (0, 0) (0, 0) CmdCurve false.

(** The anchors [setAnchorsFromPoints] builds: one for every [i] with
    [i < points.length / 4 + 1], all blank, then filled from the
    points. *)
Definition anchorsFromPoints (points : list Vec) : Exc (list Anchor) :=
  let anchors := repeat blankAnchor ((length points + 3) / 4 + 1) in
  fillAnchors points 0 anchors.

Definition setAnchorsFromPoints (m : Shape) (points : list Vec) : Exc Shape :=
  anchors <- anchorsFromPoints points;;
  setVertices m anchors.

(** The pieces of curve [i] in [addPoints]: [splitFactor] sub-curves
    between consecutive values of [np.linspace(0, 1, splitFactor + 1)]. *)
Definition piecesOf (curveStart curveEnd : Anchor) (splitFactor : nat)
    : list Vec :=
  let alphas := linspace 0 1 (splitFactor + 1) in
  concat (map (fun j => partialBezierPoints curveStart curveEnd
                          (nth j alphas 0) (nth (S j) alphas 0))
              (seq 0 (length alphas - 1))).

(** [addPoints(n)]: the node (its points grow when it has exactly one)
    and the returned [newPoints].  The source is only reached with at
    least one point; on an empty path both loops are empty here as
    there. *)
Definition addPoints (m : Shape) (n : nat) : Exc (Shape * list Vec) :=
  pts <- points m;;
  let curNum := length pts in
  m1 <- (if (curNum =? 1)%nat
         then first <- nth_error pts 0;; setVertices m (pts ++ repeat first n)
         else Some m);;
  pts1 <- points m1;;
  let curNum := (curNum - 1)%nat in
  let targetNum := (curNum + n)%nat in
  let sfs := splitFactors curNum targetNum in
  pieces <- mapM (fun i : nat =>
                    curveStart <- nth_error pts1 i;;
                    curveEnd <- nth_error pts1 (S i);;
                    Some (piecesOf curveStart curveEnd (nth i sfs 0%nat)))
                 (seq 0 curNum);;
  Some (m1, concat pieces).

(** One round of the loop [for (let mob of [this, other])] of
    [alignPoints]; the centre is always that of [this]. *)
Definition seedPoint (this mob : Shape) : Exc Shape :=
  pts <- points mob;;
  if (length pts =? 0)%nat then
    center <- getPixelCenter this;;
    setVertices mob (pts ++ [mkAnchor center center center CmdCurve true])
  else Some mob.

Definition alignPoints (this other : Shape) : Exc (Shape * Shape) :=
  pt <- points this;;
  po <- points other;;
  if (length pt =? length po)%nat then Some (this, other)
  else
    this1 <- seedPoint this this;;
    other1 <- seedPoint this1 other;;
    pt1 <- points this1;;
    po1 <- points other1;;
    if (length pt1 <? length po1)%nat then
      '(fewer, newPoints) <- addPoints this1 (length po1 - length pt1);;
      fewer' <- setAnchorsFromPoints fewer newPoints;;
      Some (fewer', other1)
    else
      '(fewer, newPoints) <- addPoints other1 (length pt1 - length po1);;
      fewer' <- setAnchorsFromPoints fewer newPoints;;
      Some (this1, fewer').

(** The [forEach] at the end of [alignData]: submobject [i] of [this]
    with submobject [i] of [other]. *)
Fixpoint alignEach (rec : Shape -> Shape -> Exc (Shape * Shape))
    (xs ys : list Shape) : Exc (list Shape * list Shape) :=
  match xs with
  | [] => Some ([], ys)
  | x :: xs' =>
      match ys with
      | [] => None
      | y :: ys' =>
          '(x', y') <- rec x y;;
          '(rx, ry) <- alignEach rec xs' ys';;
          Some (x' :: rx, y' :: ry)
      end
  end.

(** The three steps of [alignData] on the pair itself. *)
Definition alignLevel (this other : Shape) : Exc (Shape * Shape) :=
  '(this1, other1) <- nullPointAlign this other;;
  '(this2, other2) <- alignSubmobjects this1 other1;;
  alignPoints this2 other2.

(** [this.alignData(other)] for two trees that share no node; the pair
    is returned as the call leaves it.  [fuel] bounds the depth of the
    recursion. *)
Fixpoint alignData (fuel : nat) (this other : Shape) : Exc (Shape * Shape) :=
  match fuel with
  | O => None
  | S fuel' =>
      '(this3, other3) <- alignLevel this other;;
      subsT <- submobjects this3;;
      subsO <- submobjects other3;;
      '(subsT', subsO') <- alignEach (alignData fuel') subsT subsO;;
      this' <- setSubmobjects this3 subsT';;
      other' <- setSubmobjects other3 subsO';;
      Some (this', other')
  end.

(** ** Group: partial paths *)

(** Modelled from the spec: [utils.getManimPoints] is not in the
    sources.  The path flattened into four points per segment: the
    start anchor, its right control, the left control of the end
    anchor, the end anchor. *)
Fixpoint manimPointsOf (vs : list Anchor) : list Vec :=
  match vs with
  | a :: rest =>
      match rest with
      | b :: _ =>
          [pos a; controlsRight a; controlsLeft b; pos b] ++ manimPointsOf rest
      | [] => []
      end
  | [] => []
  end.

Definition getManimPoints (m : Shape) : Exc (list Vec) :=
  vs <- points m;; Some (manimPointsOf vs).

(** Modelled from the spec: [utils.pathFromManimPoints] is not in the
    sources.  The anchors are built from the points as in
    [setAnchorsFromPoints]; anchor [i] gets command tag [i]. *)
Fixpoint tagAnchors (anchors : list Anchor) (commands : list Command)
    : list Anchor :=
  match anchors, commands with
  | a :: anchors', c :: commands' =>
      mkAnchor (pos a) (controlsLeft a) (controlsRight a) c (relative a)
        :: tagAnchors anchors' commands'
  | _, _ => anchors
  end.

Definition pathFromManimPoints (points : list Vec) (commands : list Command)
    : Exc Shape :=
  anchors <- anchorsFromPoints points;;
  Some (TwoPath (tagAnchors anchors commands) false).

(** [this.remove(this.children[0]); this.add(newPath)].  Two.js
    removes a child only when it has it on record ([children.ids]), as
    it has every child that came in through the constructor or [add];
    [onRecord] tells whether that is so for [children[0]].  It is not
    after [pushSelfIntoSubmobjects], which writes [children[0]] by
    index: [remove] then leaves the child in place. *)
Definition replacePath (onRecord : bool) (m newPath : Shape) : Exc Shape :=
  match m with
  | TwoGroup pr st fi lw cs =>
      Some (TwoGroup pr st fi lw ((if onRecord then tl cs else cs) ++ [newPath]))
  | TwoPath _ _ => None
  end.

(** [pointwiseBecomePartial(other, a, b)] on a node [this] whose
    [children[0]] is on record with Two.js or not ([onRecord]).  [a]
    is only read by the assertion.  Where [children[0]] of [this] is
    not a path the model stops. *)
Definition pointwiseBecomePartial (onRecord : bool) (this other : Shape)
    (a b : Q) : Exc Shape :=
  manimPoints <- getManimPoints other;;
  let bezierQuads := chunk manimPoints 4 in
  let '(bIndex, bResidue) :=
    integerInterpolate 0 (Z.of_nat (length bezierQuads)) b in
  let newPathCoeffs := slice0 bezierQuads bIndex in
  bResidueCoeffs <-
    (if (bIndex <? Z.of_nat (length bezierQuads))%Z
     then splitBezier (index bezierQuads bIndex) bResidue
     else Some []);;
  let newPathCoeffs :=
    if (0 <? length bResidueCoeffs)%nat
    then newPathCoeffs ++ [bResidueCoeffs] else newPathCoeffs in
  vs <- points other;;
  let vertexCommands := map command (firstn (length newPathCoeffs + 1) vs) in
  old <- path this;;
  partialPath <- pathFromManimPoints (concat newPathCoeffs) vertexCommands;;
  match old, partialPath with
  | TwoPath _ _, TwoPath vertices' _ =>
      this1 <- replacePath onRecord this (TwoPath vertices' false);;
      sd <- getStyleDict this1;;
      applyStyle (fullPatch sd) this1
  | _, _ => None
  end.

(** [Two.Vector.equals(v)] with its default tolerance 0.0001:
    [distanceTo(v) < eps]. *)
Definition equals (a b : Anchor) : bool :=
  let dx := fst (pos a) - fst (pos b) in
  let dy := snd (pos a) - snd (pos b) in
  Qltb (dx * dx + dy * dy) ((1 # 10000) * (1 # 10000)).

(** [_.last(m.children[0].vertices)]. *)
Definition lastVertex (m : Shape) : Exc Anchor :=
  vs <- points m;;
  match vs with
  | [] => None
  | v :: vs' => Some (last vs' v)
  end.

(** ** Group: bounding box *)

(** The object [getDimensions] returns. *)
Record Dimensions : Type := mkDimensions {
  center : Vec;
  height : Q;
  width : Q;
  topLeft : Vec;
  topRight : Vec;
  bottomRight : Vec;
  bottomLeft : Vec
}.

(** [getDimensions()]: [Some None] is the [null] it returns while the
    running minimum is still [Infinity].  The corners are computed as
    in the source, from the centre and half the width and height. *)
Definition getDimensions (m : Shape) : Exc (option Dimensions) :=
  h <- getMobjectHeirarchy m;;
  all <- mapM points h;;
  let ps := map pos (concat all) in
  match extent (map fst ps), extent (map snd ps) with
  | Some (xMin, xMax), Some (yMin, yMax) =>
      let center := ((xMax + xMin) / 2, (yMax + yMin) / 2) in
      let height := yMax - yMin in
      let width := xMax - xMin in
      Some (Some (mkDimensions center height width
                    (fst center + - width / 2, snd center + - height / 2)
                    (fst center + width / 2, snd center + - height / 2)
                    (fst center + width / 2, snd center + height / 2)
                    (fst center + - width / 2, snd center + height / 2)))
  | _, _ => Some None
  end.

(** ** Group: moving the points of the path *)

(** A 3 x 3 matrix of mathjs, row by row (the shape the assertion of
    [transformWithMatrix] asks for). *)
Definition Matrix : Type := ((Q * Q * Q) * (Q * Q * Q) * (Q * Q * Q))%type.

(** [math.multiply(matrix, [x, y].concat(0)).toArray()], of which the
    caller reads the entries 0 and 1. *)
Definition multiply (matrix : Matrix) (v : Vec) : Vec :=
  let '((m00, m01, m02), (m10, m11, m12), _) := matrix in
  (m00 * fst v + m01 * snd v + m02 * 0, m10 * fst v + m11 * snd v + m12 * 0).

(** The body of a loop over [anchor], [anchor.controls.left] and
    [anchor.controls.right] that moves each of them by [f]. *)
Definition mapAnchor (f : Vec -> Vec) (a : Anchor) : Anchor :=
  mkAnchor (f (pos a)) (f (controlsLeft a)) (f (controlsRight a))
           (command a) (relative a).

Definition transformWithMatrix (matrix : Matrix) (m : Shape) : Exc Shape :=
  vs <- points m;;
  setVertices m (map (mapAnchor (multiply matrix)) vs).

Definition applyFunction (func : Vec -> Vec) (m : Shape) : Exc Shape :=
  vs <- points m;;
  setVertices m (map (mapAnchor func) vs).

(** ** Group: interpolation between two mobjects *)

(** [Two.Vector.lerp(v, t)] on a clone of [a]:
    [(v.x - x) * t + x] and the same for [y]. *)
Definition vectorLerp (a v : Vec) (t : Q) : Vec :=
  ((fst v - fst a) * t + fst a, (snd v - snd a) * t + snd a).

(** Anchor [i] of [newAnchors]: the clone of the anchor of [mobject1]
    moved towards that of [mobject2], with both controls replaced. *)
Definition lerpAnchor (a1 a2 : Anchor) (alpha : Q) : Anchor :=
  mkAnchor (vectorLerp (pos a1) (pos a2) alpha)
           (vectorLerp (controlsLeft a1) (controlsLeft a2) alpha)
           (vectorLerp (controlsRight a1) (controlsRight a2) alpha)
           (command a1) (relative a1).

Section Interpolation.

(** [utils.interpolateStyles] is not in the sources; what follows holds
    for every style it may return. *)
Variable interpolateStyles : Style -> Style -> Q -> StylePatch.

(** [this.interpolate(mobject1, mobject2, alpha)]: the loop runs over
    the points of [this] and reads point [i] of both arguments. *)
Definition interpolate (this mobject1 mobject2 : Shape) (alpha : Q) : Exc Shape :=
  pts <- points this;;
  newAnchors <- mapM (fun i : nat =>
                        p1 <- points mobject1;;
                        a1 <- nth_error p1 i;;
                        p2 <- points mobject2;;
                        a2 <- nth_error p2 i;;
                        Some (lerpAnchor a1 a2 alpha))
                     (seq 0 (length pts));;
  this1 <- setVertices this newAnchors;;
  style1 <- getStyleDict mobject1;;
  style2 <- getStyleDict mobject2;;
  applyStyle (interpolateStyles style1 style2 alpha) this1.

End Interpolation.

End WithEnv.

End Group.

(** ** Animation: the timing engine *)

Module Animation.

(** [getSubAlpha(alpha, index, numSubmobjects)], with [this.lagRatio]
    as first argument. *)
Definition getSubAlpha (lagRatio alpha : Q) (index numSubmobjects : nat) : Q :=
  let fullRuntime := inject_Z (Z.of_nat numSubmobjects - 1) * lagRatio + 1 in
  let fullRuntimeAlpha := fullRuntime * alpha in
  let startTime := lagRatio * inject_Z (Z.of_nat index) in
  let endTime := startTime + 1 in
  if Qleb fullRuntimeAlpha startTime then 0
  else if Qleb endTime fullRuntimeAlpha then 1
  else fullRuntimeAlpha - startTime.

Section Engine.

(** The objects an animation mutates are kept in a store; [Args] is one
    argument tuple of [interpolateSubmobject] (references into the
    store).  Each variant supplies its own step. *)
Variable Store : Type.
Variable Args : Type.
Variable rateFunc : Q -> Q.
Variable lagRatio : Q.
Variable getAllArgsToInterpolateSubmobject : Store -> list Args.
Variable interpolateSubmobject : Q -> Args -> Store -> Store.

(** The body of the [for] loop of [interpolateMobject], from index [i]. *)
Fixpoint interpolateLoop (alpha : Q) (numArgs i : nat) (rest : list Args)
    (st : Store) : Store :=
  match rest with
  | [] => st
  | a :: rest' =>
      let subAlpha := getSubAlpha lagRatio alpha i numArgs in
      interpolateLoop alpha numArgs (S i) rest'
        (interpolateSubmobject subAlpha a st)
  end.

Definition interpolateMobject (alpha : Q) (st : Store) : Store :=
  let interpolateSubmobjectArgs := getAllArgsToInterpolateSubmobject st in
  interpolateLoop alpha (length interpolateSubmobjectArgs) 0
    interpolateSubmobjectArgs st.

(** The value of [alpha] after the two guards of [interpolate]. *)
Definition clampAlpha (alpha : Q) : Q :=
  if Qltb alpha 0 then 0
  else if Qltb 1 alpha then 1
  else alpha.

Definition interpolate (alpha : Q) (st : Store) : Store :=
  interpolateMobject (rateFunc (clampAlpha alpha)) st.

Definition isFinished (alpha : Q) : bool := Qleb 1 alpha.

End Engine.

(** [createStartingMobject()]. *)
Definition createStartingMobject (env : Group.Env) (mobject : Shape) : Exc Shape :=
  Group.clone env mobject.

(** [heirarchy.filter(submob => submob.points().length > 0)]. *)
Definition heirarchyMembersWithPoints (heirarchy : list Shape) : Exc (list Shape) :=
  filterM (fun submob => pts <- Group.points submob;;
                         Some (0 <? length pts)%nat) heirarchy.

(** [getAllArgsToInterpolateSubmobject()] on the copies that
    [getCopiesForInterpolation()] returns: tuple [i] holds member [i]
    of every copy, [None] where a copy has no such member
    ([h[i]] is [undefined]). *)
Definition getAllArgsToInterpolateSubmobject (copies : list Shape)
    : Exc (list (list (option Shape))) :=
  mobjectHeirarchies <-
    mapM (fun mobjectCopy =>
            heirarchy <- Group.getMobjectHeirarchy mobjectCopy;;
            heirarchyMembersWithPoints heirarchy) copies;;
  first <- nth_error mobjectHeirarchies 0;;
  Some (map (fun i => map (fun h => nth_error h i) mobjectHeirarchies)
            (seq 0 (length first))).

End Animation.

(** ** Write: defaults from the hierarchy length *)

Module Write.

(** The two fields the constructor may leave [null]. *)
Record Config : Type := mkConfig {
  runtime : option Num;
  lagRatio : option Num
}.

Definition setConfigFromLength (length : nat) (c : Config) : Config :=
  let c1 :=
    match runtime c with
    | None =>
        if negb (length =? 0)%nat
        then mkConfig (Some (Fin 1)) (lagRatio c)
        else mkConfig (Some (Fin 2)) (lagRatio c)
    | Some _ => c
    end in
  match lagRatio c1 with
  | None =>
      mkConfig (runtime c1)
        (Some (Math_min (num_div 4 (inject_Z (Z.of_nat length))) (Fin (2 # 10))))
  | Some _ => c1
  end.

(** [new Write(mobject, runtime, lagRatio)]; [length] is
    [mobject.getMobjectHeirarchy().length]. *)
Definition construct (length : nat) (runtime0 lagRatio0 : option Num) : Config :=
  let c := mkConfig runtime0 lagRatio0 in
  match runtime0, lagRatio0 with
  | Some _, Some _ => c
  | _, _ => setConfigFromLength length c
  end.


(** The per-node step of [Write]; [onRecord] as for
    [pointwiseBecomePartial], about [children[0]] of [submob]. *)
Definition interpolateSubmobject (onRecord : bool) (alpha : Q)
    (submob startingSubmobject : Shape) : Exc Shape :=
  if Qleb alpha (1 # 2) then
    Group.pointwiseBecomePartial onRecord submob startingSubmobject 0 (2 * alpha)
  else
    lastSubmob <- Group.lastVertex submob;;
    lastStarting <- Group.lastVertex startingSubmobject;;
    submob1 <- (if negb (Group.equals lastSubmob lastStarting)
                then Group.pointwiseBecomePartial onRecord submob
                       startingSubmobject 0 1
                else Some submob);;
    Group.applyStyle (mkPatch None None None (Some (2 * alpha - 1)) None) submob1.

End Write.

(** ** ShowCreation, ReplacementTransform, FadeOut *)

Module ShowCreation.

Definition getCopiesForInterpolation (mobject startingMobject : Shape)
    : list Shape :=
  [mobject; startingMobject].

Definition interpolateSubmobject (onRecord : bool) (alpha : Q)
    (submob startingSubmobject : Shape) : Exc Shape :=
  if Qltb 0 alpha
  then Group.pointwiseBecomePartial onRecord submob startingSubmobject 0 alpha
  else Some submob.

End ShowCreation.

Module ReplacementTransform.

(** [begin()] up to its call [this.interpolate(0)]: the copy of the
    target, the alignment, the starting mobject; the result is what
    [getCopiesForInterpolation()] returns from then on. *)
Definition begin (env : Group.Env) (fuel : nat) (mobject targetMobject : Shape)
    : Exc (list Shape) :=
  targetCopy <- Group.clone env targetMobject;;
  '(mobject', targetCopy') <- Group.alignData env fuel mobject targetCopy;;
  startingMobject <- Animation.createStartingMobject env mobject';;
  Some [mobject'; startingMobject; targetCopy'].

Definition interpolateSubmobject
    (interpolateStyles : Style -> Style -> Q -> StylePatch)
    (alpha : Q) (submob start targetCopy : Shape) : Exc Shape :=
  Group.interpolate interpolateStyles submob start targetCopy alpha.

End ReplacementTransform.

Module FadeOut.

(** The object [getDiff] returns. *)
Record Diff : Type := mkDiff {
  remove : list String.string;
  modify : list (list String.string)
}.

(** [FadeOut.getDiff(mobject, mobjectData)]: [mobjectData] maps a name
    to the [submobjects] of that mobject, in the order of
    [Object.keys]. *)
Definition getDiff (mobject : String.string)
    (mobjectData : list (String.string * list String.string)) : Diff :=
  mkDiff [mobject]
    (fold_left
       (fun modify (entry : String.string * list String.string) =>
          if existsb (String.eqb mobject) (snd entry)
          then modify ++ [[fst entry;
                           String.append "remove " mobject;
                           String.append "add " mobject]]
          else modify)
       mobjectData []).

End FadeOut.

(* ================================================================== *)
(** * Part II: specification predicates                                *)
(* ================================================================== *)

(** Two trees have the same number of submobjects at every level. *)
Inductive SameCounts : Shape -> Shape -> Prop :=
| SameCounts_node : forall (x y : Shape) (sx sy : list Shape),
    Group.submobjects x = Some sx ->
    Group.submobjects y = Some sy ->
    length sx = length sy ->
    Forall2 SameCounts sx sy ->
    SameCounts x y.

(** A tree as the constructors of mobject.js build it: every group has
    a path as [children[0]] and groups of the same kind after it. *)
Inductive WellFormed : Shape -> Prop :=
| WellFormed_node : forall pr st fi lw vs c subs,
    Forall WellFormed subs ->
    WellFormed (TwoGroup pr st fi lw (TwoPath vs c :: subs)).

(** The number of levels below a node. *)
Fixpoint height (m : Shape) : nat :=
  match m with
  | TwoPath _ _ => 0%nat
  | TwoGroup _ _ _ _ cs => list_max (map (fun c => S (height c)) cs)
  end.

(** A node without submobjects whose path has points. *)
Definition NonEmptyLeaf (m : Shape) : Prop :=
  exists pr st fi lw a vs c, m = TwoGroup pr st fi lw [TwoPath (a :: vs) c].

(** The point lists [alignPoints] leaves behind: of equal length, or
    the shorter one reset to a single blank anchor. *)
Definition PointsSettled (px py : list Anchor) : Prop :=
  length px = length py \/
  (px = [Group.blankAnchor] /\ (2 <= length py)%nat) \/
  (py = [Group.blankAnchor] /\ (2 <= length px)%nat).

(** A pair on which the three level steps of [alignData] have nothing
    left to do. *)
Definition LevelSettled (x y : Shape) : Prop :=
  exists px py sx sy,
    Group.points x = Some px /\ Group.points y = Some py /\
    Group.submobjects x = Some sx /\ Group.submobjects y = Some sy /\
    length sx = length sy /\ PointsSettled px py.

(** [m'] is [m] up to class and style, with submobjects of the same
    heights. *)
Definition SameFrame (m m' : Shape) : Prop :=
  exists pr st fi lw pr' st' fi' lw' vs c subs subs',
    m = TwoGroup pr st fi lw (TwoPath vs c :: subs) /\
    m' = TwoGroup pr' st' fi' lw' (TwoPath vs c :: subs') /\
    Forall WellFormed subs' /\
    map height subs' = map height subs.

(** A child that fits under a pair of height [H]: lower than [H], or a
    leaf with points. *)
Definition Fits (H : nat) (c : Shape) : Prop :=
  WellFormed c /\ ((height c < H)%nat \/ NonEmptyLeaf c).

(** A node whose submobjects all fit under [H]. *)
Definition Kids (H : nat) (m : Shape) : Prop :=
  exists pr st fi lw vs c subs,
    m = TwoGroup pr st fi lw (TwoPath vs c :: subs) /\ Forall (Fits H) subs.

(** The segments of a path, four control points each. *)
Fixpoint quadsOf (vs : list Anchor) : list (list Vec) :=
  match vs with
  | a :: rest =>
      match rest with
      | b :: _ => [pos a; controlsRight a; controlsLeft b; pos b] :: quadsOf rest
      | [] => []
      end
  | [] => []
  end.

(** Segments that follow one another from [start] to [stop]: each
    begins where the one before it ends. *)
Fixpoint ChainedFrom (start : Vec) (qs : list (list Vec)) (stop : Vec) : Prop :=
  match qs with
  | [] => start = stop
  | q :: qs' =>
      exists p1 p2 p3, q = [start; p1; p2; p3] /\ ChainedFrom p3 qs' stop
  end.

(** The anchors the filling loop of [setAnchorsFromPoints] arrives at
    from the anchor [a] and the blank anchors [zs] after it. *)
Fixpoint filled (a : Anchor) (qs : list (list Vec)) (zs : list Anchor)
    : list Anchor :=
  match qs, zs with
  | [p0; p1; p2; p3] :: qs', z :: zs' =>
      mkAnchor p0 (controlsLeft a) p1 (command a) (relative a)
        :: filled (mkAnchor p3 p2 (controlsRight z) (command z) (relative z)) qs' zs'
  | _, _ => a :: zs
  end.

(** A node of a class whose [applyStyle] sets the stroke and fill of
    the node itself. *)
Definition KeepsStyle (m : Shape) : Prop :=
  match m with
  | TwoGroup pr _ _ _ _ => Group.propagates pr = false
  | TwoPath _ _ => False
  end.

(** [m'] has the stroke and the fill that [getStyleDict] reads from
    [m]: the colours of [m], each with the alpha read from the byte of
    its hex string. *)
Definition ColoursReadFrom (m m' : Shape) : Prop :=
  exists pr st fi lw cs pr' lw' cs',
    m = TwoGroup pr st fi lw cs /\
    m' = TwoGroup pr' (fst st, hexAlpha st) (fst fi, hexAlpha fi) lw' cs'.

(** Two vectors, two anchors with equal coordinates. *)
Definition Veq (p q : Vec) : Prop := fst p == fst q /\ snd p == snd q.

Definition Aeq (a b : Anchor) : Prop :=
  Veq (pos a) (pos b) /\ Veq (controlsLeft a) (controlsLeft b) /\
  Veq (controlsRight a) (controlsRight b) /\
  command a = command b /\ relative a = relative b.

(** Two trees with equally many hierarchy members that have points. *)
Definition SameMembers (a b : Shape) : Prop :=
  exists ha hb ma mb,
    Group.getMobjectHeirarchy a = Some ha /\
    Group.getMobjectHeirarchy b = Some hb /\
    Animation.heirarchyMembersWithPoints ha = Some ma /\
    Animation.heirarchyMembersWithPoints hb = Some mb /\
    length ma = length mb.

(** ** Example objects *)

Module Examples.

(** An environment: white and black, the defaults of a new
    [Two.Group], no size, an empty bounding rectangle. *)
Definition env0 : Group.Env :=
  Group.mkEnv 16777215 0 (0%N, 1) (16777215%N, 1) 1
    (fun _ => (0, 0)) (fun _ => (0, 0, 0, 0)).

(** A corner anchor: both controls on the position. *)
Definition corner (x y : Z) : Anchor :=
  mkAnchor (inject_Z x, inject_Z y) (inject_Z x, inject_Z y)
           (inject_Z x, inject_Z y) CmdCurve false.

Definition mob (vs : list Anchor) (subs : list Shape) : Shape :=
  Group.newMobject env0 PMobject (TwoPath vs false) subs noPatch.

(** A closed triangle: the last anchor is on the first. *)
Definition triangle : Shape :=
  mob [corner 0 0; corner 4 0; corner 0 4; corner 0 0] [].

Definition segment : Shape := mob [corner 1 1; corner 2 3] [].


(** A red triangle, its fill a third opaque. *)
Definition tinted : Shape :=
  Group.newMobject env0 PPolygon
    (TwoPath [corner 0 0; corner 4 0; corner 0 4; corner 0 0] true) []
    (mkPatch (Some (16711680%N, 1)) None (Some (16711680%N, 1)) (Some (1 # 3)) None).

(** A grouping node without points over two shapes. *)
Definition pair : Shape := mob [] [triangle; segment].

(** The state [begin()] leaves a node of [triangle] in: the partial
    path at 0. *)
Definition collapsed : Shape := mob [corner 0 0; corner 0 0] [].

(** A [Group] built with [fillTopLevel] over the path of [triangle],
    with the stroke and fill of a new [Two.Group]. *)
Definition bareGroup : Shape :=
  TwoGroup PGroup (0%N, 1) (16777215%N, 1) 1
    [TwoPath [corner 0 0; corner 4 0; corner 0 4; corner 0 0] false].

End Examples.

(* ================================================================== *)
(** * Part III: properties                                             *)
(* ================================================================== *)

(** ** Helper facts on rationals *)

Lemma Qleb_true (a b : Q) : Qleb a b = true <-> a <= b.
Proof. unfold Qleb. apply Qle_bool_iff. Qed.

Lemma Qleb_false (a b : Q) : Qleb a b = false <-> b < a.
Proof.
  unfold Qleb. split; intro H.
  - apply Qnot_le_lt. intro Hle. apply Qle_bool_iff in Hle. congruence.
  - destruct (Qle_bool a b) eqn:E; [|reflexivity].
    apply Qle_bool_iff in E. exfalso. apply (Qlt_not_le _ _ H E).
Qed.

Lemma Qltb_true (a b : Q) : Qltb a b = true <-> a < b.
Proof.
  unfold Qltb. rewrite negb_true_iff. apply Qleb_false.
Qed.

Lemma Qltb_false (a b : Q) : Qltb a b = false <-> b <= a.
Proof.
  unfold Qltb. rewrite negb_false_iff. apply Qleb_true.
Qed.

Lemma inject_Z_nat_nonneg (n : nat) : 0 <= inject_Z (Z.of_nat n).
Proof.
  change 0 with (inject_Z 0). rewrite <- Zle_Qle. lia.
Qed.

Lemma inject_Z_nat_le (i n : nat) :
  (i < n)%nat -> inject_Z (Z.of_nat i) <= inject_Z (Z.of_nat n - 1).
Proof. intro H. rewrite <- Zle_Qle. lia. Qed.

(** ** getSubAlpha *)

Lemma getSubAlpha_at_0 (lagRatio : Q) (i n : nat) :
  0 <= lagRatio -> Animation.getSubAlpha lagRatio 0 i n = 0.
Proof.
  intro Hl. unfold Animation.getSubAlpha.
  assert (H : Qleb ((inject_Z (Z.of_nat n - 1) * lagRatio + 1) * 0)
                   (lagRatio * inject_Z (Z.of_nat i)) = true).
  { apply Qleb_true. pose proof (inject_Z_nat_nonneg i) as Hi.
    assert (0 <= lagRatio * inject_Z (Z.of_nat i)) by (apply Qmult_le_0_compat; assumption).
    lra. }
  rewrite H. reflexivity.
Qed.

Lemma getSubAlpha_at_1 (lagRatio : Q) (i n : nat) :
  0 <= lagRatio -> (i < n)%nat -> Animation.getSubAlpha lagRatio 1 i n = 1.
Proof.
  intros Hl Hi. unfold Animation.getSubAlpha.
  pose proof (inject_Z_nat_le Hi) as Hle.
  assert (Hm : lagRatio * inject_Z (Z.of_nat i)
               <= inject_Z (Z.of_nat n - 1) * lagRatio).
  { rewrite (Qmult_comm (inject_Z (Z.of_nat n - 1))).
    rewrite (Qmult_comm lagRatio), (Qmult_comm lagRatio).
    apply Qmult_le_compat_r; assumption. }
  assert (H1 : Qleb ((inject_Z (Z.of_nat n - 1) * lagRatio + 1) * 1)
                    (lagRatio * inject_Z (Z.of_nat i)) = false).
  { apply Qleb_false. lra. }
  assert (H2 : Qleb (lagRatio * inject_Z (Z.of_nat i) + 1)
                    ((inject_Z (Z.of_nat n - 1) * lagRatio + 1) * 1) = true).
  { apply Qleb_true. lra. }
  rewrite H1, H2. reflexivity.
Qed.

Lemma getSubAlpha_no_lag (alpha : Q) (i n : nat) :
  0 <= alpha -> alpha <= 1 -> Animation.getSubAlpha 0 alpha i n == alpha.
Proof.
  intros H0 H1. unfold Animation.getSubAlpha. cbv zeta.
  destruct (Qleb ((inject_Z (Z.of_nat n - 1) * 0 + 1) * alpha)
                 (0 * inject_Z (Z.of_nat i))) eqn:E1.
  - apply Qleb_true in E1. lra.
  - destruct (Qleb (0 * inject_Z (Z.of_nat i) + 1)
                   ((inject_Z (Z.of_nat n - 1) * 0 + 1) * alpha)) eqn:E2.
    + apply Qleb_true in E2. lra.
    + ring.
Qed.

(** The loop of [interpolateMobject] hands the same sub-alpha to every
    node as soon as [getSubAlpha] is constant on the indices it visits. *)
Lemma interpolateLoop_constant (Store Args : Type) (lagRatio : Q)
    (step : Q -> Args -> Store -> Store) (alpha v : Q) (n : nat) :
  (forall i, (i < n)%nat -> Animation.getSubAlpha lagRatio alpha i n = v) ->
  forall (rest : list Args) (i : nat) (st : Store),
    (i + length rest <= n)%nat ->
    Animation.interpolateLoop lagRatio step alpha n i rest st
    = fold_left (fun s a => step v a s) rest st.
Proof.
  intros Hv. induction rest as [|a rest IH]; intros i st Hlen; simpl in *.
  - reflexivity.
  - rewrite Hv by lia. apply IH. lia.
Qed.

(** ** Claims on the timing engine *)

(** C5: [Animation.interpolate] replaces an alpha below 0 by 0 and an
    alpha above 1 by 1 before the rate function is applied; the value
    handed to the rate function always lies in [0,1], and the call is
    the call of [interpolateMobject] at that value (a total function of
    the store: nothing is raised for an out-of-range alpha). *)
Theorem interpolate_clamps_alpha :
  forall (Store Args : Type) (rateFunc : Q -> Q) (lagRatio : Q)
         (getAll : Store -> list Args) (step : Q -> Args -> Store -> Store)
         (alpha : Q) (st : Store),
    let run := Animation.interpolate rateFunc lagRatio getAll step in
    (alpha < 0 -> run alpha st = run 0 st) /\
    (1 < alpha -> run alpha st = run 1 st) /\
    (0 <= alpha -> alpha <= 1 -> Animation.clampAlpha alpha = alpha) /\
    (0 <= Animation.clampAlpha alpha /\ Animation.clampAlpha alpha <= 1) /\
    run alpha st
    = Animation.interpolateMobject lagRatio getAll step
        (rateFunc (Animation.clampAlpha alpha)) st.
Proof.
  intros Store Args rateFunc lagRatio getAll step alpha st run.
  unfold run, Animation.interpolate, Animation.clampAlpha.
  repeat split.
  - intro H. apply Qltb_true in H. rewrite H. reflexivity.
  - intro H. assert (H0 : Qltb alpha 0 = false) by (apply Qltb_false; lra).
    apply Qltb_true in H. rewrite H0, H. reflexivity.
  - intros H0 H1. apply Qltb_false in H0. apply Qltb_false in H1.
    rewrite H0, H1. reflexivity.
  - destruct (Qltb alpha 0) eqn:E0; [lra|].
    destruct (Qltb 1 alpha) eqn:E1; [lra|]. apply Qltb_false in E0. exact E0.
  - destruct (Qltb alpha 0) eqn:E0; [lra|].
    destruct (Qltb 1 alpha) eqn:E1; [lra|]. apply Qltb_false in E1. exact E1.
Qed.

Lemma interpolate_clamps_alpha_witness :
  let run := Animation.interpolate (fun a => a * a) (1 # 2)
               (fun st : list Q => seq 0 (length st))
               (fun (a : Q) (k : nat) (st : list Q) => a :: st) in
  run (-3 # 2) [0; 0] = run 0 [0; 0] /\ run (5 # 2) [0; 0] = run 1 [0; 0] /\
  Animation.clampAlpha (1 # 3) = (1 # 3).
Proof.
  pose proof (interpolate_clamps_alpha (fun a => a * a) (1 # 2)
                (fun st : list Q => seq 0 (length st))
                (fun (a : Q) (k : nat) (st : list Q) => a :: st)) as H.
  intro run. split; [|split].
  - destruct (H (-3 # 2) [0; 0]) as (H1 & _). apply H1. reflexivity.
  - destruct (H (5 # 2) [0; 0]) as (_ & H2 & _). apply H2. reflexivity.
  - destruct (H (1 # 3) [0; 0]) as (_ & _ & H3 & _). apply H3; discriminate.
Defined.

(** C6: with [lagRatio = 0] the sub-alpha of every index [i < N] is the
    eased alpha itself, for every eased alpha in [0,1]. *)
Theorem getSubAlpha_lagRatio_zero :
  forall (easedAlpha : Q) (i N : nat),
    0 <= easedAlpha -> easedAlpha <= 1 -> (i < N)%nat ->
    Animation.getSubAlpha 0 easedAlpha i N == easedAlpha.
Proof.
  intros a i N H0 H1 _. apply getSubAlpha_no_lag; assumption.
Qed.

Lemma getSubAlpha_lagRatio_zero_witness :
  Animation.getSubAlpha 0 (1 # 3) 1 3 == (1 # 3).
Proof.
  apply (@getSubAlpha_lagRatio_zero (1 # 3) 1 3); [discriminate | discriminate | lia].
Defined.

(** C7: for three nodes and [lagRatio = 1/2], whenever node 2 has left
    sub-alpha 0, node 0 has already reached sub-alpha 1; and at the
    boundary [fullRuntime * easedAlpha = 1] node 0 gets exactly 1 and
    node 2 exactly 0. *)
Theorem getSubAlpha_stagger_three_nodes :
  forall easedAlpha : Q,
    (0 < Animation.getSubAlpha (1 # 2) easedAlpha 2 3 ->
     Animation.getSubAlpha (1 # 2) easedAlpha 0 3 = 1) /\
    ((inject_Z (Z.of_nat 3 - 1) * (1 # 2) + 1) * easedAlpha == 1 ->
     Animation.getSubAlpha (1 # 2) easedAlpha 0 3 = 1 /\
     Animation.getSubAlpha (1 # 2) easedAlpha 2 3 = 0).
Proof.
  intro a. unfold Animation.getSubAlpha.
  change (inject_Z (Z.of_nat 3 - 1)) with (2 # 1).
  change (inject_Z (Z.of_nat 0)) with (0 # 1).
  change (inject_Z (Z.of_nat 2)) with (2 # 1).
  split.
  - destruct (Qleb (((2 # 1) * (1 # 2) + 1) * a) ((1 # 2) * (2 # 1))) eqn:E1.
    + intro H. exfalso. apply (Qlt_irrefl 0). exact H.
    + apply Qleb_false in E1. intros _.
      assert (F : Qleb (((2 # 1) * (1 # 2) + 1) * a) ((1 # 2) * (0 # 1)) = false)
        by (apply Qleb_false; lra).
      assert (T : Qleb ((1 # 2) * (0 # 1) + 1) (((2 # 1) * (1 # 2) + 1) * a) = true)
        by (apply Qleb_true; lra).
      rewrite F, T. reflexivity.
  - intro Hs.
    assert (F : Qleb (((2 # 1) * (1 # 2) + 1) * a) ((1 # 2) * (0 # 1)) = false)
      by (apply Qleb_false; lra).
    assert (T : Qleb ((1 # 2) * (0 # 1) + 1) (((2 # 1) * (1 # 2) + 1) * a) = true)
      by (apply Qleb_true; lra).
    assert (T2 : Qleb (((2 # 1) * (1 # 2) + 1) * a) ((1 # 2) * (2 # 1)) = true)
      by (apply Qleb_true; lra).
    rewrite F, T, T2. split; reflexivity.
Qed.

Lemma getSubAlpha_stagger_three_nodes_witness :
  Animation.getSubAlpha (1 # 2) (3 # 4) 0 3 = 1 /\
  (Animation.getSubAlpha (1 # 2) (1 # 2) 0 3 = 1 /\
   Animation.getSubAlpha (1 # 2) (1 # 2) 2 3 = 0).
Proof.
  split.
  - apply (proj1 (getSubAlpha_stagger_three_nodes (3 # 4))). reflexivity.
  - apply (proj2 (getSubAlpha_stagger_three_nodes (1 # 2))). reflexivity.
Defined.

(** C9: a [Write] built without runtime and lag ratio on a hierarchy
    of length 0 gets well-defined defaults: the runtime is the longer
    default 2, and the lag ratio is 0.2, since the quotient [4 / 0] is
    [+Infinity] and [Math.min(4 / length, 0.2)] keeps it out of the
    result; for every length the default lag ratio is a finite number
    in (0, 0.2]. *)
Theorem write_defaults_length_zero :
  Write.construct 0 None None
  = Write.mkConfig (Some (Fin 2)) (Some (Fin (2 # 10))) /\
  num_div 4 (inject_Z (Z.of_nat 0)) = PosInf /\
  forall length : nat,
    exists q : Q,
      Write.lagRatio (Write.construct length None None) = Some (Fin q) /\
      0 < q /\ q <= 2 # 10.
Proof.
  split; [reflexivity|]. split; [reflexivity|].
  intro len.
  assert (Hlag : Write.lagRatio (Write.construct len None None)
                 = Some (Math_min (num_div 4 (inject_Z (Z.of_nat len))) (Fin (2 # 10)))).
  { unfold Write.construct, Write.setConfigFromLength. simpl.
    destruct (negb (len =? 0)%nat); reflexivity. }
  rewrite Hlag. clear Hlag. unfold num_div.
  destruct (Qeq_bool (inject_Z (Z.of_nat len)) 0) eqn:E.
  - exists (2 # 10). split; [reflexivity|]. split; [reflexivity|discriminate].
  - assert (Hpos : 0 < inject_Z (Z.of_nat len)).
    { apply Qeq_bool_neq in E. pose proof (inject_Z_nat_nonneg len) as H.
      apply Qle_lt_or_eq in H. destruct H as [H|H]; [exact H|].
      exfalso. apply E. symmetry. exact H. }
    assert (Hq : 0 < 4 / inject_Z (Z.of_nat len)).
    { apply Qlt_shift_div_l; [exact Hpos|]. lra. }
    unfold Math_min.
    destruct (Qleb (4 / inject_Z (Z.of_nat len)) (2 # 10)) eqn:L.
    + exists (4 / inject_Z (Z.of_nat len)). apply Qleb_true in L.
      split; [reflexivity|]. split; assumption.
    + exists (2 # 10). split; [reflexivity|]. split; [reflexivity|discriminate].
Qed.

(** C10: for [N >= 1] nodes, any index [i < N] and any [lagRatio >= 0],
    the sub-alpha at eased alpha 0 is 0 and at eased alpha 1 is 1; so
    [interpolateMobject] at 0 runs every node's step at 0, and at 1
    runs every node's step at 1. *)
Theorem getSubAlpha_endpoints :
  forall (lagRatio : Q) (N i : nat),
    0 <= lagRatio -> (1 <= N)%nat -> (i < N)%nat ->
    (Animation.getSubAlpha lagRatio 0 i N = 0 /\
     Animation.getSubAlpha lagRatio 1 i N = 1) /\
    forall (Store Args : Type) (getAll : Store -> list Args)
           (step : Q -> Args -> Store -> Store) (st : Store),
      Animation.interpolateMobject lagRatio getAll step 0 st
      = fold_left (fun s a => step 0 a s) (getAll st) st /\
      Animation.interpolateMobject lagRatio getAll step 1 st
      = fold_left (fun s a => step 1 a s) (getAll st) st.
Proof.
  intros lagRatio N i Hl HN Hi. split.
  - split; [apply getSubAlpha_at_0 | apply getSubAlpha_at_1]; assumption.
  - intros Store Args getAll step st. unfold Animation.interpolateMobject. split.
    + apply interpolateLoop_constant; [|simpl; lia].
      intros j _. apply getSubAlpha_at_0; assumption.
    + apply interpolateLoop_constant; [|simpl; lia].
      intros j Hj. apply getSubAlpha_at_1; assumption.
Qed.

Lemma getSubAlpha_endpoints_witness :
  Animation.getSubAlpha (1 # 5) 0 2 4 = 0 /\
  Animation.getSubAlpha (1 # 5) 1 2 4 = 1.
Proof.
  apply (@getSubAlpha_endpoints (1 # 5) 4 2); [discriminate | lia | lia].
Defined.
(** ** The error monad *)

Lemma bind_Some (A B : Type) (m : Exc A) (k : A -> Exc B) (r : B) :
  bind m k = Some r -> exists a, m = Some a /\ k a = Some r.
Proof.
  destruct m as [a|]; simpl; intro H; [exists a; split; [reflexivity|exact H] | discriminate].
Qed.

(** Splits a hypothesis [x <- m;; k = Some r] into its two steps. *)
Ltac inv_bind H :=
  let a := fresh "a" in
  let Ha := fresh "Ha" in
  apply bind_Some in H; destruct H as (a & Ha & H).

Lemma mapM_length (A B : Type) (f : A -> Exc B) (l : list A) (r : list B) :
  mapM f l = Some r -> length r = length l.
Proof.
  revert r. induction l as [|x l IH]; simpl; intros r H.
  - inversion H. reflexivity.
  - inv_bind H. inv_bind H. inversion H. subst. simpl. f_equal. apply IH. assumption.
Qed.

Lemma mapM_total (A B : Type) (f : A -> Exc B) (l : list A) :
  (forall x, In x l -> exists y, f x = Some y) -> exists r, mapM f l = Some r.
Proof.
  induction l as [|x l IH]; simpl; intro H.
  - eexists. reflexivity.
  - destruct (H x (or_introl eq_refl)) as (y & Hy). rewrite Hy. simpl.
    destruct IH as (r & Hr); [intros; apply H; right; assumption|].
    rewrite Hr. simpl. eexists. reflexivity.
Qed.

(** ** The proportional allocation *)

Lemma list_sum_map_add (A : Type) (f g : A -> nat) (l : list A) :
  list_sum (map (fun i => (f i + g i)%nat) l)
  = (list_sum (map f l) + list_sum (map g l))%nat.
Proof. induction l as [|x l IH]; simpl; lia. Qed.

Lemma list_sum_indicator (a start len : nat) :
  list_sum (map (fun i => if Nat.eq_dec a i then 1%nat else 0%nat) (seq start len))
  = if (start <=? a)%nat && (a <? start + len)%nat then 1%nat else 0%nat.
Proof.
  revert start. induction len as [|len IH]; intro start; simpl.
  - destruct (Nat.leb_spec start a), (Nat.ltb_spec a (start + 0)); simpl; lia.
  - rewrite IH. destruct (Nat.eq_dec a start) as [->|Hne].
    + destruct (Nat.leb_spec (S start) start); [lia|]. simpl.
      destruct (Nat.leb_spec start start), (Nat.ltb_spec start (start + S len)); simpl; lia.
    + destruct (Nat.leb_spec (S start) a), (Nat.leb_spec start a),
        (Nat.ltb_spec a (S start + len)), (Nat.ltb_spec a (start + S len)); simpl; lia.
Qed.

Lemma count_occ_cons_add (l : list nat) (a i : nat) :
  count_occ Nat.eq_dec (a :: l) i
  = ((if Nat.eq_dec a i then 1 else 0) + count_occ Nat.eq_dec l i)%nat.
Proof. simpl. destruct (Nat.eq_dec a i); reflexivity. Qed.

(** Counting, for every slot below [n], the entries of [l] that go to
    it counts every entry once. *)
Lemma sum_count_occ (l : list nat) (n : nat) :
  (forall x, In x l -> (x < n)%nat) ->
  list_sum (map (fun i => count_occ Nat.eq_dec l i) (seq 0 n)) = length l.
Proof.
  induction l as [|a l IH]; intro H.
  - simpl. induction (seq 0 n); simpl; auto.
  - rewrite (map_ext _ (fun i => ((if Nat.eq_dec a i then 1 else 0)
                                   + count_occ Nat.eq_dec l i)%nat))
      by (intro i; apply count_occ_cons_add).
    rewrite list_sum_map_add, list_sum_indicator.
    assert (IH' : list_sum (map (fun i => count_occ Nat.eq_dec l i) (seq 0 n)) = length l)
      by (apply IH; intros; apply H; right; assumption).
    assert (a < n)%nat by (apply H; left; reflexivity).
    replace (list_sum (map (count_occ Nat.eq_dec l) (seq 0 n))) with (length l)
      by (symmetry; exact IH').
    destruct (Nat.leb_spec 0 a), (Nat.ltb_spec a (0 + n)); simpl in *; lia.
Qed.

Lemma repeatIndices_length (current target : nat) :
  length (Group.repeatIndices current target) = target.
Proof. unfold Group.repeatIndices, arange. rewrite length_map, length_seq. reflexivity. Qed.

Lemma repeatIndices_lt (current target x : nat) :
  (1 <= current)%nat ->
  In x (Group.repeatIndices current target) -> (x < current)%nat.
Proof.
  intro Hc. unfold Group.repeatIndices, arange. rewrite in_map_iff.
  intros (j & <- & Hj). apply in_seq in Hj.
  apply Nat.Div0.div_lt_upper_bound. nia.
Qed.

Lemma splitFactors_length (current target : nat) :
  length (Group.splitFactors current target) = current.
Proof. unfold Group.splitFactors. rewrite length_map, length_seq. reflexivity. Qed.

Lemma splitFactors_sum (current target : nat) :
  (1 <= current)%nat ->
  list_sum (Group.splitFactors current target) = target.
Proof.
  intro Hc. unfold Group.splitFactors. rewrite sum_count_occ.
  - apply repeatIndices_length.
  - intros x Hx. eapply repeatIndices_lt; eassumption.
Qed.

Lemma splitFactors_nth (current target i : nat) :
  (i < current)%nat ->
  nth i (Group.splitFactors current target) 0%nat
  = count_occ Nat.eq_dec (Group.repeatIndices current target) i.
Proof.
  intro Hi. unfold Group.splitFactors.
  rewrite (nth_indep _ 0%nat (count_occ Nat.eq_dec (Group.repeatIndices current target) 0%nat))
    by (rewrite length_map, length_seq; exact Hi).
  rewrite (map_nth (fun i => count_occ Nat.eq_dec (Group.repeatIndices current target) i)).
  rewrite seq_nth by exact Hi. reflexivity.
Qed.

(** Every old slot receives at least one of the new ones as soon as
    there are at least as many new slots as old ones. *)
Lemma splitFactors_pos (current target i : nat) :
  (current <= target)%nat -> (i < current)%nat ->
  (1 <= nth i (Group.splitFactors current target) 0)%nat.
Proof.
  intros Hct Hi. rewrite splitFactors_nth by exact Hi.
  apply (proj1 (count_occ_In Nat.eq_dec _ _)).
  unfold Group.repeatIndices, arange. apply in_map_iff.
  set (j := ((i * target + current - 1) / current)%nat).
  assert (Hc : (current <> 0)%nat) by lia.
  pose proof (Nat.div_mod (i * target + current - 1) current Hc) as Hdm.
  pose proof (Nat.mod_upper_bound (i * target + current - 1) current Hc) as Hmb.
  fold j in Hdm.
  assert (Hlo : (i * target <= j * current)%nat) by nia.
  assert (Hhi : (j * current < i * target + target)%nat) by nia.
  exists j. split.
  - assert (Ht : (target <> 0)%nat) by lia.
    symmetry. apply (Nat.div_unique (j * current) target i (j * current - i * target)); lia.
  - apply in_seq. split; [lia|]. simpl.
    assert ((j * current < current * target)%nat) by nia. nia.
Qed.

Lemma map_nth_seq (A : Type) (l : list A) (d : A) :
  map (fun i => nth i l d) (seq 0 (length l)) = l.
Proof.
  induction l as [|a l IH]; simpl; [reflexivity|].
  f_equal. rewrite <- seq_shift, map_map. exact IH.
Qed.
(** ** Nodes and their accessors *)

Lemma points_inv (m : Shape) (pts : list Anchor) :
  Group.points m = Some pts ->
  exists pr st fi lw c subs, m = TwoGroup pr st fi lw (TwoPath pts c :: subs).
Proof.
  destruct m as [|pr st fi lw [|[vs c|] subs]]; simpl; try discriminate.
  intro H. inversion H. subst. repeat eexists.
Qed.

Lemma points_node pr st fi lw vs c subs :
  Group.points (TwoGroup pr st fi lw (TwoPath vs c :: subs)) = Some vs.
Proof. reflexivity. Qed.

Lemma submobjects_node pr st fi lw p subs :
  Group.submobjects (TwoGroup pr st fi lw (p :: subs)) = Some subs.
Proof. reflexivity. Qed.

(** Replaces a hypothesis [points m = Some pts] by the shape of [m]. *)
Ltac node H :=
  let pr := fresh "pr" in
  let st := fresh "st" in
  let fi := fresh "fi" in
  let lw := fresh "lw" in
  let c := fresh "c" in
  let subs := fresh "subs" in
  apply points_inv in H; destruct H as (pr & st & fi & lw & c & subs & H);
  subst.

(** ** The steps of alignData, one by one *)

Section AlignSteps.

Variable env : Group.Env.

Lemma pushSelfIntoSubmobjects_node pr st fi lw pts c subs m' :
  Group.pushSelfIntoSubmobjects env (TwoGroup pr st fi lw (TwoPath pts c :: subs))
  = Some m' ->
  exists a cl, m' = TwoGroup pr st fi lw (TwoPath [a] false :: subs ++ [cl]).
Proof.
  unfold Group.pushSelfIntoSubmobjects.
  cbn [Group.path Group.getChildren bind nth_error Group.clone Group.getStyleDict
       Group.newMobject Group.restyle Group.paint map Group.applyStyle Group.propagates].
  intro H. inv_bind H.
  cbn [Group.setPath bind Group.add tl] in H. inversion H. subst.
  unfold pathFromAnchors. cbn [anchorsFrom]. eexists. eexists. reflexivity.
Qed.

Lemma nullPointAlign_post (x y x1 y1 : Shape) :
  Group.nullPointAlign env x y = Some (x1, y1) ->
  exists px py,
    Group.points x1 = Some px /\ Group.points y1 = Some py /\
    (length px = 0%nat -> (length py <= 1)%nat) /\
    (length py = 0%nat -> (length px <= 1)%nat).
Proof.
  unfold Group.nullPointAlign. intro H.
  inv_bind H. rename a into px. inv_bind H. rename a into py.
  pose proof Ha as Hx. pose proof Ha0 as Hy. node Ha. node Ha0.
  destruct (Nat.eqb_spec (length px) 0) as [Ex|Ex];
    destruct (Nat.eqb_spec (length py) 0) as [Ey|Ey]; cbn [andb negb] in H.
  - inversion H; subst. exists px, py. repeat split; auto; lia.
  - inv_bind H. inversion H; subst.
    apply pushSelfIntoSubmobjects_node in Ha. destruct Ha as (b & cl & ->).
    exists px, [b]. repeat split; auto; simpl; lia.
  - inv_bind H. inversion H; subst.
    apply pushSelfIntoSubmobjects_node in Ha. destruct Ha as (b & cl & ->).
    exists [b], py. repeat split; auto; simpl; lia.
  - inversion H; subst. exists px, py. repeat split; auto; lia.
Qed.

Lemma addPointMobjects_node (n : nat) :
  forall pr st fi lw p subs m',
    Group.addPointMobjects env n (TwoGroup pr st fi lw (p :: subs)) = Some m' ->
    exists extra,
      m' = TwoGroup pr st fi lw (p :: subs ++ extra) /\ length extra = n.
Proof.
  induction n as [|n IH]; intros pr st fi lw p subs m' H;
    cbn [Group.addPointMobjects] in H.
  - inversion H. exists []. rewrite app_nil_r. split; reflexivity.
  - inv_bind H. cbn [Group.add bind app] in H.
    change (p :: subs ++ [a]) with (p :: (subs ++ [a])) in H.
    apply IH in H. destruct H as (extra & -> & Hlen).
    exists (a :: extra). rewrite <- app_assoc. simpl. split; [reflexivity|lia].
Qed.

Lemma copiesOf_length (sub : Shape) (sf : nat) (l : list Shape) :
  Group.copiesOf env sub sf = Some l -> length l = S (sf - 1).
Proof.
  unfold Group.copiesOf. intro H. inv_bind H. inv_bind H. inversion H. subst.
  apply mapM_length in Ha0. rewrite length_seq in Ha0. simpl. lia.
Qed.

Lemma mapM_concat_length (A B : Type) (f : A -> Exc (list B)) (g : A -> nat)
    (l : list A) (r : list (list B)) :
  (forall x y, In x l -> f x = Some y -> length y = g x) ->
  mapM f l = Some r -> length (concat r) = list_sum (map g l).
Proof.
  revert r. induction l as [|x l IH]; intros r Hg H; simpl in H.
  - inversion H. reflexivity.
  - inv_bind H. inv_bind H. inversion H. subst. simpl.
    rewrite length_app. f_equal.
    + apply Hg; [left; reflexivity|assumption].
    + apply IH; [|assumption]. intros; apply Hg; [right|]; assumption.
Qed.

Lemma map_fst_combine (A B : Type) (l1 : list A) (l2 : list B) :
  length l1 = length l2 -> map fst (combine l1 l2) = l1.
Proof.
  revert l2. induction l1 as [|a l1 IH]; intros [|b l2] H; simpl in *;
    try discriminate; [reflexivity|]. f_equal. apply IH. lia.
Qed.

(** The copies made for [current >= 1] submobjects are [current + n]
    in all. *)
Lemma copies_total (subs : list Shape) (n : nat) (copies : list (list Shape)) :
  (1 <= length subs)%nat ->
  mapM (fun isub : nat * Shape =>
          Group.copiesOf env (snd isub)
            (nth (fst isub) (Group.splitFactors (length subs) (length subs + n)) 0%nat))
       (combine (seq 0 (length subs)) subs) = Some copies ->
  length (concat copies) = (length subs + n)%nat.
Proof.
  intros Hpos H.
  set (sfs := Group.splitFactors (length subs) (length subs + n)) in *.
  pose proof (fun Hg => @mapM_concat_length _ _ _
                (fun isub : nat * Shape => nth (fst isub) sfs 0%nat) _ _ Hg H) as Hlen.
  rewrite Hlen; clear Hlen.
  - rewrite <- (map_map fst (fun i => nth i sfs 0%nat)).
    rewrite map_fst_combine by (rewrite length_seq; reflexivity).
    replace (length subs) with (length sfs) at 1
      by (apply splitFactors_length).
    rewrite map_nth_seq. apply splitFactors_sum. exact Hpos.
  - intros [i sub] y Hin Hy. simpl in *.
    apply copiesOf_length in Hy. rewrite Hy.
    apply in_combine_l, in_seq in Hin.
    pose proof (@splitFactors_pos (length subs) (length subs + n) i) as Hp.
    fold sfs in Hp. lia.
Qed.

Lemma addSubmobjects_node pr st fi lw p subs (n : nat) (m' : Shape) :
  Group.addSubmobjects env (TwoGroup pr st fi lw (p :: subs)) n = Some m' ->
  exists subs',
    m' = TwoGroup pr st fi lw (p :: subs') /\
    length subs' = (length subs + n)%nat.
Proof.
  unfold Group.addSubmobjects.
  cbn [Group.submobjects Group.getChildren bind tl].
  destruct (Nat.eqb_spec (length subs) 0) as [E|E]; intro H.
  - apply addPointMobjects_node in H. destruct H as (extra & -> & Hlen).
    destruct subs; [|discriminate]. exists extra. split; [reflexivity|].
    simpl. exact Hlen.
  - inv_bind H. cbn [Group.setSubmobjects bind Group.add app] in H.
    inversion H. subst. exists (concat a). split; [reflexivity|].
    apply copies_total; [lia|assumption].
Qed.

Lemma alignSubmobjects_post (x y x2 y2 : Shape) (px py : list Anchor) :
  Group.alignSubmobjects env x y = Some (x2, y2) ->
  Group.points x = Some px -> Group.points y = Some py ->
  Group.points x2 = Some px /\ Group.points y2 = Some py /\
  exists sx sy,
    Group.submobjects x2 = Some sx /\ Group.submobjects y2 = Some sy /\
    length sx = length sy.
Proof.
  intros H Hx Hy. node Hx. node Hy. revert H.
  unfold Group.alignSubmobjects.
  cbn [Group.submobjects Group.getChildren bind tl].
  destruct (Nat.eqb_spec (length subs) (length subs0)) as [E|E].
  - intro H. inversion H. subst. repeat split. exists subs, subs0.
    repeat split. exact E.
  - destruct (Nat.ltb_spec (length subs) (length subs0)) as [L|L]; intro H;
      inv_bind H; inversion H; subst;
      apply addSubmobjects_node in Ha; destruct Ha as (subs' & -> & Hlen);
      repeat split; eexists; eexists; repeat split; simpl; lia.
Qed.

Lemma partialBezierPoints_length (s e : Anchor) (a b : Q) :
  length (partialBezierPoints s e a b) = 4%nat.
Proof.
  unfold partialBezierPoints. destruct (Qeq_bool b 0); reflexivity.
Qed.

Lemma linspace_length (start stop : Q) (num : nat) :
  length (linspace start stop num) = num.
Proof.
  unfold linspace. destruct num as [|[|num]]; [reflexivity|reflexivity|].
  rewrite length_map, length_seq. reflexivity.
Qed.

Lemma concat_map_length_const (A B : Type) (f : A -> list B) (k : nat) (l : list A) :
  (forall x, length (f x) = k) -> length (concat (map f l)) = (k * length l)%nat.
Proof.
  intro H. induction l as [|x l IH]; simpl; [lia|].
  rewrite length_app, H, IH. lia.
Qed.

Lemma piecesOf_length (s e : Anchor) (sf : nat) :
  length (Group.piecesOf s e sf) = (4 * sf)%nat.
Proof.
  unfold Group.piecesOf.
  rewrite (@concat_map_length_const _ _ _ 4%nat)
    by (intro; apply partialBezierPoints_length).
  rewrite length_seq, linspace_length. lia.
Qed.

Lemma list_sum_map_mul (k : nat) (l : list nat) :
  list_sum (map (fun x => (k * x)%nat) l) = (k * list_sum l)%nat.
Proof. induction l as [|x l IH]; simpl; lia. Qed.

(** [addPoints] on a path with at least one curve: the node is left as
    it is and four points come back for each curve of the target. *)
Lemma addPoints_curves pr st fi lw pts c subs (n : nat) :
  (2 <= length pts)%nat ->
  exists newPoints,
    Group.addPoints (TwoGroup pr st fi lw (TwoPath pts c :: subs)) n
    = Some (TwoGroup pr st fi lw (TwoPath pts c :: subs), newPoints) /\
    length newPoints = (4 * (length pts - 1 + n))%nat.
Proof.
  intro Hlen. unfold Group.addPoints.
  rewrite points_node. cbn [bind].
  destruct (Nat.eqb_spec (length pts) 1) as [E|_]; [lia|].
  cbn [bind]. rewrite points_node. cbn [bind].
  set (sfs := Group.splitFactors (length pts - 1) (length pts - 1 + n)).
  set (body := fun i : nat =>
                 curveStart <- nth_error pts i;;
                 curveEnd <- nth_error pts (S i);;
                 Some (Group.piecesOf curveStart curveEnd (nth i sfs 0%nat))).
  destruct (@mapM_total _ _ body (seq 0 (length pts - 1))) as (pieces & Hp).
  { intros i Hi. apply in_seq in Hi. unfold body.
    destruct (nth_error pts i) as [s|] eqn:Es;
      [|apply nth_error_None in Es; lia].
    destruct (nth_error pts (S i)) as [e|] eqn:Ee;
      [|apply nth_error_None in Ee; lia].
    simpl. eexists. reflexivity. }
  rewrite Hp. cbn [bind]. eexists. split; [reflexivity|].
  pose proof (fun Hg => @mapM_concat_length _ _ body
                (fun i => (4 * nth i sfs 0)%nat) _ _ Hg Hp) as Hl.
  rewrite Hl; clear Hl.
  - rewrite <- (map_map (fun i => nth i sfs 0%nat) (fun x => (4 * x)%nat)).
    rewrite list_sum_map_mul. f_equal.
    replace (length pts - 1)%nat with (length sfs) at 1
      by (apply splitFactors_length).
    rewrite map_nth_seq. apply splitFactors_sum. lia.
  - intros i y _ Hy. unfold body in Hy.
    destruct (nth_error pts i); [|discriminate].
    destruct (nth_error pts (S i)); [|discriminate].
    simpl in Hy. inversion Hy. apply piecesOf_length.
Qed.

(** [addPoints] on a path of one point: the clones are pushed and no
    point comes back. *)
Lemma addPoints_single pr st fi lw a c subs (n : nat) :
  Group.addPoints (TwoGroup pr st fi lw (TwoPath [a] c :: subs)) n
  = Some (TwoGroup pr st fi lw (TwoPath (a :: repeat a n) c :: subs), []).
Proof. reflexivity. Qed.

Lemma update_length (A : Type) (i : nat) (f : A -> A) (l : list A) :
  length (update i f l) = length l.
Proof.
  revert i. induction l as [|x l IH]; intros [|i]; simpl; auto.
Qed.

Lemma fillAnchors_length (t : nat) :
  forall (points : list Vec) (k : nat) (anchors : list Anchor),
    length points = (4 * t)%nat ->
    exists r, Group.fillAnchors points k anchors = Some r /\
              length r = length anchors.
Proof.
  induction t as [|t IH]; intros points k anchors Hlen.
  - destruct points; [|simpl in Hlen; lia]. eexists. split; reflexivity.
  - destruct points as [|p0 [|p1 [|p2 [|p3 rest]]]]; simpl in Hlen; try lia.
    cbn [Group.fillAnchors].
    destruct (IH rest (S k)
                (update (S k) (fun a => mkAnchor p3 p2 (controlsRight a) (command a) (relative a))
                   (update k (fun a => mkAnchor p0 (controlsLeft a) p1 (command a) (relative a))
                      anchors))) as (r & Hr & Hl); [lia|].
    exists r. split; [exact Hr|]. rewrite Hl, !update_length. reflexivity.
Qed.

Lemma setAnchorsFromPoints_node pr st fi lw pts c subs (points : list Vec) (t : nat) :
  length points = (4 * t)%nat ->
  exists anchors,
    Group.setAnchorsFromPoints (TwoGroup pr st fi lw (TwoPath pts c :: subs)) points
    = Some (TwoGroup pr st fi lw (TwoPath anchors c :: subs)) /\
    length anchors = S t.
Proof.
  intro Hlen. unfold Group.setAnchorsFromPoints, Group.anchorsFromPoints.
  destruct (@fillAnchors_length t points 0
              (repeat Group.blankAnchor ((length points + 3) / 4 + 1)) Hlen)
    as (r & Hr & Hl).
  rewrite Hr. cbn [bind Group.setVertices]. exists r. split; [reflexivity|].
  rewrite Hl, repeat_length, Hlen.
  replace (4 * t + 3)%nat with (3 + t * 4)%nat by lia.
  rewrite Nat.div_add by lia. simpl. lia.
Qed.

Lemma setAnchorsFromPoints_nil pr st fi lw pts c subs :
  Group.setAnchorsFromPoints (TwoGroup pr st fi lw (TwoPath pts c :: subs)) []
  = Some (TwoGroup pr st fi lw (TwoPath [Group.blankAnchor] c :: subs)).
Proof. reflexivity. Qed.

Lemma getPixelCenter_node pr st fi lw pts c subs :
  exists center,
    Group.getPixelCenter env (TwoGroup pr st fi lw (TwoPath pts c :: subs))
    = Some center.
Proof.
  unfold Group.getPixelCenter. rewrite points_node. cbn [bind].
  destruct (length pts =? 0)%nat; [eexists; reflexivity|].
  destruct (Group.getBoundingClientRect env _) as [[[rl rt] rw] rh].
  eexists; reflexivity.
Qed.

Lemma seedPoint_node (this : Shape) (pt : list Anchor) pr st fi lw pts c subs :
  Group.points this = Some pt ->
  exists pts',
    Group.seedPoint env this (TwoGroup pr st fi lw (TwoPath pts c :: subs))
    = Some (TwoGroup pr st fi lw (TwoPath pts' c :: subs)) /\
    ((length pts = 0%nat /\ length pts' = 1%nat) \/
     (length pts <> 0%nat /\ pts' = pts)).
Proof.
  intro Ht. node Ht. unfold Group.seedPoint. rewrite points_node. cbn [bind].
  destruct (Nat.eqb_spec (length pts) 0) as [E|E].
  - destruct (getPixelCenter_node pr0 st0 fi0 lw0 pt c0 subs0) as (center & Hc).
    rewrite Hc. cbn [bind Group.setVertices].
    eexists. split; [reflexivity|]. left. split; [exact E|].
    rewrite length_app, E. reflexivity.
  - exists pts. split; [reflexivity|]. right. split; [exact E|reflexivity].
Qed.

Lemma length_one (A : Type) (l : list A) :
  length l = 1%nat -> exists a, l = [a].
Proof.
  destruct l as [|a [|b l]]; simpl; intro H; try lia. exists a. reflexivity.
Qed.

(** What the shorter side of [alignPoints] becomes. *)
Lemma grow_fewer pr st fi lw pts c subs (more : list Anchor) :
  (1 <= length pts)%nat -> (length pts <= length more)%nat ->
  exists newPoints fewer pts',
    Group.addPoints (TwoGroup pr st fi lw (TwoPath pts c :: subs))
      (length more - length pts) = Some (fewer, newPoints) /\
    Group.setAnchorsFromPoints fewer newPoints
    = Some (TwoGroup pr st fi lw (TwoPath pts' c :: subs)) /\
    ((length pts = 1%nat /\ pts' = [Group.blankAnchor]) \/
     ((2 <= length pts)%nat /\ length pts' = length more)).
Proof.
  intros H1 Hle.
  destruct (Nat.eq_dec (length pts) 1) as [E|E].
  - destruct (length_one pts E) as (a & ->).
    rewrite addPoints_single. eexists. eexists. eexists.
    split; [reflexivity|]. rewrite setAnchorsFromPoints_nil.
    split; [reflexivity|]. left. split; reflexivity.
  - destruct (@addPoints_curves pr st fi lw pts c subs (length more - length pts))
      as (newPoints & Hadd & Hlen); [lia|].
    destruct (@setAnchorsFromPoints_node pr st fi lw pts c subs newPoints _ Hlen)
      as (anchors & Hset & Hal).
    exists newPoints. eexists. exists anchors.
    split; [exact Hadd|]. split; [exact Hset|]. right. split; [lia|]. lia.
Qed.

Lemma alignPoints_node prx stx fix_ lwx px cx sx pry sty fiy lwy py cy sy :
  (length px = 0%nat -> (length py <= 1)%nat) ->
  (length py = 0%nat -> (length px <= 1)%nat) ->
  exists px' py',
    Group.alignPoints env (TwoGroup prx stx fix_ lwx (TwoPath px cx :: sx))
                          (TwoGroup pry sty fiy lwy (TwoPath py cy :: sy))
    = Some (TwoGroup prx stx fix_ lwx (TwoPath px' cx :: sx),
            TwoGroup pry sty fiy lwy (TwoPath py' cy :: sy)) /\
    PointsSettled px' py'.
Proof.
  intros Hx0 Hy0. unfold Group.alignPoints. rewrite !points_node. cbn [bind].
  destruct (Nat.eqb_spec (length px) (length py)) as [E|E].
  { exists px, py. split; [reflexivity|]. left. exact E. }
  destruct (@seedPoint_node (TwoGroup prx stx fix_ lwx (TwoPath px cx :: sx)) px
              prx stx fix_ lwx px cx sx (points_node _ _ _ _ _ _ _))
    as (px1 & Hs1 & Hpx1).
  rewrite Hs1. cbn [bind].
  destruct (@seedPoint_node (TwoGroup prx stx fix_ lwx (TwoPath px1 cx :: sx)) px1
              pry sty fiy lwy py cy sy (points_node _ _ _ _ _ _ _))
    as (py1 & Hs2 & Hpy1).
  rewrite Hs2. cbn [bind]. rewrite !points_node. cbn [bind].
  assert (Hpos : (1 <= length px1)%nat /\ (1 <= length py1)%nat).
  { destruct Hpx1 as [[? ?]|[? ->]], Hpy1 as [[? ?]|[? ->]]; lia. }
  destruct (Nat.ltb_spec (length px1) (length py1)) as [L|L].
  - destruct (@grow_fewer prx stx fix_ lwx px1 cx sx py1)
      as (newPoints & fewer & px' & Hadd & Hset & Hres); [lia|lia|].
    rewrite Hadd. cbn [bind]. rewrite Hset. cbn [bind].
    exists px', py1. split; [reflexivity|].
    destruct Hres as [[H1 ->]|[H2 Hl]].
    + right. left. split; [reflexivity|lia].
    + left. exact Hl.
  - destruct (@grow_fewer pry sty fiy lwy py1 cy sy px1)
      as (newPoints & fewer & py' & Hadd & Hset & Hres); [lia|lia|].
    rewrite Hadd. cbn [bind]. rewrite Hset. cbn [bind].
    exists px1, py'. split; [reflexivity|].
    destruct Hres as [[H1 ->]|[H2 Hl]].
    + destruct (Nat.eq_dec (length px1) 1) as [E1|E1].
      * left. simpl. exact E1.
      * right. right. split; [reflexivity|lia].
    + left. symmetry. exact Hl.
Qed.

(** After the three level steps nothing is left to do on the pair. *)
Lemma alignLevel_settled (x y x3 y3 : Shape) :
  Group.alignLevel env x y = Some (x3, y3) -> LevelSettled x3 y3.
Proof.
  unfold Group.alignLevel. intro H.
  inv_bind H. destruct a as [x1 y1].
  inv_bind H. destruct a as [x2 y2].
  apply nullPointAlign_post in Ha. destruct Ha as (px & py & Hpx & Hpy & H0x & H0y).
  destruct (alignSubmobjects_post _ _ Ha0 Hpx Hpy)
    as (Hpx2 & Hpy2 & sx & sy & Hsx & Hsy & Hlen).
  node Hpx2. node Hpy2.
  destruct (@alignPoints_node pr st fi lw px c subs pr0 st0 fi0 lw0 py c0 subs0 H0x H0y)
    as (px' & py' & Hal & Hset).
  rewrite Hal in H. inversion H. subst.
  exists px', py', subs, subs0.
  simpl in Hsx, Hsy. inversion Hsx. inversion Hsy. subst.
  repeat split; assumption.
Qed.

(** On a settled pair the three level steps change nothing. *)
Lemma alignLevel_fixed (x y : Shape) :
  LevelSettled x y -> Group.alignLevel env x y = Some (x, y).
Proof.
  intros (px & py & sx & sy & Hpx & Hpy & Hsx & Hsy & Hlen & Hset).
  node Hpx. node Hpy. simpl in Hsx, Hsy. inversion Hsx. inversion Hsy. subst.
  assert (Hnull : Group.nullPointAlign env
                    (TwoGroup pr st fi lw (TwoPath px c :: sx))
                    (TwoGroup pr0 st0 fi0 lw0 (TwoPath py c0 :: sy))
                  = Some (TwoGroup pr st fi lw (TwoPath px c :: sx),
                          TwoGroup pr0 st0 fi0 lw0 (TwoPath py c0 :: sy))).
  { unfold Group.nullPointAlign. rewrite !points_node. cbn [bind].
    destruct Hset as [E|[[-> H2]|[-> H2]]].
    - rewrite E. destruct (length py =? 0)%nat; reflexivity.
    - destruct (Nat.eqb_spec (length py) 0); [lia|reflexivity].
    - destruct (Nat.eqb_spec (length px) 0); [lia|reflexivity]. }
  assert (Hsubs : Group.alignSubmobjects env
                    (TwoGroup pr st fi lw (TwoPath px c :: sx))
                    (TwoGroup pr0 st0 fi0 lw0 (TwoPath py c0 :: sy))
                  = Some (TwoGroup pr st fi lw (TwoPath px c :: sx),
                          TwoGroup pr0 st0 fi0 lw0 (TwoPath py c0 :: sy))).
  { unfold Group.alignSubmobjects. rewrite !submobjects_node. cbn [bind].
    rewrite Hlen, Nat.eqb_refl. reflexivity. }
  unfold Group.alignLevel. rewrite Hnull. cbn [bind]. rewrite Hsubs. cbn [bind].
  unfold Group.alignPoints. rewrite !points_node. cbn [bind].
  destruct Hset as [E|[[-> H2]|[-> H2]]].
  - rewrite E, Nat.eqb_refl. reflexivity.
  - destruct (Nat.eqb_spec (length [Group.blankAnchor]) (length py)) as [E|_];
      [simpl in E; lia|].
    unfold Group.seedPoint. rewrite !points_node. cbn [bind length Nat.eqb].
    destruct (Nat.eqb_spec (length py) 0) as [E|_]; [lia|].
    cbn [bind]. rewrite !points_node. cbn [bind].
    destruct (Nat.ltb_spec (length [Group.blankAnchor]) (length py)) as [_|L];
      [|simpl in L; lia].
    rewrite addPoints_single. cbn [bind]. rewrite setAnchorsFromPoints_nil.
    reflexivity.
  - destruct (Nat.eqb_spec (length px) (length [Group.blankAnchor])) as [E|_];
      [simpl in E; lia|].
    unfold Group.seedPoint. rewrite !points_node. cbn [bind length Nat.eqb].
    destruct (Nat.eqb_spec (length px) 0) as [E|_]; [lia|].
    cbn [bind]. rewrite !points_node. cbn [bind].
    destruct (Nat.ltb_spec (length px) (length [Group.blankAnchor])) as [L|_];
      [simpl in L; lia|].
    rewrite addPoints_single. cbn [bind]. rewrite setAnchorsFromPoints_nil.
    reflexivity.
Qed.

End AlignSteps.
(** ** alignData *)

Section AlignData.

Variable env : Group.Env.

Lemma alignEach_length (rec : Shape -> Shape -> Exc (Shape * Shape)) :
  forall xs ys xs' ys',
    Group.alignEach rec xs ys = Some (xs', ys') ->
    length xs' = length xs /\ length ys' = length ys.
Proof.
  induction xs as [|x xs IH]; intros ys xs' ys' H; simpl in H.
  - inversion H. split; reflexivity.
  - destruct ys as [|y ys]; [discriminate|].
    inv_bind H. destruct a as [x1 y1]. inv_bind H. destruct a as [rx ry].
    inversion H. subst. apply IH in Ha0. simpl. lia.
Qed.

Lemma alignEach_Forall2 (rec : Shape -> Shape -> Exc (Shape * Shape))
    (R : Shape -> Shape -> Prop) :
  (forall x y x' y', rec x y = Some (x', y') -> R x' y') ->
  forall xs ys xs' ys',
    length xs = length ys ->
    Group.alignEach rec xs ys = Some (xs', ys') -> Forall2 R xs' ys'.
Proof.
  intro HR. induction xs as [|x xs IH]; intros ys xs' ys' Hlen H; simpl in H.
  - destruct ys; [|discriminate]. inversion H. constructor.
  - destruct ys as [|y ys]; [discriminate|].
    inv_bind H. destruct a as [x1 y1]. inv_bind H. destruct a as [rx ry].
    inversion H. subst. constructor.
    + eapply HR; eassumption.
    + eapply IH; [|eassumption]. simpl in Hlen. lia.
Qed.

Lemma alignEach_fixed (rec : Shape -> Shape -> Exc (Shape * Shape)) :
  (forall x y x' y', rec x y = Some (x', y') -> rec x' y' = Some (x', y')) ->
  forall xs ys xs' ys',
    Group.alignEach rec xs ys = Some (xs', ys') ->
    Group.alignEach rec xs' ys' = Some (xs', ys').
Proof.
  intro HR. induction xs as [|x xs IH]; intros ys xs' ys' H; simpl in H.
  - inversion H. reflexivity.
  - destruct ys as [|y ys]; [discriminate|].
    inv_bind H. destruct a as [x1 y1]. inv_bind H. destruct a as [rx ry].
    inversion H. subst. simpl.
    rewrite (HR _ _ _ _ Ha). cbn [bind]. rewrite (IH _ _ _ Ha0). reflexivity.
Qed.

(** One call of [alignData], step by step: the level steps settle the
    pair, the submobjects are then aligned pairwise, and the results
    are the submobjects of the pair that is returned. *)
Lemma alignData_unfold (fuel : nat) (x y x' y' : Shape) :
  Group.alignData env (S fuel) x y = Some (x', y') ->
  exists x3 y3 sx sy sx' sy',
    Group.alignLevel env x y = Some (x3, y3) /\
    Group.submobjects x3 = Some sx /\ Group.submobjects y3 = Some sy /\
    length sx = length sy /\
    Group.alignEach (Group.alignData env fuel) sx sy = Some (sx', sy') /\
    Group.setSubmobjects x3 sx' = Some x' /\
    Group.setSubmobjects y3 sy' = Some y' /\
    Group.submobjects x' = Some sx' /\ Group.submobjects y' = Some sy' /\
    Group.points x' = Group.points x3 /\ Group.points y' = Group.points y3.
Proof.
  cbn [Group.alignData]. intro H.
  inv_bind H. destruct a as [x3 y3].
  inv_bind H. rename a into sx. inv_bind H. rename a into sy.
  inv_bind H. destruct a as [sx' sy'].
  inv_bind H. inv_bind H. inversion H. subst.
  pose proof (alignLevel_settled _ _ _ Ha) as (px & py & sx0 & sy0 & Hpx & Hpy & Hsx & Hsy & Hlen & _).
  rewrite Ha0 in Hsx. rewrite Ha1 in Hsy. inversion Hsx. inversion Hsy. subst.
  node Hpx. node Hpy. simpl in Ha0, Ha1. inversion Ha0. inversion Ha1. subst.
  simpl in Ha3, Ha4. inversion Ha3. inversion Ha4. subst.
  exists (TwoGroup pr st fi lw (TwoPath px c :: sx0)),
         (TwoGroup pr0 st0 fi0 lw0 (TwoPath py c0 :: sy0)), sx0, sy0, sx', sy'.
  repeat split; assumption.
Qed.

End AlignData.

(** The counts agree at every level of a returned pair. *)
Lemma alignData_counts (env : Group.Env) (fuel : nat) :
  forall x y x' y',
    Group.alignData env fuel x y = Some (x', y') -> SameCounts x' y'.
Proof.
  induction fuel as [|fuel IH]; intros x y x' y' H.
  - discriminate.
  - destruct (alignData_unfold _ _ _ _ H)
      as (x3 & y3 & sx & sy & sx' & sy' & Hl & Hsx & Hsy & Hlen & He & _ & _ & Hx' & Hy' & _).
    destruct (alignEach_length _ _ _ He) as (L1 & L2).
    apply (SameCounts_node _ _ Hx' Hy'); [lia|].
    eapply alignEach_Forall2; [|exact Hlen|exact He].
    intros a b a' b' Hab. apply (IH _ _ _ _ Hab).
Qed.

(** A returned pair is a fixed point of [alignData]. *)
Lemma alignData_fixed (env : Group.Env) (fuel : nat) :
  forall x y x' y',
    Group.alignData env fuel x y = Some (x', y') ->
    Group.alignData env fuel x' y' = Some (x', y').
Proof.
  induction fuel as [|fuel IH]; intros x y x' y' H.
  - discriminate.
  - destruct (alignData_unfold _ _ _ _ H)
      as (x3 & y3 & sx & sy & sx' & sy' & Hl & Hsx & Hsy & Hlen & He
          & Hsetx & Hsety & Hx' & Hy' & Hpx & Hpy).
    pose proof (alignLevel_settled _ _ _ Hl)
      as (px & py & sx0 & sy0 & Hpx3 & Hpy3 & _ & _ & _ & Hset).
    destruct (alignEach_length _ _ _ He) as (L1 & L2).
    assert (Hfix : Group.alignLevel env x' y' = Some (x', y')).
    { apply alignLevel_fixed. exists px, py, sx', sy'.
      repeat split; try assumption; try congruence; lia. }
    cbn [Group.alignData]. rewrite Hfix. cbn [bind].
    rewrite Hx', Hy'. cbn [bind].
    rewrite (alignEach_fixed _ IH _ _ He). cbn [bind].
    rewrite Hpx3 in Hpx. rewrite Hpy3 in Hpy. node Hpx. node Hpy.
    simpl in Hx', Hy'. inversion Hx'. inversion Hy'. subst. reflexivity.
Qed.
(** ** Segments and anchors *)

Lemma chunkFuel_concat4 (qs : list (list Vec)) :
  Forall (fun q => length q = 4%nat) qs ->
  forall fuel, (length qs <= fuel)%nat -> chunkFuel fuel 4 (concat qs) = qs.
Proof.
  induction 1 as [|q qs Hq _ IH]; intros fuel Hf.
  - destruct fuel; reflexivity.
  - destruct fuel as [|fuel]; [simpl in Hf; lia|].
    destruct q as [|p0 [|p1 [|p2 [|p3 [|p4 q]]]]]; simpl in Hq; try lia.
    simpl. f_equal. apply IH. simpl in Hf. lia.
Qed.

Lemma chunk_concat4 (qs : list (list Vec)) :
  Forall (fun q => length q = 4%nat) qs -> chunk (concat qs) 4 = qs.
Proof.
  intro H. unfold chunk. apply chunkFuel_concat4; [exact H|].
  assert (L : length (concat qs) = (4 * length qs)%nat).
  { clear -H. induction H as [|q qs Hq _ IH]; simpl; [reflexivity|].
    rewrite length_app, Hq, IH. lia. }
  lia.
Qed.

Lemma ChainedFrom_length4 (qs : list (list Vec)) :
  forall start stop, ChainedFrom start qs stop ->
                     Forall (fun q => length q = 4%nat) qs.
Proof.
  induction qs as [|q qs IH]; intros start stop H; simpl in H.
  - constructor.
  - destruct H as (p1 & p2 & p3 & -> & H). constructor; [reflexivity|].
    eapply IH; eassumption.
Qed.

Lemma ChainedFrom_app (qs1 qs2 : list (list Vec)) :
  forall start mid stop,
    ChainedFrom start qs1 mid -> ChainedFrom mid qs2 stop ->
    ChainedFrom start (qs1 ++ qs2) stop.
Proof.
  induction qs1 as [|q qs1 IH]; intros start mid stop H1 H2; simpl in *.
  - subst. exact H2.
  - destruct H1 as (p1 & p2 & p3 & -> & H1).
    exists p1, p2, p3. split; [reflexivity|]. eapply IH; eassumption.
Qed.

Lemma manimPointsOf_quadsOf (vs : list Anchor) :
  Group.manimPointsOf vs = concat (quadsOf vs).
Proof.
  induction vs as [|a [|b vs] IH]; try reflexivity.
  change (Group.manimPointsOf (a :: b :: vs))
    with ([pos a; controlsRight a; controlsLeft b; pos b]
            ++ Group.manimPointsOf (b :: vs)).
  rewrite IH. reflexivity.
Qed.

Lemma quadsOf_length (vs : list Anchor) :
  length (quadsOf vs) = (length vs - 1)%nat.
Proof.
  induction vs as [|a [|b vs] IH]; try reflexivity.
  change (quadsOf (a :: b :: vs))
    with ([pos a; controlsRight a; controlsLeft b; pos b] :: quadsOf (b :: vs)).
  simpl length in *. lia.
Qed.

Lemma quadsOf_length4 (vs : list Anchor) :
  Forall (fun q => length q = 4%nat) (quadsOf vs).
Proof.
  induction vs as [|a [|b vs] IH]; try constructor; [reflexivity|exact IH].
Qed.

(** The first [k] segments of a path lead from its first anchor to
    anchor [k]. *)
Lemma quadsOf_firstn_chained (vs : list Anchor) :
  forall (k : nat) (a0 ak : Anchor),
    nth_error vs 0 = Some a0 -> nth_error vs k = Some ak ->
    ChainedFrom (pos a0) (firstn k (quadsOf vs)) (pos ak).
Proof.
  induction vs as [|a [|b vs] IH]; intros k a0 ak H0 Hk.
  - discriminate.
  - destruct k as [|[|k]]; simpl in *; try discriminate. congruence.
  - simpl in H0. inversion H0. subst a0.
    destruct k as [|k].
    + simpl in Hk. inversion Hk. subst. reflexivity.
    + change (quadsOf (a :: b :: vs))
        with ([pos a; controlsRight a; controlsLeft b; pos b] :: quadsOf (b :: vs)).
      cbn [firstn ChainedFrom]. exists (controlsRight a), (controlsLeft b), (pos b).
      split; [reflexivity|]. apply IH; [reflexivity|exact Hk].
Qed.

Lemma quadsOf_nth (vs : list Anchor) :
  forall (k : nat) (ak ak' : Anchor),
    nth_error vs k = Some ak -> nth_error vs (S k) = Some ak' ->
    nth_error (quadsOf vs) k
    = Some [pos ak; controlsRight ak; controlsLeft ak'; pos ak'].
Proof.
  induction vs as [|a [|b vs] IH]; intros k ak ak' Hk Hk'.
  - destruct k; discriminate.
  - destruct k as [|[|k]]; simpl in *; discriminate.
  - change (quadsOf (a :: b :: vs))
      with ([pos a; controlsRight a; controlsLeft b; pos b] :: quadsOf (b :: vs)).
    destruct k as [|k].
    + simpl in *. inversion Hk. inversion Hk'. subst. reflexivity.
    + cbn [nth_error]. apply IH; assumption.
Qed.

Lemma update_app_here (A : Type) (f : A -> A) (pre : list A) (a : A) (post : list A) :
  update (length pre) f (pre ++ a :: post) = pre ++ f a :: post.
Proof. induction pre as [|x pre IH]; simpl; [reflexivity|]. f_equal. exact IH. Qed.

Lemma update_app_next (A : Type) (f : A -> A) (pre : list A) (a b : A) (post : list A) :
  update (S (length pre)) f (pre ++ a :: b :: post) = pre ++ a :: f b :: post.
Proof. induction pre as [|x pre IH]; simpl; [reflexivity|]. f_equal. exact IH. Qed.

Lemma fillAnchors_filled (qs : list (list Vec)) :
  forall (start stop : Vec) (pre : list Anchor) (a : Anchor) (zs : list Anchor),
    ChainedFrom start qs stop -> length zs = length qs ->
    Group.fillAnchors (concat qs) (length pre) (pre ++ a :: zs)
    = Some (pre ++ filled a qs zs).
Proof.
  induction qs as [|q qs IH]; intros start stop pre a zs Hc Hl.
  - destruct zs; [reflexivity|discriminate].
  - destruct Hc as (p1 & p2 & p3 & -> & Hc).
    destruct zs as [|z zs]; [discriminate|].
    cbn [concat app Group.fillAnchors filled].
    rewrite update_app_here, update_app_next.
    cbn [controlsLeft controlsRight command relative pos].
    replace (pre ++ mkAnchor start (controlsLeft a) p1 (command a) (relative a)
               :: mkAnchor p3 p2 (controlsRight z) (command z) (relative z) :: zs)
      with ((pre ++ [mkAnchor start (controlsLeft a) p1 (command a) (relative a)])
              ++ mkAnchor p3 p2 (controlsRight z) (command z) (relative z) :: zs)
      by (rewrite <- app_assoc; reflexivity).
    replace (S (length pre))
      with (length (pre ++ [mkAnchor start (controlsLeft a) p1 (command a) (relative a)]))
      by (rewrite length_app; simpl; lia).
    rewrite (IH p3 stop); [|exact Hc|simpl in Hl; lia].
    rewrite <- app_assoc. reflexivity.
Qed.

Lemma filled_length (qs : list (list Vec)) :
  forall (a : Anchor) (zs : list Anchor), length (filled a qs zs) = S (length zs).
Proof.
  induction qs as [|q qs IH]; intros a zs; [reflexivity|].
  destruct q as [|p0 [|p1 [|p2 [|p3 [|p4 q]]]]]; try reflexivity.
  destruct zs as [|z zs]; [reflexivity|]. simpl. rewrite IH. reflexivity.
Qed.

(** Reading the segments back from the filled anchors gives the
    segments they were filled from. *)
Lemma manimPointsOf_filled (qs : list (list Vec)) :
  forall (start stop : Vec) (a : Anchor) (zs : list Anchor),
    ChainedFrom start qs stop -> length zs = length qs ->
    Group.manimPointsOf (filled a qs zs) = concat qs /\
    exists h t, filled a qs zs = h :: t /\ controlsLeft h = controlsLeft a /\
                (qs <> [] -> pos h = start).
Proof.
  induction qs as [|q qs IH]; intros start stop a zs Hc Hl.
  - destruct zs; [|discriminate]. split; [reflexivity|].
    exists a, []. repeat split. intro H. contradiction.
  - destruct Hc as (p1 & p2 & p3 & -> & Hc).
    destruct zs as [|z zs]; [discriminate|].
    cbn [filled].
    destruct (IH p3 stop (mkAnchor p3 p2 (controlsRight z) (command z) (relative z)) zs Hc)
      as (Hm & h & t & Hf & Hleft & Hpos); [simpl in Hl; lia|].
    split.
    + rewrite Hf. 
      change (Group.manimPointsOf (?x :: h :: t))
        with ([pos x; controlsRight x; controlsLeft h; pos h]
                ++ Group.manimPointsOf (h :: t)).
      rewrite <- Hf, Hm, Hleft. cbn [pos controlsRight controlsLeft concat app].
      assert (Hp : pos h = p3).
      { destruct qs as [|q' qs'].
        - destruct zs; [|discriminate]. simpl in Hf. inversion Hf. reflexivity.
        - apply Hpos. discriminate. }
      rewrite Hp. reflexivity.
    + eexists. eexists. split; [reflexivity|]. split; [reflexivity|].
      intros _. reflexivity.
Qed.

Lemma anchorsFromPoints_chained (qs : list (list Vec)) (start stop : Vec) :
  ChainedFrom start qs stop ->
  exists anchors,
    Group.anchorsFromPoints (concat qs) = Some anchors /\
    length anchors = S (length qs) /\
    Group.manimPointsOf anchors = concat qs.
Proof.
  intro Hc. unfold Group.anchorsFromPoints.
  assert (L : length (concat qs) = (4 * length qs)%nat).
  { pose proof (ChainedFrom_length4 _ _ _ Hc) as H4. clear -H4.
    induction H4 as [|q qs Hq _ IH]; simpl; [reflexivity|].
    rewrite length_app, Hq, IH. lia. }
  rewrite L. replace (4 * length qs + 3)%nat with (3 + length qs * 4)%nat by lia.
  rewrite Nat.div_add by lia. change (3 / 4)%nat with 0%nat.
  replace (0 + length qs + 1)%nat with (S (length qs)) by lia.
  cbn [repeat].
  pose proof (@fillAnchors_filled qs start stop [] Group.blankAnchor
                (repeat Group.blankAnchor (length qs)) Hc (repeat_length _ _)) as Hf.
  cbn [length app] in Hf. rewrite Hf.
  exists (filled Group.blankAnchor qs (repeat Group.blankAnchor (length qs))).
  split; [reflexivity|]. split.
  - rewrite filled_length, repeat_length. reflexivity.
  - apply (@manimPointsOf_filled qs start stop Group.blankAnchor _ Hc).
    apply repeat_length.
Qed.

Lemma tagAnchors_length (anchors : list Anchor) :
  forall commands, length (Group.tagAnchors anchors commands) = length anchors.
Proof.
  induction anchors as [|a anchors IH]; intros [|c commands]; simpl; auto.
Qed.




(** ** integerInterpolate *)

Lemma integerInterpolate_range (n : Z) (b : Q) :
  (1 <= n)%Z -> 0 <= b -> b <= 1 ->
  (0 <= fst (integerInterpolate 0 n b) < n)%Z /\
  0 <= snd (integerInterpolate 0 n b) /\ snd (integerInterpolate 0 n b) <= 1.
Proof.
  intros Hn H0 H1. unfold integerInterpolate.
  destruct (Qleb 1 b) eqn:E1.
  - simpl. split; [lia|]. split; discriminate.
  - destruct (Qleb b 0) eqn:E0.
    + simpl. split; [lia|]. split; discriminate.
    + apply Qleb_false in E1. apply Qleb_false in E0.
      cbn [fst snd]. rewrite Z.sub_0_r, Z.add_0_l.
      set (scaled := inject_Z n * b).
      pose proof (Qfloor_le scaled) as Hle.
      pose proof (Qlt_floor scaled) as Hlt.
      assert (Hn' : 1 <= inject_Z n)
        by (change 1 with (inject_Z 1); rewrite <- Zle_Qle; exact Hn).
      assert (Hs0 : 0 < scaled) by (unfold scaled; apply Qmult_lt_0_compat; lra).
      assert (Hs1 : scaled < inject_Z n).
      { unfold scaled. rewrite <- (Qmult_1_r (inject_Z n)) at 2.
        rewrite !(Qmult_comm (inject_Z n)). apply Qmult_lt_compat_r; lra. }
      rewrite inject_Z_plus in Hlt. change (inject_Z 1) with 1 in Hlt.
      split; [split|split].
      * assert (H : inject_Z (-1) < inject_Z (Qfloor scaled))
          by (change (inject_Z (-1)) with (-1 # 1); lra).
        rewrite <- Zlt_Qlt in H. lia.
      * rewrite Zlt_Qlt. lra.
      * lra.
      * lra.
Qed.

(** ** pointwiseBecomePartial *)

Lemma splitBezier_Some (quad : option (list Vec)) (t : Q) (l : list Vec) :
  splitBezier quad t = Some l ->
  exists p0 p1 p2 p3 q1 q2 q3,
    quad = Some [p0; p1; p2; p3] /\ l = [p0; q1; q2; q3].
Proof.
  destruct quad as [[|p0 [|p1 [|p2 [|p3 [|p4 q]]]]]|]; simpl; try discriminate.
  intro H. inversion H. repeat eexists.
Qed.

Lemma index_Some (A : Type) (l : list A) (i : Z) (x : A) :
  index l i = Some x ->
  (0 <= i)%Z /\ nth_error l (Z.to_nat i) = Some x /\ slice0 l i = firstn (Z.to_nat i) l.
Proof.
  unfold index, slice0. destruct (Z.ltb_spec i 0) as [L|L]; [discriminate|].
  intro Hn. repeat split; [lia|exact Hn].
Qed.

(** The segments [pointwiseBecomePartial] hands to
    [pathFromManimPoints] follow one another from the first anchor of
    the source, and there are no more of them than the source has. *)
Lemma newPathCoeffs_chained (vs : list Anchor) (a0 : Anchor) (bIndex : Z)
    (bResidue : Q) (coeffs : list Vec) :
  nth_error vs 0 = Some a0 ->
  (if (bIndex <? Z.of_nat (length (quadsOf vs)))%Z
   then splitBezier (index (quadsOf vs) bIndex) bResidue
   else Some []) = Some coeffs ->
  exists stop,
    ChainedFrom (pos a0)
      (if (0 <? length coeffs)%nat
       then slice0 (quadsOf vs) bIndex ++ [coeffs]
       else slice0 (quadsOf vs) bIndex) stop /\
    (length (if (0 <? length coeffs)%nat
             then slice0 (quadsOf vs) bIndex ++ [coeffs]
             else slice0 (quadsOf vs) bIndex) < length vs)%nat.
Proof.
  intros H0 Hsplit.
  assert (Hvs : (1 <= length vs)%nat) by (destruct vs; [discriminate|simpl; lia]).
  pose proof (quadsOf_length vs) as Hn.
  destruct (Z.ltb_spec bIndex (Z.of_nat (length (quadsOf vs)))) as [L|L].
  - apply splitBezier_Some in Hsplit.
    destruct Hsplit as (p0 & p1 & p2 & p3 & q1 & q2 & q3 & Hq & ->).
    apply index_Some in Hq. destruct Hq as (Hi & Hnth & ->).
    set (k := Z.to_nat bIndex) in *.
    assert (Hk : (k < length vs - 1)%nat) by lia.
    destruct (nth_error vs k) as [ak|] eqn:Ek;
      [|apply nth_error_None in Ek; lia].
    destruct (nth_error vs (S k)) as [ak'|] eqn:Ek';
      [|apply nth_error_None in Ek'; lia].
    rewrite (quadsOf_nth _ _ Ek Ek') in Hnth. inversion Hnth. subst.
    cbn [length Nat.ltb Nat.leb].
    exists q3. split.
    + eapply ChainedFrom_app.
      * apply quadsOf_firstn_chained; eassumption.
      * simpl. exists q1, q2, q3. split; reflexivity.
    + rewrite length_app, length_firstn. simpl. lia.
  - inversion Hsplit. subst. cbn [length Nat.ltb Nat.leb].
    unfold slice0. destruct (Z.ltb_spec bIndex 0) as [?|_]; [lia|].
    rewrite firstn_all2 by lia.
    destruct (nth_error vs (length vs - 1)) as [an|] eqn:En;
      [|apply nth_error_None in En; lia].
    exists (pos an). split.
    + rewrite <- (firstn_all (quadsOf vs)), Hn.
      apply quadsOf_firstn_chained; assumption.
    + lia.
Qed.

Lemma applyStyle_each_path (style : StylePatch) (l : list Shape) vs c :
  mapM (Group.applyStyle style) (l ++ [TwoPath vs c]) = None.
Proof.
  induction l as [|s l IH]; [reflexivity|].
  cbn [app mapM]. destruct (Group.applyStyle style s); [|reflexivity].
  cbn [bind]. fold (mapM (Group.applyStyle style)). rewrite IH. reflexivity.
Qed.



Lemma applyStyle_own (style : StylePatch) pr st fi lw cs :
  Group.propagates pr = false ->
  Group.applyStyle style (TwoGroup pr st fi lw cs)
  = Some (Group.restyle pr (assign (Group.styleOf st fi lw) style) cs).
Proof. intro H. cbn [Group.applyStyle]. rewrite H. reflexivity. Qed.

Lemma Qfloor_zero_mult (b : Q) : Qfloor (inject_Z (0 - 0) * b) = 0%Z.
Proof. destruct b as [n d]. unfold Qfloor, Qmult, inject_Z. simpl. reflexivity. Qed.

(** [pointwiseBecomePartial] returns on a node whose [children[0]] is a
    path, unless the class of the node hands styles to submobjects and
    there are some; the source needs a segment, or [b < 1]. *)
Lemma pointwiseBecomePartial_returns (onRecord : bool) pr st fi lw ovs oc subs
    (other : Shape) (b : Q) (vs : list Anchor) :
  Group.propagates pr = false \/ (subs = [] /\ onRecord = true) ->
  Group.points other = Some vs -> (1 <= length vs)%nat ->
  0 <= b -> b <= 1 -> (2 <= length vs)%nat \/ b < 1 ->
  exists this',
    Group.pointwiseBecomePartial onRecord
      (TwoGroup pr st fi lw (TwoPath ovs oc :: subs)) other 0 b = Some this'.
Proof.
  intros Hthis Hvs Hlen Hb0 Hb1 Hseg.
  unfold Group.pointwiseBecomePartial, Group.getManimPoints.
  rewrite Hvs. cbn [bind].
  rewrite manimPointsOf_quadsOf, (chunk_concat4 (quadsOf_length4 vs)).
  destruct (integerInterpolate 0 (Z.of_nat (length (quadsOf vs))) b) as [bI bR] eqn:EI.
  destruct vs as [|a0 vs0] eqn:Evs; [simpl in Hlen; lia|]. rewrite <- Evs in *.
  assert (H0 : nth_error vs 0 = Some a0) by (rewrite Evs; reflexivity).
  assert (Hsplit : exists coeffs,
             (if (bI <? Z.of_nat (length (quadsOf vs)))%Z
              then splitBezier (index (quadsOf vs) bI) bR
              else Some []) = Some coeffs).
  { pose proof (quadsOf_length vs) as Hn.
    destruct (le_lt_dec 2 (length vs)) as [L|L].
    - pose proof (@integerInterpolate_range (Z.of_nat (length (quadsOf vs))) b) as Hr.
      rewrite EI in Hr. cbn [fst snd] in Hr.
      destruct Hr as ((Hlo & Hhi) & _); [lia|assumption|assumption|].
      destruct (Z.ltb_spec bI (Z.of_nat (length (quadsOf vs)))) as [_|?]; [|lia].
      unfold index. destruct (Z.ltb_spec bI 0) as [?|_]; [lia|].
      destruct (nth_error (quadsOf vs) (Z.to_nat bI)) as [q|] eqn:Eq;
        [|apply nth_error_None in Eq; lia].
      pose proof (quadsOf_length4 vs) as H4. rewrite Forall_forall in H4.
      specialize (H4 q (nth_error_In _ _ Eq)).
      destruct q as [|p0 [|p1 [|p2 [|p3 [|p4 q]]]]]; simpl in H4; try lia.
      eexists. reflexivity.
    - assert (Hb : b < 1) by (destruct Hseg; [lia|assumption]).
      assert (Hq : length (quadsOf vs) = 0%nat) by lia.
      rewrite Hq in EI |- *. unfold integerInterpolate in EI.
      assert (E1 : Qleb 1 b = false) by (apply Qleb_false; exact Hb).
      rewrite E1 in EI. destruct (Qleb b 0).
      + inversion EI. subst. eexists. reflexivity.
      + rewrite Qfloor_zero_mult in EI. inversion EI. subst. eexists. reflexivity. }
  destruct Hsplit as (coeffs & Hsplit). rewrite Hsplit. cbn [bind].
  destruct (@newPathCoeffs_chained vs a0 bI bR coeffs H0 Hsplit) as (stop & Hch & _).
  destruct (anchorsFromPoints_chained _ _ _ Hch) as (anchors & Han & _).
  cbn [Group.path Group.getChildren bind nth_error].
  unfold Group.pathFromManimPoints. rewrite Han.
  cbn [bind Group.replacePath tl Group.getStyleDict].
  destruct Hthis as [Hp|(-> & ->)].
  - rewrite applyStyle_own by exact Hp. eexists. reflexivity.
  - cbn [app Group.applyStyle]. destruct (Group.propagates pr); eexists; reflexivity.
Qed.




(** ** Claims on growth *)

Lemma count_occ_map_filter (f : nat -> nat) (l : list nat) (i : nat) :
  count_occ Nat.eq_dec (map f l) i
  = length (filter (fun j => (f j =? i)%nat) l).
Proof.
  induction l as [|x l IH]; simpl; [reflexivity|].
  destruct (Nat.eq_dec (f x) i) as [E|E].
  - rewrite (proj2 (Nat.eqb_eq _ _) E). simpl. f_equal. exact IH.
  - rewrite (proj2 (Nat.eqb_neq _ _) E). exact IH.
Qed.

(** C4: for [n >= 1] existing slots and [k >= 0] extra ones, the split
    factors are [n] numbers, slot [i] gets the number of [j] in
    [0 .. n+k) with [floor(j*n/(n+k)) = i], and they sum to [n + k];
    so [addSubmobjects(k)] leaves a node of [n] submobjects with
    [n + k] of them, and [addPoints(k)] followed by
    [setAnchorsFromPoints] leaves a path of [n] curves ([n + 1] points)
    with [k] more points. *)
Theorem proportional_allocation_grows_by_k :
  forall n k : nat,
    (1 <= n)%nat ->
    (length (Group.splitFactors n (n + k)) = n /\
     list_sum (Group.splitFactors n (n + k)) = (n + k)%nat /\
     forall i, (i < n)%nat ->
       nth i (Group.splitFactors n (n + k)) 0%nat
       = length (filter (fun j => (j * n / (n + k) =? i)%nat) (seq 0 (n + k)))) /\
    (forall (env : Group.Env) (m m' : Shape) (subs : list Shape),
       Group.submobjects m = Some subs -> length subs = n ->
       Group.addSubmobjects env m k = Some m' ->
       exists subs', Group.submobjects m' = Some subs' /\
                     length subs' = (n + k)%nat) /\
    (forall (m : Shape) (pts : list Anchor),
       Group.points m = Some pts -> length pts = S n ->
       exists newPoints m' pts',
         Group.addPoints m k = Some (m, newPoints) /\
         Group.setAnchorsFromPoints m newPoints = Some m' /\
         Group.points m' = Some pts' /\
         length pts' = (length pts + k)%nat).
Proof.
  intros n k Hn. split; [|split].
  - split; [apply splitFactors_length|]. split; [apply splitFactors_sum; exact Hn|].
    intros i Hi. rewrite splitFactors_nth by exact Hi.
    unfold Group.repeatIndices, arange. apply count_occ_map_filter.
  - intros env m m' subs Hs Hl Hadd.
    destruct m as [|pr st fi lw [|p cs]]; try discriminate.
    + simpl in Hs. inversion Hs. subst. simpl in Hn. lia.
    + simpl in Hs. inversion Hs. subst cs.
      apply addSubmobjects_node in Hadd. destruct Hadd as (subs' & -> & Hlen).
      exists subs'. split; [reflexivity|]. lia.
  - intros m pts Hp Hl. node Hp.
    destruct (@addPoints_curves pr st fi lw pts c subs k) as (newPoints & Hadd & Hlen);
      [lia|].
    destruct (@setAnchorsFromPoints_node pr st fi lw pts c subs newPoints _ Hlen)
      as (anchors & Hset & Hal).
    exists newPoints. eexists. exists anchors.
    split; [exact Hadd|]. split; [exact Hset|]. split; [reflexivity|]. lia.
Qed.

Lemma proportional_allocation_grows_by_k_witness :
  list_sum (Group.splitFactors 2 (2 + 3)) = 5%nat /\
  (exists m' subs',
     Group.addSubmobjects Examples.env0 Examples.pair 3 = Some m' /\
     Group.submobjects m' = Some subs' /\ length subs' = 5%nat) /\
  (exists newPoints m' pts',
     Group.addPoints Examples.segment 4 = Some (Examples.segment, newPoints) /\
     Group.setAnchorsFromPoints Examples.segment newPoints = Some m' /\
     Group.points m' = Some pts' /\ length pts' = 6%nat).
Proof.
  split; [|split].
  - apply (@proportional_allocation_grows_by_k 2 3). lia.
  - destruct (Group.addSubmobjects Examples.env0 Examples.pair 3) as [m'|] eqn:E;
      [|vm_compute in E; discriminate].
    destruct (proj1 (proj2 (@proportional_allocation_grows_by_k 2 3 (le_S _ _ (le_n 1))))
                Examples.env0 Examples.pair m' [Examples.triangle; Examples.segment]
                eq_refl eq_refl E) as (subs' & Hs & Hl).
    exists m', subs'. repeat split; assumption.
  - exact (proj2 (proj2 (@proportional_allocation_grows_by_k 1 4 (le_n 1)))
             Examples.segment [Examples.corner 1 1; Examples.corner 2 3]
             eq_refl eq_refl).
Defined.
(** ** Witnesses for the partial path *)


(** ** Claims on Write *)

(** C8: for a sub-alpha above 1/2 the step has to leave the full
    geometry of the starting node; it completes the reveal only when
    the last vertex of the node differs from the last vertex of the
    starting node.  On the open two-point path that works: after the
    step at 0 the step at 3/4 restores both points.  On a closed path
    it does not: the step at 0 (which [begin()] runs) collapses the
    closed triangle onto its first anchor, which is also its last; the
    step at 3/4 finds the last vertices equal, skips the reveal, and
    leaves two points on the first corner where the starting path has
    four. *)
Theorem write_step_skips_reveal_on_closed_path :
  (exists s0 r : Shape,
     Write.interpolateSubmobject true 0 Examples.triangle Examples.triangle = Some s0 /\
     option_map (map pos) (Group.points s0) = Some [(0, 0); (0, 0)] /\
     Write.interpolateSubmobject true (3 # 4) s0 Examples.triangle = Some r /\
     Group.points r = Group.points s0 /\
     option_map (map pos) (Group.points Examples.triangle)
     = Some [(0, 0); (4 # 1, 0); (0, 4 # 1); (0, 0)]) /\
  (exists s0 r : Shape,
     Write.interpolateSubmobject true 0 Examples.segment Examples.segment = Some s0 /\
     option_map (map pos) (Group.points s0) = Some [(1, 1); (1, 1)] /\
     Write.interpolateSubmobject true (3 # 4) s0 Examples.segment = Some r /\
     option_map (map pos) (Group.points r)
     = option_map (map pos) (Group.points Examples.segment)).
Proof.
  split.
  - eexists. eexists. split; [vm_compute; reflexivity|].
    split; [vm_compute; reflexivity|]. split; [vm_compute; reflexivity|].
    split; vm_compute; reflexivity.
  - eexists. eexists. split; [vm_compute; reflexivity|].
    split; [vm_compute; reflexivity|]. split; [vm_compute; reflexivity|].
    vm_compute. reflexivity.
Qed.

(** ** Well-formed trees *)

Lemma WellFormed_nested_ind (P : Shape -> Prop) :
  (forall pr st fi lw vs c subs,
      Forall WellFormed subs -> Forall P subs ->
      P (TwoGroup pr st fi lw (TwoPath vs c :: subs))) ->
  forall m, WellFormed m -> P m.
Proof.
  intro Hstep.
  refine (fix IH (m : Shape) (H : WellFormed m) {struct H} : P m :=
            match H with
            | @WellFormed_node pr st fi lw vs c subs Hsubs =>
                Hstep pr st fi lw vs c subs Hsubs
                  ((fix go (l : list Shape) (Hl : Forall WellFormed l) {struct Hl}
                      : Forall P l :=
                      match Hl with
                      | Forall_nil _ => Forall_nil _
                      | @Forall_cons _ _ s l' Hs Hl' =>
                          @Forall_cons _ _ s l' (IH s Hs) (go l' Hl')
                      end) subs Hsubs)
            end).
Qed.

Lemma SameFrame_wf (m m' : Shape) : SameFrame m m' -> WellFormed m'.
Proof.
  intros (pr & st & fi & lw & pr' & st' & fi' & lw' & vs & c & subs & subs'
          & -> & -> & Hwf & _).
  constructor. exact Hwf.
Qed.

Lemma map_S_height (l l' : list Shape) :
  map height l' = map height l ->
  map (fun c => S (height c)) l' = map (fun c => S (height c)) l.
Proof.
  intro H. rewrite <- !(map_map height S). rewrite H. reflexivity.
Qed.

Lemma SameFrame_height (m m' : Shape) : SameFrame m m' -> height m' = height m.
Proof.
  intros (pr & st & fi & lw & pr' & st' & fi' & lw' & vs & c & subs & subs'
          & -> & -> & _ & Hh).
  cbn [height map]. rewrite (map_S_height _ _ Hh). reflexivity.
Qed.

Lemma SameFrame_leaf (m m' : Shape) :
  SameFrame m m' -> NonEmptyLeaf m -> NonEmptyLeaf m'.
Proof.
  intros (pr & st & fi & lw & pr' & st' & fi' & lw' & vs & c & subs & subs'
          & -> & -> & _ & Hh)
         (pr0 & st0 & fi0 & lw0 & a & vs0 & c0 & E).
  inversion E. subst. destruct subs'; [|discriminate].
  repeat eexists.
Qed.

Lemma SameFrame_trans (m1 m2 m3 : Shape) :
  SameFrame m1 m2 -> SameFrame m2 m3 -> SameFrame m1 m3.
Proof.
  intros (pr & st & fi & lw & pr' & st' & fi' & lw' & vs & c & subs & subs'
          & -> & -> & _ & Hh)
         (pr0 & st0 & fi0 & lw0 & pr1 & st1 & fi1 & lw1 & vs1 & c1 & subs1 & subs1'
          & E & -> & Hwf & Hh1).
  inversion E. subst. repeat eexists; [exact Hwf|congruence].
Qed.

Lemma SameFrame_refl (m : Shape) : WellFormed m -> SameFrame m m.
Proof.
  intro H. destruct H. repeat eexists. assumption.
Qed.

Lemma height_wf_pos (m : Shape) : WellFormed m -> (1 <= height m)%nat.
Proof.
  intro H. destruct H as [pr st fi lw vs c subs _]. cbn [height map].
  unfold list_max. cbn [fold_right height]. lia.
Qed.

Lemma NonEmptyLeaf_wf (m : Shape) : NonEmptyLeaf m -> WellFormed m.
Proof.
  intros (pr & st & fi & lw & a & vs & c & ->). constructor. constructor.
Qed.

Lemma NonEmptyLeaf_height (m : Shape) : NonEmptyLeaf m -> height m = 1%nat.
Proof.
  intros (pr & st & fi & lw & a & vs & c & ->). reflexivity.
Qed.

Lemma mapM_Forall2 (A B : Type) (f : A -> Exc B) (R : A -> B -> Prop) (l : list A) :
  Forall (fun x => exists y, f x = Some y /\ R x y) l ->
  exists r, mapM f l = Some r /\ Forall2 R l r.
Proof.
  induction 1 as [|x l (y & Hy & Hr) _ (r & Hm & HF)].
  - exists []. split; [reflexivity|constructor].
  - exists (y :: r). split.
    + cbn [mapM]. rewrite Hy. cbn [bind]. fold (mapM f). rewrite Hm. reflexivity.
    + constructor; assumption.
Qed.

Lemma Forall2_SameFrame (subs subs' : list Shape) :
  Forall2 SameFrame subs subs' ->
  Forall WellFormed subs' /\ map height subs' = map height subs.
Proof.
  induction 1 as [|s s' subs subs' Hs _ (Hwf & Hh)].
  - split; [constructor|reflexivity].
  - split; [constructor; [eapply SameFrame_wf; eassumption|assumption]|].
    simpl. rewrite (SameFrame_height Hs), Hh. reflexivity.
Qed.

(** ** Styles handed down the tree *)

Lemma Forall_Forall2_map (A B : Type) (R : A -> B -> Prop) (f : A -> B)
    (l : list A) :
  Forall (fun x => R x (f x)) l -> Forall2 R l (map f l).
Proof. induction 1; cbn [map]; constructor; assumption. Qed.

(** The setters change classes and styles only. *)
Lemma paint_frame (st fi : Hex) (lw : Q) (m : Shape) :
  WellFormed m -> SameFrame m (Group.paint st fi lw m).
Proof.
  intro H. induction H as [pr st0 fi0 lw0 vs c subs Hsubs IH]
    using WellFormed_nested_ind.
  destruct (Forall2_SameFrame (Forall_Forall2_map _ _ IH)) as (Hwf & Hh).
  cbn [Group.paint map]. repeat eexists; assumption.
Qed.

Lemma restyle_frame (pr : Proto) (combined : Style) vs c (subs : list Shape) :
  Forall WellFormed subs ->
  exists subs',
    Group.restyle pr combined (TwoPath vs c :: subs)
    = TwoGroup pr (Group.strokeOf combined) (Group.fillOf combined)
               (Group.linewidthOf combined) (TwoPath vs c :: subs') /\
    Forall2 SameFrame subs subs'.
Proof.
  intro Hsubs. eexists. split; [reflexivity|].
  apply Forall_Forall2_map. revert Hsubs. apply Forall_impl.
  intros s Hs. apply paint_frame. exact Hs.
Qed.

Section Total.

Variable env : Group.Env.

Lemma clone_wf (m : Shape) :
  WellFormed m -> exists m', Group.clone env m = Some m' /\ SameFrame m m'.
Proof.
  intro H. induction H as [pr st fi lw vs c subs Hsubs IH] using WellFormed_nested_ind.
  destruct (mapM_Forall2 _ _ IH) as (subs' & Hm & HF).
  destruct (Forall2_SameFrame HF) as (Hwf & Hh).
  cbn [Group.clone length Nat.eqb]. rewrite andb_false_r.
  cbn [mapM bind]. fold (mapM (Group.clone env)). rewrite Hm. cbn [bind].
  destruct (Group.cloneStyled pr); eexists; (split; [reflexivity|]);
    repeat eexists; assumption.
Qed.

Lemma applyStyle_wf (style : StylePatch) (m : Shape) :
  WellFormed m -> exists m', Group.applyStyle style m = Some m' /\ SameFrame m m'.
Proof.
  intro H. induction H as [pr st fi lw vs c subs Hsubs IH] using WellFormed_nested_ind.
  cbn [Group.applyStyle]. destruct (Group.propagates pr).
  - destruct (mapM_Forall2 _ _ IH) as (subs' & Hm & HF).
    destruct (Forall2_SameFrame HF) as (Hwf & Hh).
    rewrite Hm. cbn [bind]. eexists. split; [reflexivity|].
    repeat eexists; assumption.
  - destruct (@restyle_frame pr (assign (Group.styleOf st fi lw) style) vs c subs Hsubs)
      as (subs' & Hr & HF).
    destruct (Forall2_SameFrame HF) as (Hwf & Hh).
    rewrite Hr. eexists. split; [reflexivity|]. repeat eexists; assumption.
Qed.

Lemma getMobjectHeirarchy_wf (m : Shape) :
  WellFormed m ->
  exists rest, Group.getMobjectHeirarchy m = Some (m :: rest) /\
               Forall WellFormed (m :: rest).
Proof.
  intro H. induction H as [pr st fi lw vs c subs Hsubs IH] using WellFormed_nested_ind.
  cbn [Group.getMobjectHeirarchy].
  assert (Hm : exists hs, mapM Group.getMobjectHeirarchy subs = Some hs /\
                          Forall WellFormed (concat hs)).
  { clear Hsubs. induction IH as [|s subs (rest & Hr & Hwf) Hsubs IHs].
    - exists []. split; [reflexivity|constructor].
    - destruct IHs as (hs & Hhs & Hc).
      exists ((s :: rest) :: hs). split.
      + cbn [mapM]. rewrite Hr. cbn [bind].
        fold (mapM Group.getMobjectHeirarchy). rewrite Hhs. reflexivity.
      + cbn [concat]. apply Forall_app. split; assumption. }
  destruct Hm as (hs & Hhs & Hc). rewrite Hhs. cbn [bind].
  exists (concat hs). split; [reflexivity|].
  constructor; [constructor; exact Hsubs|exact Hc].
Qed.

Lemma points_wf (m : Shape) : WellFormed m -> exists vs, Group.points m = Some vs.
Proof. intro H. destruct H. eexists. reflexivity. Qed.

Lemma getPointCenter_wf (m : Shape) :
  WellFormed m -> exists center, Group.getPointCenter m = Some center.
Proof.
  intro H. destruct (getMobjectHeirarchy_wf H) as (rest & Hh & Hwf).
  destruct H as [pr st fi lw vs c subs Hsubs].
  unfold Group.getPointCenter. rewrite points_node. cbn [bind].
  destruct vs as [|a vs]; [eexists; reflexivity|].
  cbn [length Nat.eqb]. rewrite Hh. cbn [bind mapM]. rewrite points_node. cbn [bind].
  fold (mapM Group.points).
  destruct (@mapM_total _ _ Group.points rest) as (r & Hr).
  { intros x Hx. apply points_wf. inversion Hwf as [|? ? _ Hrest]; subst.
    rewrite Forall_forall in Hrest. apply Hrest. exact Hx. }
  rewrite Hr. cbn [bind concat app map Group.extent]. eexists. reflexivity.
Qed.

Lemma pushSelfIntoSubmobjects_wf pr st fi lw vs c subs :
  Forall WellFormed subs ->
  exists a st' fi' lw',
    Group.pushSelfIntoSubmobjects env (TwoGroup pr st fi lw (TwoPath vs c :: subs))
    = Some (TwoGroup pr st fi lw
              (TwoPath [a] false
                 :: subs ++ [TwoGroup PMobject st' fi' lw' [TwoPath vs c]])).
Proof.
  intro Hsubs.
  destruct (@getPointCenter_wf (TwoGroup pr st fi lw (TwoPath vs c :: subs)))
    as (center & Hc); [constructor; exact Hsubs|].
  unfold Group.pushSelfIntoSubmobjects.
  cbn [Group.path Group.getChildren bind nth_error Group.clone Group.getStyleDict
       Group.newMobject Group.restyle Group.paint map Group.applyStyle Group.propagates].
  rewrite Hc. cbn [bind Group.setPath Group.add tl].
  unfold pathFromAnchors. cbn [anchorsFrom].
  eexists. eexists. eexists. eexists. reflexivity.
Qed.

Lemma getPointMobject_wf (m : Shape) :
  WellFormed m ->
  exists pm, Group.getPointMobject env m = Some pm /\ NonEmptyLeaf pm.
Proof.
  intro H. destruct (getPointCenter_wf H) as (center & Hc).
  unfold Group.getPointMobject. rewrite Hc. cbn [bind].
  eexists. split; [reflexivity|].
  unfold Group.newMobject, Group.restyle, pathFromAnchors. cbn [anchorsFrom].
  repeat eexists.
Qed.

Lemma addPointMobjects_wf (n : nat) :
  forall pr st fi lw vs c subs,
    Forall WellFormed subs ->
    exists extra,
      Group.addPointMobjects env n (TwoGroup pr st fi lw (TwoPath vs c :: subs))
      = Some (TwoGroup pr st fi lw (TwoPath vs c :: subs ++ extra)) /\
      Forall NonEmptyLeaf extra.
Proof.
  induction n as [|n IH]; intros pr st fi lw vs c subs Hsubs.
  - exists []. rewrite app_nil_r. split; [reflexivity|constructor].
  - cbn [Group.addPointMobjects].
    destruct (@getPointMobject_wf (TwoGroup pr st fi lw (TwoPath vs c :: subs)))
      as (pm & Hpm & Hleaf); [constructor; exact Hsubs|].
    rewrite Hpm. cbn [bind Group.add app].
    destruct (IH pr st fi lw vs c (subs ++ [pm])) as (extra & He & Hl).
    { apply Forall_app. split; [exact Hsubs|].
      constructor; [apply NonEmptyLeaf_wf; exact Hleaf|constructor]. }
    change (TwoPath vs c :: subs ++ [pm]) with (TwoPath vs c :: (subs ++ [pm])).
    rewrite He. exists (pm :: extra). rewrite <- app_assoc.
    split; [reflexivity|]. constructor; assumption.
Qed.

Lemma mapM_Forall (A B : Type) (f : A -> Exc B) (R : B -> Prop) (l : list A) :
  (forall x, In x l -> exists y, f x = Some y /\ R y) ->
  exists r, mapM f l = Some r /\ Forall R r.
Proof.
  induction l as [|x l IH]; intro H.
  - exists []. split; [reflexivity|constructor].
  - destruct (H x (or_introl eq_refl)) as (y & Hy & Hr).
    destruct IH as (r & Hm & HF); [intros; apply H; right; assumption|].
    exists (y :: r). split; [|constructor; assumption].
    cbn [mapM]. rewrite Hy. cbn [bind]. fold (mapM f). rewrite Hm. reflexivity.
Qed.

Lemma copiesOf_wf (sub : Shape) (sf : nat) :
  WellFormed sub ->
  exists l, Group.copiesOf env sub sf = Some l /\ Forall (SameFrame sub) l.
Proof.
  intro H. unfold Group.copiesOf.
  destruct (clone_wf H) as (submob & Hcl & Hsf).
  set (body := fun _ : nat =>
                 submob' <- Group.clone env sub;;
                 oldStyle <- Group.getStyleDict sub;;
                 Group.applyStyle
                   (mkPatch (Some (fst (strokeColor oldStyle), 0)) None
                            (Some (fst (fillColor oldStyle), 0)) None None)
                   submob').
  rewrite Hcl. cbn [bind].
  destruct (@mapM_Forall _ _ body (SameFrame sub) (seq 0 (sf - 1))) as (extra & He & HF).
  { intros x _. unfold body. rewrite Hcl. cbn [bind].
    destruct H as [pr st fi lw vs c subs Hsubs]. cbn [Group.getStyleDict bind].
    destruct (@applyStyle_wf
                (mkPatch (Some (fst (strokeColor (Group.styleOf st fi lw)), 0))
                         None
                         (Some (fst (fillColor (Group.styleOf st fi lw)), 0))
                         None None)
                submob (SameFrame_wf Hsf)) as (m' & Hm' & Hsf').
    exists m'. split; [exact Hm'|]. eapply SameFrame_trans; eassumption. }
  rewrite He. cbn [bind]. eexists. split; [reflexivity|].
  constructor; assumption.
Qed.

Lemma Fits_SameFrame (H : nat) (c c' : Shape) :
  Fits H c -> SameFrame c c' -> Fits H c'.
Proof.
  intros (Hwf & Hc) Hsf. split; [eapply SameFrame_wf; eassumption|].
  destruct Hc as [Hh|Hl].
  - left. rewrite (SameFrame_height Hsf). exact Hh.
  - right. eapply SameFrame_leaf; eassumption.
Qed.

Lemma Fits_leaf (H : nat) (c : Shape) : NonEmptyLeaf c -> Fits H c.
Proof. intro Hl. split; [apply NonEmptyLeaf_wf; exact Hl|right; exact Hl]. Qed.

Lemma Fits_wf (H : nat) (l : list Shape) : Forall (Fits H) l -> Forall WellFormed l.
Proof. apply Forall_impl. intros c (Hwf & _). exact Hwf. Qed.

Lemma addSubmobjects_wf (H : nat) pr st fi lw vs c subs (n : nat) :
  Forall (Fits H) subs ->
  exists subs',
    Group.addSubmobjects env (TwoGroup pr st fi lw (TwoPath vs c :: subs)) n
    = Some (TwoGroup pr st fi lw (TwoPath vs c :: subs')) /\
    Forall (Fits H) subs'.
Proof.
  intro Hsubs. unfold Group.addSubmobjects.
  cbn [Group.submobjects Group.getChildren bind tl].
  destruct (Nat.eqb_spec (length subs) 0) as [E|E].
  - destruct (@addPointMobjects_wf n pr st fi lw vs c subs (Fits_wf Hsubs))
      as (extra & He & Hl).
    rewrite He. eexists. split; [reflexivity|].
    apply Forall_app. split; [exact Hsubs|].
    eapply Forall_impl; [|exact Hl]. intros; apply Fits_leaf; assumption.
  - set (sfs := Group.splitFactors (length subs) (length subs + n)).
    destruct (@mapM_Forall _ _
                (fun isub : nat * Shape =>
                   Group.copiesOf env (snd isub) (nth (fst isub) sfs 0%nat))
                (Forall (Fits H))
                (combine (seq 0 (length subs)) subs)) as (copies & Hc & HF).
    { intros [i sub] Hin. apply in_combine_r in Hin. cbn [fst snd].
      rewrite Forall_forall in Hsubs. specialize (Hsubs sub Hin).
      destruct (@copiesOf_wf sub (nth i sfs 0%nat) (proj1 Hsubs)) as (l & Hl & Hsf).
      exists l. split; [exact Hl|].
      eapply Forall_impl; [|exact Hsf]. intros c' Hc'.
      eapply Fits_SameFrame; eassumption. }
    rewrite Hc. cbn [bind Group.setSubmobjects Group.add app].
    eexists. split; [reflexivity|].
    clear -HF. induction HF as [|l copies Hl _ IH]; [constructor|].
    cbn [concat]. apply Forall_app. split; assumption.
Qed.

Lemma Kids_of_wf (H : nat) (m : Shape) :
  WellFormed m -> (height m <= H)%nat -> Kids H m.
Proof.
  intros Hwf Hh. destruct Hwf as [pr st fi lw vs c subs Hsubs].
  repeat eexists. cbn [height map] in Hh.
  apply list_max_le in Hh. inversion Hh as [|? ? _ Hrest]; subst.
  rewrite Forall_forall in *. intros s Hs. split; [apply Hsubs; exact Hs|].
  left. specialize (Hrest (S (height s))).
  assert (In (S (height s)) (map (fun c => S (height c)) subs))
    by (apply in_map_iff; exists s; split; [reflexivity|exact Hs]).
  specialize (Hrest H0). lia.
Qed.

Lemma nullPointAlign_kids (H : nat) (x y : Shape) :
  Kids H x -> Kids H y ->
  exists x1 y1,
    Group.nullPointAlign env x y = Some (x1, y1) /\ Kids H x1 /\ Kids H y1.
Proof.
  intros (pr & st & fi & lw & vs & c & subs & -> & Hx)
         (pr0 & st0 & fi0 & lw0 & vs0 & c0 & subs0 & -> & Hy).
  unfold Group.nullPointAlign. rewrite !points_node. cbn [bind].
  destruct (Nat.eqb_spec (length vs) 0) as [Ex|Ex];
    destruct (Nat.eqb_spec (length vs0) 0) as [Ey|Ey]; cbn [andb negb].
  - eexists. eexists. split; [reflexivity|]. split; repeat eexists; assumption.
  - destruct (@pushSelfIntoSubmobjects_wf pr0 st0 fi0 lw0 vs0 c0 subs0 (Fits_wf Hy))
      as (a & st' & fi' & lw' & Hp).
    rewrite Hp. cbn [bind]. eexists. eexists. split; [reflexivity|].
    split; repeat eexists; try assumption.
    apply Forall_app. split; [exact Hy|]. constructor; [|constructor].
    apply Fits_leaf. destruct vs0 as [|a0 vs0]; [simpl in Ey; lia|]. repeat eexists.
  - destruct (@pushSelfIntoSubmobjects_wf pr st fi lw vs c subs (Fits_wf Hx))
      as (a & st' & fi' & lw' & Hp).
    rewrite Hp. cbn [bind]. eexists. eexists. split; [reflexivity|].
    split; repeat eexists; try assumption.
    apply Forall_app. split; [exact Hx|]. constructor; [|constructor].
    apply Fits_leaf. destruct vs as [|a0 vs]; [simpl in Ex; lia|]. repeat eexists.
  - eexists. eexists. split; [reflexivity|]. split; repeat eexists; assumption.
Qed.

Lemma alignSubmobjects_kids (H : nat) (x y : Shape) :
  Kids H x -> Kids H y ->
  exists x2 y2,
    Group.alignSubmobjects env x y = Some (x2, y2) /\ Kids H x2 /\ Kids H y2.
Proof.
  intros (pr & st & fi & lw & vs & c & subs & -> & Hx)
         (pr0 & st0 & fi0 & lw0 & vs0 & c0 & subs0 & -> & Hy).
  unfold Group.alignSubmobjects. rewrite !submobjects_node. cbn [bind].
  destruct (length subs =? length subs0)%nat.
  - eexists. eexists. split; [reflexivity|]. split; repeat eexists; assumption.
  - destruct (length subs <? length subs0)%nat.
    + destruct (@addSubmobjects_wf H pr st fi lw vs c subs
                  (length subs0 - length subs) Hx) as (subs' & Ha & Hf).
      rewrite Ha. cbn [bind]. eexists. eexists. split; [reflexivity|].
      split; repeat eexists; assumption.
    + destruct (@addSubmobjects_wf H pr0 st0 fi0 lw0 vs0 c0 subs0
                  (length subs - length subs0) Hy) as (subs' & Ha & Hf).
      rewrite Ha. cbn [bind]. eexists. eexists. split; [reflexivity|].
      split; repeat eexists; assumption.
Qed.

Lemma alignLevel_kids (H : nat) (x y : Shape) :
  Kids H x -> Kids H y ->
  exists x3 y3,
    Group.alignLevel env x y = Some (x3, y3) /\ Kids H x3 /\ Kids H y3.
Proof.
  intros Hx Hy.
  destruct (nullPointAlign_kids Hx Hy) as (x1 & y1 & Hn & Hx1 & Hy1).
  destruct (alignSubmobjects_kids Hx1 Hy1) as (x2 & y2 & Hs & Hx2 & Hy2).
  destruct (@nullPointAlign_post env _ _ _ _ Hn) as (px & py & Hpx & Hpy & H0x & H0y).
  destruct (@alignSubmobjects_post env _ _ _ _ _ _ Hs Hpx Hpy) as (Hpx2 & Hpy2 & _).
  destruct Hx2 as (pr & st & fi & lw & vs & c & subs & -> & Hfx).
  destruct Hy2 as (pr0 & st0 & fi0 & lw0 & vs0 & c0 & subs0 & -> & Hfy).
  rewrite points_node in Hpx2, Hpy2. inversion Hpx2. inversion Hpy2. subst vs vs0.
  destruct (@alignPoints_node env pr st fi lw px c subs pr0 st0 fi0 lw0 py c0 subs0
              H0x H0y) as (px' & py' & Hal & _).
  unfold Group.alignLevel. rewrite Hn. cbn [bind]. rewrite Hs. cbn [bind].
  rewrite Hal. eexists. eexists. split; [reflexivity|].
  split; repeat eexists; assumption.
Qed.

Lemma alignEach_total (rec : Shape -> Shape -> Exc (Shape * Shape)) (H : nat) :
  (forall a b, Fits H a -> Fits H b -> exists r, rec a b = Some r) ->
  forall xs ys,
    Forall (Fits H) xs -> Forall (Fits H) ys -> length xs = length ys ->
    exists r, Group.alignEach rec xs ys = Some r.
Proof.
  intro Hrec. induction xs as [|x xs IH]; intros ys Hx Hy Hlen.
  - eexists. reflexivity.
  - destruct ys as [|y ys]; [discriminate|].
    inversion Hx; subst. inversion Hy; subst.
    destruct (Hrec x y) as ([x' y'] & Hr); [assumption|assumption|].
    destruct (IH ys) as ([rx ry] & Hrest); [assumption|assumption|simpl in Hlen; lia|].
    cbn [Group.alignEach]. rewrite Hr. cbn [bind]. rewrite Hrest. cbn [bind].
    eexists. reflexivity.
Qed.

Lemma alignLevel_leaves pr st fi lw a vs c pr0 st0 fi0 lw0 a0 vs0 c0 :
  exists px py,
    Group.alignLevel env (TwoGroup pr st fi lw [TwoPath (a :: vs) c])
                         (TwoGroup pr0 st0 fi0 lw0 [TwoPath (a0 :: vs0) c0])
    = Some (TwoGroup pr st fi lw [TwoPath px c],
            TwoGroup pr0 st0 fi0 lw0 [TwoPath py c0]).
Proof.
  destruct (@alignPoints_node env pr st fi lw (a :: vs) c [] pr0 st0 fi0 lw0 (a0 :: vs0) c0 [])
    as (px & py & Hal & _); [discriminate|discriminate|].
  exists px, py. unfold Group.alignLevel.
  unfold Group.nullPointAlign. rewrite !points_node. cbn [bind length Nat.eqb andb negb].
  unfold Group.alignSubmobjects. rewrite !submobjects_node.
  cbn [bind length Nat.eqb]. exact Hal.
Qed.

(** [alignData] returns on well-formed trees once the recursion budget
    exceeds their heights (and with any budget on two leaves that both
    have points). *)
Lemma alignData_returns (fuel : nat) :
  forall x y,
    WellFormed x -> WellFormed y ->
    ((Nat.max (height x) (height y) < fuel)%nat \/
     (NonEmptyLeaf x /\ NonEmptyLeaf y /\ (1 <= fuel)%nat)) ->
    exists r, Group.alignData env fuel x y = Some r.
Proof.
  induction fuel as [|fuel IH]; intros x y Hwx Hwy Hfuel.
  - destruct Hfuel as [?|(_ & _ & ?)]; lia.
  - destruct Hfuel as [Hlt|(Hlx & Hly & _)].
    + set (H := Nat.max (height x) (height y)) in *.
      assert (Hkx : Kids H x) by (apply Kids_of_wf; [assumption|lia]).
      assert (Hky : Kids H y) by (apply Kids_of_wf; [assumption|lia]).
      pose proof (height_wf_pos Hwx) as H1.
      assert (Hrec : forall a b, Fits H a -> Fits H b ->
                                 exists r, Group.alignData env fuel a b = Some r).
      { intros a b (Hwa & Ha) (Hwb & Hb). apply IH; [assumption|assumption|].
        pose proof (height_wf_pos Hwa) as Hpa.
        pose proof (height_wf_pos Hwb) as Hpb.
        destruct Ha as [Ha|Ha], Hb as [Hb|Hb].
        - left. lia.
        - left. rewrite (NonEmptyLeaf_height Hb). lia.
        - left. rewrite (NonEmptyLeaf_height Ha). lia.
        - right. split; [assumption|]. split; [assumption|]. lia. }
      destruct (alignLevel_kids Hkx Hky) as (x3 & y3 & Hl & Hx3 & Hy3).
      pose proof (@alignLevel_settled env _ _ _ _ Hl)
        as (px & py & sx & sy & Hpx & Hpy & Hsx & Hsy & Hlen & _).
      destruct Hx3 as (pr & st & fi & lw & vs & c & subs & -> & Hfx).
      destruct Hy3 as (pr0 & st0 & fi0 & lw0 & vs0 & c0 & subs0 & -> & Hfy).
      rewrite submobjects_node in Hsx, Hsy. inversion Hsx. inversion Hsy. subst sx sy.
      destruct (@alignEach_total (Group.alignData env fuel) H Hrec subs subs0 Hfx Hfy Hlen)
        as ([sx' sy'] & He).
      cbn [Group.alignData]. rewrite Hl. cbn [bind]. rewrite !submobjects_node.
      cbn [bind]. rewrite He. cbn [bind Group.setSubmobjects].
      eexists. reflexivity.
    + destruct Hlx as (pr & st & fi & lw & a & vs & c & ->).
      destruct Hly as (pr0 & st0 & fi0 & lw0 & a0 & vs0 & c0 & ->).
      destruct (alignLevel_leaves pr st fi lw a vs c pr0 st0 fi0 lw0 a0 vs0 c0)
        as (px & py & Hl).
      cbn [Group.alignData]. rewrite Hl. cbn [bind]. rewrite !submobjects_node.
      cbn [bind Group.alignEach Group.setSubmobjects].
      eexists. reflexivity.
Qed.

(** [alignData] returns on every pair of well-formed trees. *)
Lemma alignData_total (x y : Shape) :
  WellFormed x -> WellFormed y ->
  exists x' y',
    Group.alignData env (S (Nat.max (height x) (height y))) x y = Some (x', y').
Proof.
  intros Hx Hy.
  destruct (@alignData_returns (S (Nat.max (height x) (height y))) x y Hx Hy)
    as ([x' y'] & Hr); [left; lia|].
  exists x', y'. exact Hr.
Qed.

End Total.
(** ** Claims on the alignment *)

(** C1: when [alignData(x, y)] returns, [x] and [y] have the same
    number of submobjects at every level of the two trees; the three
    level steps leave the pair with equal counts, and only then is
    submobject [i] of [x] aligned with submobject [i] of [y].  On
    well-formed trees the call returns. *)
Theorem alignData_same_counts :
  forall env : Group.Env,
    (forall (fuel : nat) (x y x' y' : Shape),
       Group.alignData env fuel x y = Some (x', y') ->
       SameCounts x' y' /\
       exists x3 y3 sx sy sx' sy',
         Group.alignLevel env x y = Some (x3, y3) /\
         Group.submobjects x3 = Some sx /\ Group.submobjects y3 = Some sy /\
         length sx = length sy /\
         Group.alignEach (Group.alignData env (fuel - 1)) sx sy = Some (sx', sy') /\
         Group.submobjects x' = Some sx' /\ Group.submobjects y' = Some sy') /\
    (forall x y : Shape,
       WellFormed x -> WellFormed y ->
       exists x' y',
         Group.alignData env (S (Nat.max (height x) (height y))) x y = Some (x', y') /\
         SameCounts x' y').
Proof.
  intro env. split.
  - intros fuel x y x' y' H. split; [eapply alignData_counts; exact H|].
    destruct fuel as [|fuel]; [discriminate|].
    destruct (alignData_unfold _ _ _ _ H)
      as (x3 & y3 & sx & sy & sx' & sy' & Hl & Hsx & Hsy & Hlen & He & _ & _ & Hx' & Hy' & _).
    exists x3, y3, sx, sy, sx', sy'.
    replace (S fuel - 1)%nat with fuel by lia.
    repeat split; assumption.
  - intros x y Hx Hy.
    destruct (@alignData_total env x y Hx Hy) as (x' & y' & H).
    exists x', y'. split; [exact H|]. eapply alignData_counts; exact H.
Qed.

Lemma alignData_same_counts_witness :
  (exists x' y',
     Group.alignData Examples.env0 4 Examples.pair Examples.segment = Some (x', y') /\
     SameCounts x' y') /\
  (exists x' y',
     Group.alignData Examples.env0
       (S (Nat.max (height Examples.pair) (height Examples.segment)))
       Examples.pair Examples.segment = Some (x', y') /\
     SameCounts x' y').
Proof.
  split.
  - destruct (Group.alignData Examples.env0 4 Examples.pair Examples.segment)
      as [[x' y']|] eqn:E; [|vm_compute in E; discriminate].
    exists x', y'. split; [reflexivity|].
    exact (proj1 (proj1 (alignData_same_counts Examples.env0) 4%nat _ _ _ _ E)).
  - apply (proj2 (alignData_same_counts Examples.env0));
      unfold Examples.pair, Examples.segment, Examples.triangle, Examples.mob,
        Group.newMobject, Group.restyle;
      repeat constructor.
Defined.

(** C3: aligning an aligned pair again changes nothing: the second
    call returns the pair as the first call left it, so no submobject
    is added, no path gains points and nothing is pushed into a new
    child.  On well-formed trees both calls return. *)
Theorem alignData_idempotent :
  forall env : Group.Env,
    (forall (fuel : nat) (x y x' y' : Shape),
       Group.alignData env fuel x y = Some (x', y') ->
       Group.alignData env fuel x' y' = Some (x', y')) /\
    (forall x y : Shape,
       WellFormed x -> WellFormed y ->
       exists (fuel : nat) (x' y' : Shape),
         Group.alignData env fuel x y = Some (x', y') /\
         Group.alignData env fuel x' y' = Some (x', y')).
Proof.
  intro env. split.
  - intros fuel x y x' y' H. eapply alignData_fixed; exact H.
  - intros x y Hx Hy.
    destruct (@alignData_total env x y Hx Hy) as (x' & y' & H).
    exists (S (Nat.max (height x) (height y))), x', y'.
    split; [exact H|]. eapply alignData_fixed; exact H.
Qed.

Lemma alignData_idempotent_witness :
  (exists x' y',
     Group.alignData Examples.env0 4 Examples.pair Examples.segment = Some (x', y') /\
     Group.alignData Examples.env0 4 x' y' = Some (x', y')) /\
  (exists (fuel : nat) (x' y' : Shape),
     Group.alignData Examples.env0 fuel Examples.triangle Examples.pair = Some (x', y') /\
     Group.alignData Examples.env0 fuel x' y' = Some (x', y')).
Proof.
  split.
  - destruct (Group.alignData Examples.env0 4 Examples.pair Examples.segment)
      as [[x' y']|] eqn:E; [|vm_compute in E; discriminate].
    exists x', y'. split; [reflexivity|].
    exact (proj1 (alignData_idempotent Examples.env0) 4%nat _ _ _ _ E).
  - apply (proj2 (alignData_idempotent Examples.env0));
      unfold Examples.pair, Examples.segment, Examples.triangle, Examples.mob,
        Group.newMobject, Group.restyle;
      repeat constructor.
Defined.

(* ================================================================== *)
(** * Part IV: further properties of the code                          *)
(* ================================================================== *)

(** ** Further properties of the timing *)

Lemma getSubAlpha_cases (lagRatio alpha : Q) (i n : nat) :
  let scaled := (inject_Z (Z.of_nat n - 1) * lagRatio + 1) * alpha in
  let start := lagRatio * inject_Z (Z.of_nat i) in
  (scaled <= start /\ Animation.getSubAlpha lagRatio alpha i n = 0) \/
  (start < scaled /\ start + 1 <= scaled /\
   Animation.getSubAlpha lagRatio alpha i n = 1) \/
  (start < scaled /\ scaled < start + 1 /\
   Animation.getSubAlpha lagRatio alpha i n = scaled - start).
Proof.
  cbv zeta. unfold Animation.getSubAlpha. cbv zeta.
  destruct (Qleb ((inject_Z (Z.of_nat n - 1) * lagRatio + 1) * alpha)
                 (lagRatio * inject_Z (Z.of_nat i))) eqn:E1.
  - left. apply Qleb_true in E1. split; [exact E1 | reflexivity].
  - apply Qleb_false in E1.
    destruct (Qleb (lagRatio * inject_Z (Z.of_nat i) + 1)
                   ((inject_Z (Z.of_nat n - 1) * lagRatio + 1) * alpha)) eqn:E2.
    + right. left. apply Qleb_true in E2. repeat split; assumption.
    + right. right. apply Qleb_false in E2. repeat split; assumption.
Qed.

(** X1: whatever the arguments, [getSubAlpha] returns a number between
    0 and 1. *)
Theorem getSubAlpha_in_unit_interval :
  forall (lagRatio alpha : Q) (i n : nat),
    0 <= Animation.getSubAlpha lagRatio alpha i n /\
    Animation.getSubAlpha lagRatio alpha i n <= 1.
Proof.
  intros lagRatio alpha i n.
  destruct (getSubAlpha_cases lagRatio alpha i n)
    as [(_ & ->) | [(_ & _ & ->) | (H1 & H2 & ->)]]; lra.
Qed.

(** X2: with a lag ratio that is not negative and at least one node,
    the sub-alpha of a node never goes down when alpha goes up. *)
Theorem getSubAlpha_monotone_in_alpha :
  forall (lagRatio alpha alpha' : Q) (i n : nat),
    0 <= lagRatio -> (1 <= n)%nat -> alpha <= alpha' ->
    Animation.getSubAlpha lagRatio alpha i n
    <= Animation.getSubAlpha lagRatio alpha' i n.
Proof.
  intros lagRatio alpha alpha' i n Hl Hn Ha.
  assert (Hn' : 0 <= inject_Z (Z.of_nat n - 1)).
  { change 0 with (inject_Z 0). rewrite <- Zle_Qle. lia. }
  assert (HF : 0 <= inject_Z (Z.of_nat n - 1) * lagRatio + 1).
  { assert (0 <= inject_Z (Z.of_nat n - 1) * lagRatio)
      by (apply Qmult_le_0_compat; assumption). lra. }
  assert (Hs : (inject_Z (Z.of_nat n - 1) * lagRatio + 1) * alpha
               <= (inject_Z (Z.of_nat n - 1) * lagRatio + 1) * alpha').
  { rewrite (Qmult_comm _ alpha), (Qmult_comm _ alpha').
    apply Qmult_le_compat_r; assumption. }
  destruct (getSubAlpha_cases lagRatio alpha i n)
    as [(A1 & ->) | [(A1 & A2 & ->) | (A1 & A2 & ->)]];
  destruct (getSubAlpha_cases lagRatio alpha' i n)
    as [(B1 & ->) | [(B1 & B2 & ->) | (B1 & B2 & ->)]]; lra.
Qed.

Lemma getSubAlpha_monotone_in_alpha_witness :
  Animation.getSubAlpha (1 # 2) (1 # 4) 1 3
  <= Animation.getSubAlpha (1 # 2) (3 # 4) 1 3.
Proof.
  apply (@getSubAlpha_monotone_in_alpha (1 # 2) (1 # 4) (3 # 4) 1 3).
  - discriminate.
  - lia.
  - discriminate.
Defined.

(** X3: with a lag ratio that is not negative, a node later in the
    list is never ahead of an earlier one. *)
Theorem getSubAlpha_later_node_not_ahead :
  forall (lagRatio alpha : Q) (i j n : nat),
    0 <= lagRatio -> (i <= j)%nat ->
    Animation.getSubAlpha lagRatio alpha j n
    <= Animation.getSubAlpha lagRatio alpha i n.
Proof.
  intros lagRatio alpha i j n Hl Hij.
  assert (Hs : lagRatio * inject_Z (Z.of_nat i) <= lagRatio * inject_Z (Z.of_nat j)).
  { rewrite (Qmult_comm lagRatio), (Qmult_comm lagRatio).
    apply Qmult_le_compat_r; [|assumption]. rewrite <- Zle_Qle. lia. }
  destruct (getSubAlpha_cases lagRatio alpha i n)
    as [(A1 & ->) | [(A1 & A2 & ->) | (A1 & A2 & ->)]];
  destruct (getSubAlpha_cases lagRatio alpha j n)
    as [(B1 & ->) | [(B1 & B2 & ->) | (B1 & B2 & ->)]]; lra.
Qed.

Lemma getSubAlpha_later_node_not_ahead_witness :
  Animation.getSubAlpha (1 # 2) (1 # 2) 2 3
  <= Animation.getSubAlpha (1 # 2) (1 # 2) 0 3.
Proof.
  apply (@getSubAlpha_later_node_not_ahead (1 # 2) (1 # 2) 0 2 3).
  - discriminate.
  - lia.
Defined.

(** ** Clones and hierarchies *)

Section Clones.

Variable env : Group.Env.

(** A clone and its hierarchy, node by node. *)
Lemma clone_heirarchy (m : Shape) :
  WellFormed m ->
  exists m' h h',
    Group.clone env m = Some m' /\ SameFrame m m' /\
    Group.getMobjectHeirarchy m = Some h /\
    Group.getMobjectHeirarchy m' = Some h' /\
    Forall WellFormed h /\ Forall WellFormed h' /\
    map Group.points h' = map Group.points h.
Proof.
  intro H. induction H as [pr st fi lw vs c subs Hsubs IH] using WellFormed_nested_ind.
  assert (Hl : exists subs' hs hs',
             mapM (Group.clone env) subs = Some subs' /\
             Forall2 SameFrame subs subs' /\
             mapM Group.getMobjectHeirarchy subs = Some hs /\
             mapM Group.getMobjectHeirarchy subs' = Some hs' /\
             Forall WellFormed (concat hs) /\ Forall WellFormed (concat hs') /\
             map Group.points (concat hs') = map Group.points (concat hs)).
  { clear Hsubs.
    induction IH as [|s subs (s' & h & h' & Hc & Hf & Hh & Hh' & Hw & Hw' & Hp) _ IHs].
    - exists [], [], []. repeat split; constructor.
    - destruct IHs as (subs' & hs & hs' & Hcs & Hfs & Hhs & Hhs' & Hws & Hws' & Hps).
      exists (s' :: subs'), (h :: hs), (h' :: hs').
      repeat split.
      + cbn [mapM]. rewrite Hc. cbn [bind]. fold (mapM (Group.clone env)).
        rewrite Hcs. reflexivity.
      + constructor; assumption.
      + cbn [mapM]. rewrite Hh. cbn [bind]. fold (mapM Group.getMobjectHeirarchy).
        rewrite Hhs. reflexivity.
      + cbn [mapM]. rewrite Hh'. cbn [bind]. fold (mapM Group.getMobjectHeirarchy).
        rewrite Hhs'. reflexivity.
      + cbn [concat]. apply Forall_app. split; assumption.
      + cbn [concat]. apply Forall_app. split; assumption.
      + cbn [concat]. rewrite !map_app, Hp, Hps. reflexivity. }
  destruct Hl as (subs' & hs & hs' & Hcs & Hfs & Hhs & Hhs' & Hws & Hws' & Hps).
  destruct (Forall2_SameFrame Hfs) as (Hwf' & Hht).
  cbn [Group.clone length Nat.eqb]. rewrite andb_false_r.
  cbn [mapM bind]. fold (mapM (Group.clone env)). rewrite Hcs. cbn [bind].
  cbn [Group.getMobjectHeirarchy]. rewrite Hhs. cbn [bind].
  destruct (Group.cloneStyled pr); unfold Group.restyle;
    eexists; exists (TwoGroup pr st fi lw (TwoPath vs c :: subs) :: concat hs);
    eexists; (split; [reflexivity|]);
    (split; [repeat eexists; assumption|]);
    (split; [reflexivity|]);
    cbn [Group.getMobjectHeirarchy]; rewrite Hhs'; cbn [bind];
    (split; [reflexivity|]);
    (split; [constructor; [constructor; exact Hsubs|exact Hws]|]);
    (split; [constructor; [constructor; exact Hwf'|exact Hws']|]);
    cbn [map]; rewrite !points_node, Hps; reflexivity.
Qed.

End Clones.

(** X4: [clone] returns on every well-formed tree; the clone is well
    formed, its hierarchy has as many members as that of the original,
    and member for member the points are the same. *)
Theorem clone_keeps_points :
  forall (env : Group.Env) (m : Shape),
    WellFormed m ->
    exists m' h h',
      Group.clone env m = Some m' /\ WellFormed m' /\
      Group.getMobjectHeirarchy m = Some h /\
      Group.getMobjectHeirarchy m' = Some h' /\
      length h' = length h /\
      map Group.points h' = map Group.points h.
Proof.
  intros env m H.
  destruct (clone_heirarchy env H) as (m' & h & h' & Hc & Hf & Hh & Hh' & _ & _ & Hp).
  exists m', h, h'. repeat split; try assumption.
  - eapply SameFrame_wf; eassumption.
  - rewrite <- (length_map Group.points h'), Hp. apply length_map.
Qed.

Lemma clone_keeps_points_witness :
  exists m' h h',
    Group.clone Examples.env0 Examples.pair = Some m' /\ WellFormed m' /\
    Group.getMobjectHeirarchy Examples.pair = Some h /\
    Group.getMobjectHeirarchy m' = Some h' /\
    length h' = length h /\
    map Group.points h' = map Group.points h.
Proof.
  apply (@clone_keeps_points Examples.env0 Examples.pair).
  repeat constructor.
Defined.

(** ** The argument tuples of the per-node step *)

Lemma filterM_cons (A : Type) (f : A -> Exc bool) (x : A) (l : list A) :
  filterM f (x :: l)
  = (b <- f x;; r <- filterM f l;; Some (if b then x :: r else r)).
Proof. reflexivity. Qed.

(** Two hierarchies with the same points, member for member, have
    their members with points at the same places. *)
Lemma heirarchyMembersWithPoints_pairs (h : list Shape) :
  forall h' : list Shape,
    Forall WellFormed h ->
    map Group.points h' = map Group.points h ->
    exists ms ms',
      Animation.heirarchyMembersWithPoints h = Some ms /\
      Animation.heirarchyMembersWithPoints h' = Some ms' /\
      Forall2 (fun a b => exists vs, Group.points a = Some vs /\
                                     Group.points b = Some vs /\ vs <> [])
              ms ms'.
Proof.
  unfold Animation.heirarchyMembersWithPoints.
  induction h as [|x h IH]; intros h' Hwf Hp.
  - destruct h'; [|discriminate]. exists [], []. repeat split; constructor.
  - destruct h' as [|x' h']; [discriminate|].
    cbn [map] in Hp. injection Hp as Hx Hrest.
    inversion Hwf as [|? ? Hwx Hwh]; subst.
    destruct (IH h' Hwh Hrest) as (ms & ms' & Hm & Hm' & HF).
    destruct (points_wf Hwx) as (vs & Hvs).
    rewrite !filterM_cons, Hm, Hm', Hx, Hvs. cbn [bind].
    destruct vs as [|v vs]; cbn [length Nat.ltb Nat.leb].
    + exists ms, ms'. repeat split; assumption.
    + exists (x :: ms), (x' :: ms'). repeat split; try reflexivity.
      constructor; [|assumption].
      exists (v :: vs). repeat split; try assumption; try congruence.
Qed.

Lemma args_of_pairs (R : Shape -> Shape -> Prop) (ms : list Shape) :
  forall ms' : list Shape,
    Forall2 R ms ms' ->
    Forall2 (fun a t => exists b, t = [Some a; Some b] /\ R a b) ms
      (map (fun i => map (fun h => nth_error h i) [ms; ms'])
           (seq 0 (length ms))).
Proof.
  induction ms as [|a ms IH]; intros ms' HF; inversion HF as [|? b ? ms0 Hab HF']; subst.
  - constructor.
  - cbn [length seq map]. constructor.
    + exists b. split; [reflexivity|assumption].
    + rewrite <- seq_shift, map_map. cbn [nth_error]. apply IH. exact HF'.
Qed.

(** X5: for the two copies an animation over a mobject and its starting
    clone interpolates ([ShowCreation], [Write], [FadeIn]), there is one
    argument tuple for every member of the hierarchy that has points,
    in hierarchy order, and it pairs that member with a node of the
    clone that has the same points: no entry is [undefined]. *)
Theorem starting_mobject_pairs_every_member :
  forall (env : Group.Env) (m : Shape),
    WellFormed m ->
    exists start h members args,
      Animation.createStartingMobject env m = Some start /\
      Group.getMobjectHeirarchy m = Some h /\
      Animation.heirarchyMembersWithPoints h = Some members /\
      Animation.getAllArgsToInterpolateSubmobject
        (ShowCreation.getCopiesForInterpolation m start) = Some args /\
      length args = length members /\
      Forall2 (fun member t =>
                 exists b vs, t = [Some member; Some b] /\
                              Group.points member = Some vs /\
                              Group.points b = Some vs /\ vs <> [])
              members args.
Proof.
  intros env m H.
  destruct (clone_heirarchy env H) as (m' & h & h' & Hc & _ & Hh & Hh' & Hw & _ & Hp).
  destruct (heirarchyMembersWithPoints_pairs h' Hw Hp) as (ms & ms' & Hm & Hm' & HF).
  exists m', h, ms. eexists.
  split; [exact Hc|]. split; [exact Hh|]. split; [exact Hm|].
  unfold Animation.getAllArgsToInterpolateSubmobject,
         ShowCreation.getCopiesForInterpolation.
  cbn [mapM]. rewrite Hh, Hh'. cbn [bind]. rewrite Hm, Hm'. cbn [bind nth_error].
  split; [reflexivity|]. split.
  - rewrite length_map, length_seq. reflexivity.
  - pose proof (args_of_pairs HF) as Ha.
    revert Ha. apply Forall2_impl.
    intros a t (b & -> & vs & Ha & Hb & Hne). exists b, vs. repeat split; assumption.
Qed.

Lemma starting_mobject_pairs_every_member_witness :
  exists start h members args,
    Animation.createStartingMobject Examples.env0 Examples.pair = Some start /\
    Group.getMobjectHeirarchy Examples.pair = Some h /\
    Animation.heirarchyMembersWithPoints h = Some members /\
    Animation.getAllArgsToInterpolateSubmobject
      (ShowCreation.getCopiesForInterpolation Examples.pair start) = Some args /\
    length args = length members /\
    Forall2 (fun member t =>
               exists b vs, t = [Some member; Some b] /\
                            Group.points member = Some vs /\
                            Group.points b = Some vs /\ vs <> [])
            members args.
Proof.
  apply (@starting_mobject_pairs_every_member Examples.env0 Examples.pair).
  repeat constructor.
Defined.

(** ** Styles *)

Lemma cloneProto_propagates (pr : Proto) :
  Group.propagates (Group.cloneProto pr) = Group.propagates pr.
Proof. destruct pr; reflexivity. Qed.

Lemma cloneStyled_propagates (pr : Proto) :
  Group.cloneStyled pr = negb (Group.propagates pr).
Proof. destruct pr; reflexivity. Qed.

(** *** The alpha channel through a hex string *)

Lemma limit01_range (a : Q) : 0 <= limit01 a /\ limit01 a <= 1.
Proof.
  unfold limit01. destruct (Qltb a 0) eqn:E0; [split; discriminate|].
  destruct (Qltb 1 a) eqn:E1; [split; discriminate|].
  apply Qltb_false in E0. apply Qltb_false in E1. split; assumption.
Qed.

Lemma limit01_id (a : Q) : 0 <= a -> a <= 1 -> limit01 a = a.
Proof.
  intros H0 H1. unfold limit01.
  assert (E0 : Qltb a 0 = false) by (apply Qltb_false; exact H0).
  assert (E1 : Qltb 1 a = false) by (apply Qltb_false; exact H1).
  rewrite E0, E1. reflexivity.
Qed.

Lemma Math_round_bounds (x : Q) :
  x - (1 # 2) < inject_Z (Math_round x) /\ inject_Z (Math_round x) <= x + (1 # 2).
Proof.
  unfold Math_round.
  pose proof (Qfloor_le (x + (1 # 2))) as Hle.
  pose proof (Qlt_floor (x + (1 # 2))) as Hlt.
  rewrite inject_Z_plus in Hlt. change (inject_Z 1) with 1 in Hlt.
  split; lra.
Qed.

Lemma Math_round_range (x : Q) (lo hi : Z) :
  inject_Z lo <= x -> x <= inject_Z hi -> (lo <= Math_round x <= hi)%Z.
Proof.
  intros Hlo Hhi. destruct (Math_round_bounds x) as (H1 & H2).
  split.
  - assert (H : inject_Z (lo - 1) < inject_Z (Math_round x)).
    { replace (lo - 1)%Z with (lo + -1)%Z by lia. rewrite inject_Z_plus.
      change (inject_Z (-1)) with (-1 # 1). lra. }
    rewrite <- Zlt_Qlt in H. lia.
  - assert (H : inject_Z (Math_round x) < inject_Z (hi + 1)).
    { rewrite inject_Z_plus. change (inject_Z 1) with 1. lra. }
    rewrite <- Zlt_Qlt in H. lia.
Qed.

Lemma alphaByte_range (a : Q) : (0 <= alphaByte a <= 255)%Z.
Proof.
  unfold alphaByte. destruct (limit01_range a) as (H0 & H1).
  apply Math_round_range.
  - change (inject_Z 0) with 0. nra.
  - change (inject_Z 255) with (255 # 1). nra.
Qed.

Lemma byteAlpha_values :
  Forall (fun n : nat =>
            byteAlpha (alphaByte (byteAlpha (Z.of_nat n))) = byteAlpha (Z.of_nat n) /\
            exists k : Z, (0 <= k <= 100)%Z /\ byteAlpha (Z.of_nat n) = Qred (inject_Z k / 100))
         (seq 0 256).
Proof.
  apply Forall_forall. intros n Hn. apply in_seq in Hn.
  assert (Hb : (n < 256)%nat) by lia. clear Hn.
  do 256 (destruct n as [|n];
          [split; [vm_compute; reflexivity
                  |eexists; split; [|unfold byteAlpha; reflexivity];
                   vm_compute; split; discriminate]|]).
  lia.
Qed.

(** What is read from a hex string is read again from a string written
    with it. *)
Lemma byteAlpha_stable (n : Z) :
  (0 <= n <= 255)%Z -> byteAlpha (alphaByte (byteAlpha n)) = byteAlpha n.
Proof.
  intro Hn. pose proof byteAlpha_values as H. rewrite Forall_forall in H.
  destruct (H (Z.to_nat n)) as (Hs & _); [apply in_seq; lia|].
  rewrite Z2Nat.id in Hs by lia. exact Hs.
Qed.

Lemma hexAlpha_stable (c c' : N) (a : Q) :
  hexAlpha (c', hexAlpha (c, a)) = hexAlpha (c, a).
Proof. unfold hexAlpha. cbn [snd]. apply byteAlpha_stable. apply alphaByte_range. Qed.

(** The alpha read back is a number of hundredths between 0 and 1. *)
Lemma byteAlpha_hundredths (a : Q) :
  exists k : Z, (0 <= k <= 100)%Z /\ byteAlpha (alphaByte a) == inject_Z k / 100.
Proof.
  pose proof (alphaByte_range a) as Hn.
  pose proof byteAlpha_values as H. rewrite Forall_forall in H.
  destruct (H (Z.to_nat (alphaByte a))) as (_ & k & Hk & Hv); [apply in_seq; lia|].
  rewrite Z2Nat.id in Hv by lia.
  exists k. split; [exact Hk|]. rewrite Hv. apply Qred_correct.
Qed.

(** For an alpha between 0 and 1 it is off by less than a hundredth. *)
Lemma byteAlpha_close (a : Q) :
  0 <= a -> a <= 1 ->
  a - (1 # 100) <= byteAlpha (alphaByte a) /\ byteAlpha (alphaByte a) <= a + (1 # 100).
Proof.
  intros H0 H1. unfold byteAlpha, alphaByte. rewrite (limit01_id H0 H1).
  rewrite Qred_correct.
  set (n := Math_round (a * 255)).
  destruct (Math_round_bounds (a * 255)) as (Hn1 & Hn2). fold n in Hn1, Hn2.
  set (y := inject_Z n / 255 * 100).
  destruct (Math_round_bounds y) as (Hm1 & Hm2).
  set (m := Math_round y) in *.
  assert (Hy : y == inject_Z n * (100 # 255)) by (unfold y; field).
  assert (Hm : inject_Z m / 100 == inject_Z m * (1 # 100)) by field.
  rewrite Hm. rewrite Hy in Hm1, Hm2. split; lra.
Qed.

Section CloneStyle.

Variable env : Group.Env.

(** The clone of a well-formed node, written out. *)
Lemma clone_own pr st fi lw vs c subs :
  Forall WellFormed subs ->
  exists subs',
    Forall2 SameFrame subs subs' /\
    Group.clone env (TwoGroup pr st fi lw (TwoPath vs c :: subs))
    = Some (if Group.cloneStyled pr
            then TwoGroup (Group.cloneProto pr)
                          (fst st, hexAlpha st) (fst fi, hexAlpha fi)
                          (lw * 100 / 100) (TwoPath vs c :: subs')
            else TwoGroup (Group.cloneProto pr) (Group.groupStroke env)
                          (Group.groupFill env) (Group.groupLinewidth env)
                          (TwoPath vs c :: subs')).
Proof.
  intro Hsubs.
  destruct (@mapM_Forall2 _ _ (Group.clone env) SameFrame subs) as (subs' & Hm & HF).
  { eapply Forall_impl; [|exact Hsubs]. intros s Hs. apply clone_wf. exact Hs. }
  exists subs'. split; [exact HF|].
  cbn [Group.clone length Nat.eqb]. rewrite andb_false_r.
  cbn [mapM bind]. fold (mapM (Group.clone env)). rewrite Hm. cbn [bind].
  destruct (Group.cloneStyled pr); reflexivity.
Qed.

(** The copies [addSubmobjects] makes of one submobject: at least one,
    each with the path of the original, and, where the class keeps its
    style, with the stroke and fill read from the original. *)
Lemma copiesOf_same (sub : Shape) (sf : nat) :
  WellFormed sub ->
  exists l,
    Group.copiesOf env sub sf = Some l /\
    (1 <= length l)%nat /\
    Forall (fun copy => SameFrame sub copy /\
                        (KeepsStyle sub -> ColoursReadFrom sub copy)) l.
Proof.
  intro H. unfold Group.copiesOf.
  set (body := fun _ : nat =>
                 submob' <- Group.clone env sub;;
                 oldStyle <- Group.getStyleDict sub;;
                 Group.applyStyle
                   (mkPatch (Some (fst (strokeColor oldStyle), 0)) None
                            (Some (fst (fillColor oldStyle), 0)) None None)
                   submob').
  destruct (clone_wf env H) as (submob & Hcl & Hsf).
  assert (Hcol : KeepsStyle sub -> ColoursReadFrom sub submob).
  { destruct H as [pr st fi lw vs c subs Hsubs]. cbn [KeepsStyle]. intro Hk.
    destruct (clone_own pr st fi lw vs c Hsubs) as (subs' & _ & Hc).
    rewrite Hc in Hcl. rewrite cloneStyled_propagates, Hk in Hcl. cbn [negb] in Hcl.
    injection Hcl as <-. repeat eexists. }
  rewrite Hcl. cbn [bind].
  destruct (@mapM_Forall _ _ body
              (fun copy => SameFrame sub copy /\
                           (KeepsStyle sub -> ColoursReadFrom sub copy))
              (seq 0 (sf - 1))) as (extra & He & HF).
  { intros x _. unfold body. rewrite Hcl. cbn [bind].
    destruct H as [pr st fi lw vs c subs Hsubs]. cbn [Group.getStyleDict bind].
    destruct (@applyStyle_wf
                (mkPatch (Some (fst (strokeColor (Group.styleOf st fi lw)), 0)) None
                         (Some (fst (fillColor (Group.styleOf st fi lw)), 0)) None None)
                submob (SameFrame_wf Hsf)) as (m' & Hm' & Hsf').
    exists m'. split; [exact Hm'|]. split; [eapply SameFrame_trans; eassumption|].
    cbn [KeepsStyle]. intro Hk.
    destruct (clone_own pr st fi lw vs c Hsubs) as (subs' & _ & Hc).
    rewrite Hc in Hcl. rewrite cloneStyled_propagates, Hk in Hcl. cbn [negb] in Hcl.
    injection Hcl as <-.
    rewrite applyStyle_own in Hm' by (rewrite cloneProto_propagates; exact Hk).
    injection Hm' as <-.
    unfold Group.restyle, Group.strokeOf, Group.fillOf, assign, Group.styleOf.
    cbn [Group.paint strokeColor strokeOpacity fillColor fillOpacity orElse
         setStrokeColor setStrokeOpacity setFillColor setFillOpacity fst snd].
    destruct st as [sc sa], fi as [fc fa]. cbn [fst].
    rewrite !hexAlpha_stable. repeat eexists. }
  rewrite He. cbn [bind]. eexists. split; [reflexivity|].
  split; [cbn [length]; lia|].
  constructor; [split; assumption|exact HF].
Qed.

Lemma mapM_combine_Forall2 (A B : Type) (f : nat * A -> Exc B)
    (R : A -> B -> Prop) (l : list A) :
  forall start : nat,
    (forall i x, In x l -> exists y, f (i, x) = Some y /\ R x y) ->
    exists r, mapM f (combine (seq start (length l)) l) = Some r /\ Forall2 R l r.
Proof.
  induction l as [|x l IH]; intros start H.
  - exists []. split; [reflexivity|constructor].
  - destruct (H start x (or_introl eq_refl)) as (y & Hy & Hr).
    destruct (IH (S start)) as (r & Hm & HF);
      [intros; apply H; right; assumption|].
    exists (y :: r). split; [|constructor; assumption].
    cbn [length seq combine mapM]. rewrite Hy. cbn [bind]. fold (mapM f).
    rewrite Hm. reflexivity.
Qed.

(** [addSubmobjects] on a node that has submobjects. *)
Lemma addSubmobjects_groups pr st fi lw vs c subs (n : nat) :
  Forall WellFormed subs -> subs <> [] ->
  exists groups,
    Group.addSubmobjects env (TwoGroup pr st fi lw (TwoPath vs c :: subs)) n
    = Some (TwoGroup pr st fi lw (TwoPath vs c :: concat groups)) /\
    length (concat groups) = (length subs + n)%nat /\
    Forall2 (fun sub group =>
               (1 <= length group)%nat /\
               Forall (fun copy => SameFrame sub copy /\
                                   (KeepsStyle sub -> ColoursReadFrom sub copy)) group)
            subs groups.
Proof.
  intros Hsubs Hne. unfold Group.addSubmobjects.
  cbn [Group.submobjects Group.getChildren bind tl].
  destruct (Nat.eqb_spec (length subs) 0) as [E|E].
  { destruct subs; [congruence|discriminate]. }
  set (sfs := Group.splitFactors (length subs) (length subs + n)).
  destruct (@mapM_combine_Forall2 _ _
              (fun isub : nat * Shape =>
                 Group.copiesOf env (snd isub) (nth (fst isub) sfs 0%nat))
              (fun sub group =>
                 (1 <= length group)%nat /\
                 Forall (fun copy => SameFrame sub copy /\
                                     (KeepsStyle sub -> ColoursReadFrom sub copy)) group)
              subs 0%nat) as (groups & Hg & HF).
  { intros i x Hin. cbn [fst snd]. rewrite Forall_forall in Hsubs.
    destruct (@copiesOf_same x (nth i sfs 0%nat) (Hsubs x Hin)) as (l & Hl & Hlen & Hall).
    exists l. repeat split; assumption. }
  exists groups. rewrite Hg. cbn [bind Group.setSubmobjects Group.add app].
  split; [reflexivity|]. split; [|exact HF].
  apply (@copies_total env subs n groups); [lia|exact Hg].
Qed.

End CloneStyle.

(** X6: on a node of a class that keeps its style, [getStyleDict]
    after [applyStyle(style)] reads the colours of [style] (those of
    the node for keys left out), whatever alpha a colour of [style]
    carries: the colour read back has the alpha of the opacity.  An
    opacity goes through the byte of the hex string: what is read back
    is a number of hundredths, within a hundredth of an opacity given
    between 0 and 1, and for a key left out it is what [getStyleDict]
    read before.  The setters hand the new stroke, fill and line width
    to the children: every child that is a mobject reads the same
    style afterwards. *)
Theorem applyStyle_then_getStyleDict :
  forall (style : StylePatch) pr st fi lw cs,
    Group.propagates pr = false ->
    exists m' s' cs',
      Group.applyStyle style (TwoGroup pr st fi lw cs) = Some m' /\
      Group.getStyleDict m' = Some s' /\
      strokeColor s' = (fst (orElse (setStrokeColor style) st), strokeOpacity s') /\
      fillColor s' = (fst (orElse (setFillColor style) fi), fillOpacity s') /\
      (setStrokeOpacity style = None -> strokeOpacity s' = hexAlpha st) /\
      (setFillOpacity style = None -> fillOpacity s' = hexAlpha fi) /\
      (exists k : Z, (0 <= k <= 100)%Z /\ strokeOpacity s' == inject_Z k / 100) /\
      (exists k : Z, (0 <= k <= 100)%Z /\ fillOpacity s' == inject_Z k / 100) /\
      (forall a : Q, setStrokeOpacity style = Some a -> 0 <= a -> a <= 1 ->
         a - (1 # 100) <= strokeOpacity s' /\ strokeOpacity s' <= a + (1 # 100)) /\
      (forall a : Q, setFillOpacity style = Some a -> 0 <= a -> a <= 1 ->
         a - (1 # 100) <= fillOpacity s' /\ fillOpacity s' <= a + (1 # 100)) /\
      strokeWidth s' = orElse (setStrokeWidth style) (lw * 100) / 100 * 100 /\
      Group.getChildren m' = Some cs' /\ length cs' = length cs /\
      (forall pr0 st0 fi0 lw0 cs0,
         In (TwoGroup pr0 st0 fi0 lw0 cs0) cs' ->
         Group.getStyleDict (TwoGroup pr0 st0 fi0 lw0 cs0) = Some s').
Proof.
  intros style pr st fi lw cs Hp.
  rewrite applyStyle_own by exact Hp.
  eexists. eexists. eexists. split; [reflexivity|].
  unfold Group.restyle, Group.strokeOf, Group.fillOf, Group.linewidthOf, assign,
    Group.styleOf.
  cbn [Group.paint Group.getStyleDict Group.getChildren].
  unfold Group.styleOf, hexAlpha.
  cbn [strokeColor strokeOpacity fillColor fillOpacity strokeWidth fst snd].
  split; [reflexivity|].
  split; [destruct (setStrokeColor style); reflexivity|].
  split; [destruct (setFillColor style); reflexivity|].
  split.
  { intros ->. cbn [orElse]. apply byteAlpha_stable. apply alphaByte_range. }
  split.
  { intros ->. cbn [orElse]. apply byteAlpha_stable. apply alphaByte_range. }
  split; [apply byteAlpha_hundredths|]. split; [apply byteAlpha_hundredths|].
  split.
  { intros a -> H0 H1. cbn [orElse]. apply byteAlpha_close; assumption. }
  split.
  { intros a -> H0 H1. cbn [orElse]. apply byteAlpha_close; assumption. }
  split; [reflexivity|]. split; [reflexivity|]. split; [apply length_map|].
  intros pr0 st0 fi0 lw0 cs0 Hin. apply in_map_iff in Hin.
  destruct Hin as ([vs0 c0|pr1 st1 fi1 lw1 cs1] & E & _); [discriminate|].
  cbn [Group.paint] in E. injection E as <- <- <- <- <-. reflexivity.
Qed.

Lemma applyStyle_then_getStyleDict_witness :
  exists m' s',
    Group.applyStyle (mkPatch (Some (255%N, 0)) None None (Some (1 # 3)) None)
      (TwoGroup PMobject (16777215%N, 1) (0%N, 0) (4 / 100)
         [TwoPath [] false; Examples.tinted; Examples.segment]) = Some m' /\
    Group.getStyleDict m' = Some s' /\
    strokeColor s' = (255%N, 1) /\ strokeOpacity s' = 1 /\
    fillColor s' = (0%N, 33 # 100) /\ fillOpacity s' = 33 # 100 /\
    (1 # 3) - (1 # 100) <= fillOpacity s' /\ fillOpacity s' <= (1 # 3) + (1 # 100) /\
    exists tinted' segment',
      Group.getChildren m' = Some [TwoPath [] false; tinted'; segment'] /\
      Group.getStyleDict tinted' = Some s' /\
      Group.getStyleDict segment' = Some s'.
Proof.
  destruct (@applyStyle_then_getStyleDict
              (mkPatch (Some (255%N, 0)) None None (Some (1 # 3)) None)
              PMobject (16777215%N, 1) (0%N, 0) (4 / 100)
              [TwoPath [] false; Examples.tinted; Examples.segment]
              eq_refl)
    as (m' & s' & cs' & H1 & H2 & H3 & H4 & H5 & _ & _ & _ & _ & H6 & _
        & Hc & Hl & Hk).
  destruct (H6 (1 # 3) eq_refl ltac:(discriminate) ltac:(discriminate)) as (H7 & H8).
  exists m', s'. split; [exact H1|]. split; [exact H2|].
  assert (Hcs : exists tinted' segment',
             cs' = [TwoPath [] false; tinted'; segment'] /\
             In tinted' cs' /\ In segment' cs' /\
             (exists p1 s1 f1 l1 c1, tinted' = TwoGroup p1 s1 f1 l1 c1) /\
             (exists p2 s2 f2 l2 c2, segment' = TwoGroup p2 s2 f2 l2 c2)).
  { vm_compute in H1. injection H1 as <-. cbn [Group.getChildren] in Hc.
    injection Hc as <-. eexists. eexists. split; [reflexivity|].
    split; [right; left; reflexivity|]. split; [right; right; left; reflexivity|].
    split; repeat eexists. }
  destruct Hcs as (tinted' & segment' & -> & Hi1 & Hi2
                   & (p1 & s1 & f1 & l1 & c1 & ->) & (p2 & s2 & f2 & l2 & c2 & ->)).
  pose proof (Hk _ _ _ _ _ Hi1) as Hk1. pose proof (Hk _ _ _ _ _ Hi2) as Hk2.
  vm_compute in H1. injection H1 as <-. vm_compute in H2. injection H2 as <-.
  split; [reflexivity|]. split; [reflexivity|]. split; [reflexivity|].
  split; [reflexivity|]. split; [exact H7|]. split; [exact H8|].
  eexists. eexists. split; [exact Hc|]. split; [exact Hk1|exact Hk2].
Defined.

(** X7: the clone of a well-formed node has the class its [clone]
    method builds, which hands styles on to submobjects exactly when
    the class of the original does, and as many children; for a class
    that keeps its style the clone has the colours of the original,
    each with the alpha read from the byte of its hex string, and the
    line width [linewidth * 100 / 100]. *)
Theorem clone_class_and_own_style :
  forall (env : Group.Env) pr st fi lw vs c subs,
    Forall WellFormed subs ->
    exists pr' st' fi' lw' subs',
      Group.clone env (TwoGroup pr st fi lw (TwoPath vs c :: subs))
      = Some (TwoGroup pr' st' fi' lw' (TwoPath vs c :: subs')) /\
      pr' = Group.cloneProto pr /\
      Group.propagates pr' = Group.propagates pr /\
      length subs' = length subs /\
      (Group.propagates pr = false ->
       st' = (fst st, hexAlpha st) /\ fi' = (fst fi, hexAlpha fi) /\
       lw' = lw * 100 / 100).
Proof.
  intros env pr st fi lw vs c subs Hsubs.
  destruct (clone_own env pr st fi lw vs c Hsubs) as (subs' & HF & Hc).
  rewrite Hc, cloneStyled_propagates.
  assert (Hlen : length subs' = length subs)
    by (symmetry; eapply Forall2_length; eassumption).
  destruct (Group.propagates pr) eqn:Hp; cbn [negb];
    do 5 eexists; (split; [reflexivity|]);
    (split; [reflexivity|]);
    (split; [rewrite cloneProto_propagates; exact Hp|]);
    (split; [exact Hlen|]).
  - discriminate.
  - intros _. repeat split.
Qed.

Lemma clone_class_and_own_style_witness :
  exists pr' st' fi' lw' subs',
    Group.clone Examples.env0
      (TwoGroup PRectangle (255%N, 1 # 3) (0%N, 1) 4
         [TwoPath [Examples.corner 0 0] false; Examples.segment])
    = Some (TwoGroup pr' st' fi' lw' (TwoPath [Examples.corner 0 0] false :: subs')) /\
    pr' = PMobject /\
    Group.propagates pr' = false /\
    length subs' = 1%nat /\
    (Group.propagates PRectangle = false ->
     st' = (255%N, 33 # 100) /\ fi' = (0%N, 1) /\ lw' = 4 * 100 / 100).
Proof.
  apply (@clone_class_and_own_style Examples.env0 PRectangle (255%N, 1 # 3) (0%N, 1) 4
           [Examples.corner 0 0] false [Examples.segment]).
  repeat constructor.
Defined.

(** X8: [addSubmobjects(n)] on a node that has submobjects puts
    [n] more in their place: every former submobject is replaced, at
    its place in the order, by one or more copies with the same path. *)
Theorem addSubmobjects_duplicates_in_order :
  forall (env : Group.Env) pr st fi lw vs c subs (n : nat),
    Forall WellFormed subs -> subs <> [] ->
    exists groups,
      Group.addSubmobjects env (TwoGroup pr st fi lw (TwoPath vs c :: subs)) n
      = Some (TwoGroup pr st fi lw (TwoPath vs c :: concat groups)) /\
      length (concat groups) = (length subs + n)%nat /\
      Forall2 (fun sub group =>
                 (1 <= length group)%nat /\
                 Forall (fun copy => WellFormed copy /\
                                     Group.points copy = Group.points sub) group)
              subs groups.
Proof.
  intros env pr st fi lw vs c subs n Hsubs Hne.
  destruct (addSubmobjects_groups env pr st fi lw vs c n Hsubs Hne)
    as (groups & Ha & Hlen & HF).
  exists groups. split; [exact Ha|]. split; [exact Hlen|].
  revert HF. apply Forall2_impl. intros sub group (H1 & Hall).
  split; [exact H1|]. revert Hall. apply Forall_impl.
  intros copy (Hsf & _). split; [eapply SameFrame_wf; eassumption|].
  destruct Hsf as (? & ? & ? & ? & ? & ? & ? & ? & ? & ? & ? & ? & -> & -> & _).
  reflexivity.
Qed.

Lemma addSubmobjects_duplicates_in_order_witness :
  exists groups,
    Group.addSubmobjects Examples.env0 Examples.pair 3
    = Some (TwoGroup PMobject (16777215%N, 1) (0%N, 0) (4 / 100)
              (TwoPath [] false :: concat groups)) /\
    length (concat groups) = 5%nat /\
    Forall2 (fun sub group =>
               (1 <= length group)%nat /\
               Forall (fun copy => WellFormed copy /\
                                   Group.points copy = Group.points sub) group)
            [Examples.triangle; Examples.segment] groups.
Proof.
  apply (@addSubmobjects_duplicates_in_order Examples.env0
           PMobject (16777215%N, 1) (0%N, 0) (4 / 100) [] false
           [Examples.triangle; Examples.segment] 3).
  - repeat constructor.
  - discriminate.
Defined.

(** X9: the alpha 0 that [addSubmobjects] puts into the colours of
    the extra copies does not arrive: every new submobject copies a
    former one and, when the class of that one keeps its style, has
    its colours with the alpha [getStyleDict] reads from it (the alpha
    of the hex byte), the extra copies like the plain clone. *)
Theorem addSubmobjects_copies_keep_colours :
  forall (env : Group.Env) pr st fi lw vs c subs (n : nat) (m' : Shape),
    Forall WellFormed subs -> Forall KeepsStyle subs -> subs <> [] ->
    Group.addSubmobjects env (TwoGroup pr st fi lw (TwoPath vs c :: subs)) n
    = Some m' ->
    exists subs',
      Group.submobjects m' = Some subs' /\
      Forall (fun copy => exists sub, In sub subs /\ ColoursReadFrom sub copy) subs'.
Proof.
  intros env pr st fi lw vs c subs n m' Hsubs Hk Hne Ha.
  destruct (addSubmobjects_groups env pr st fi lw vs c n Hsubs Hne)
    as (groups & Ha' & _ & HF).
  rewrite Ha' in Ha. injection Ha as <-.
  exists (concat groups). split; [reflexivity|].
  clear Ha' Hne Hsubs. induction HF as [|sub group subs groups (_ & Hall) _ IH].
  - constructor.
  - inversion Hk as [|? ? Hks Hkr]; subst.
    cbn [concat]. apply Forall_app. split.
    + revert Hall. apply Forall_impl. intros copy (_ & Hc).
      exists sub. split; [left; reflexivity|apply Hc; exact Hks].
    + specialize (IH Hkr). revert IH. apply Forall_impl.
      intros copy (s & Hin & Hs). exists s. split; [right; exact Hin|exact Hs].
Qed.

Lemma addSubmobjects_copies_keep_colours_witness :
  exists m' subs',
    Group.addSubmobjects Examples.env0
      (TwoGroup PMobject (16777215%N, 1) (0%N, 0) (4 / 100)
         [TwoPath [] false; Examples.tinted; Examples.segment]) 3 = Some m' /\
    Group.submobjects m' = Some subs' /\
    Forall (fun copy => exists sub,
              In sub [Examples.tinted; Examples.segment] /\ ColoursReadFrom sub copy)
           subs'.
Proof.
  eexists.
  assert (E : Group.addSubmobjects Examples.env0
                (TwoGroup PMobject (16777215%N, 1) (0%N, 0) (4 / 100)
                   [TwoPath [] false; Examples.tinted; Examples.segment]) 3 = Some _)
    by (vm_compute; reflexivity).
  destruct (@addSubmobjects_copies_keep_colours Examples.env0
              PMobject (16777215%N, 1) (0%N, 0) (4 / 100) [] false
              [Examples.tinted; Examples.segment] 3 _
              ltac:(repeat constructor) ltac:(repeat constructor)
              ltac:(discriminate) E) as (subs' & Hs & Hall).
  exists subs'. repeat split; assumption.
Defined.

(** ** The defaults of Write over a mobject *)

Lemma getMobjectHeirarchy_length (m : Shape) (h : list Shape) :
  Group.getMobjectHeirarchy m = Some h -> (1 <= length h)%nat.
Proof.
  destruct m as [vs c|pr st fi lw cs]; [discriminate|].
  cbn [Group.getMobjectHeirarchy]. destruct cs as [|c0 subs].
  - intro H. injection H as <-. cbn [length]. lia.
  - intro H. inv_bind H. injection H as <-. cbn [length]. lia.
Qed.

(** X10: the hierarchy of a mobject holds the mobject itself, so a
    [Write] built over it without runtime and lag ratio gets the
    runtime 1, never 2, and the lag ratio min(4 / length, 0.2): 0.2 up
    to 20 members, 4 / length from 20 on. *)
Theorem write_defaults_over_a_mobject :
  forall (m : Shape) (h : list Shape),
    Group.getMobjectHeirarchy m = Some h ->
    (1 <= length h)%nat /\
    exists q : Q,
      Write.construct (length h) None None
      = Write.mkConfig (Some (Fin 1)) (Some (Fin q)) /\
      0 < q /\ q <= 2 # 10 /\
      ((length h <= 20)%nat -> q == 2 # 10) /\
      ((20 <= length h)%nat -> q == 4 / inject_Z (Z.of_nat (length h))).
Proof.
  intros m h Hh. pose proof (getMobjectHeirarchy_length _ Hh) as Hlen.
  split; [exact Hlen|].
  set (n := length h) in *.
  set (x := inject_Z (Z.of_nat n)).
  assert (Hx : 1 <= x).
  { unfold x. change 1 with (inject_Z 1). rewrite <- Zle_Qle. lia. }
  assert (Hx0 : ~ x == 0) by lra.
  assert (Hq : 4 / x * x == 4) by (field; exact Hx0).
  unfold Write.construct, Write.setConfigFromLength.
  cbn [Write.runtime Write.lagRatio].
  destruct (Nat.eqb_spec n 0) as [E|_]; [lia|]. cbn [negb Write.lagRatio Write.runtime].
  unfold num_div. fold x.
  destruct (Qeq_bool x 0) eqn:E0; [apply Qeq_bool_iff in E0; contradiction|].
  cbn [Math_min].
  destruct (Qleb (4 / x) (2 # 10)) eqn:E.
  - apply Qleb_true in E. exists (4 / x). split; [reflexivity|].
    assert (H20 : 20 <= x) by nra.
    split; [nra|]. split; [exact E|]. split.
    + intro Hn. assert (Hx20 : x <= 20).
      { unfold x. change 20 with (inject_Z 20). rewrite <- Zle_Qle. lia. }
      nra.
    + intros _. reflexivity.
  - apply Qleb_false in E. exists (2 # 10). split; [reflexivity|].
    assert (H20 : x < 20) by nra.
    split; [lra|]. split; [lra|]. split.
    + intros _. reflexivity.
    + intro Hn. exfalso.
      assert (Hx20 : 20 <= x).
      { unfold x. change 20 with (inject_Z 20). rewrite <- Zle_Qle. lia. }
      lra.
Qed.

Lemma write_defaults_over_a_mobject_witness :
  exists h,
    Group.getMobjectHeirarchy Examples.pair = Some h /\
    (1 <= length h)%nat /\
    exists q : Q,
      Write.construct (length h) None None
      = Write.mkConfig (Some (Fin 1)) (Some (Fin q)) /\
      0 < q /\ q <= 2 # 10 /\
      ((length h <= 20)%nat -> q == 2 # 10) /\
      ((20 <= length h)%nat -> q == 4 / inject_Z (Z.of_nat (length h))).
Proof.
  eexists. split; [vm_compute; reflexivity|].
  apply (@write_defaults_over_a_mobject Examples.pair). vm_compute. reflexivity.
Defined.

(** ** The bounding box *)

Lemma fold_left_Qmin_le (r : list Q) :
  forall x : Q,
    fold_left Qmin r x <= x /\ forall y, In y r -> fold_left Qmin r x <= y.
Proof.
  induction r as [|a r IH]; intro x; cbn [fold_left].
  - split; [apply Qle_refl|intros y []].
  - destruct (IH (Qmin x a)) as (H1 & H2). split.
    + eapply Qle_trans; [exact H1|apply Q.le_min_l].
    + intros y [<-|Hy]; [|apply H2; exact Hy].
      eapply Qle_trans; [exact H1|apply Q.le_min_r].
Qed.

Lemma fold_left_Qmax_ge (r : list Q) :
  forall x : Q,
    x <= fold_left Qmax r x /\ forall y, In y r -> y <= fold_left Qmax r x.
Proof.
  induction r as [|a r IH]; intro x; cbn [fold_left].
  - split; [apply Qle_refl|intros y []].
  - destruct (IH (Qmax x a)) as (H1 & H2). split.
    + eapply Qle_trans; [apply Q.le_max_l|exact H1].
    + intros y [<-|Hy]; [|apply H2; exact Hy].
      eapply Qle_trans; [apply Q.le_max_r|exact H1].
Qed.

Lemma extent_bounds (l : list Q) (lo hi : Q) :
  Group.extent l = Some (lo, hi) ->
  lo <= hi /\ forall x, In x l -> lo <= x /\ x <= hi.
Proof.
  destruct l as [|x r]; [discriminate|]. cbn [Group.extent].
  intro H. injection H as <- <-.
  destruct (fold_left_Qmin_le r x) as (L1 & L2).
  destruct (fold_left_Qmax_ge r x) as (U1 & U2).
  split; [eapply Qle_trans; eassumption|].
  intros y [<-|Hy]; split; auto.
Qed.

Lemma extent_None (l : list Q) : Group.extent l = None <-> l = [].
Proof. destruct l; split; intro H; try reflexivity; discriminate. Qed.

Lemma fold_left_Qmin_In (r : list Q) :
  forall x : Q, In (fold_left Qmin r x) (x :: r).
Proof.
  induction r as [|a r IH]; intro x; cbn [fold_left]; [left; reflexivity|].
  destruct (IH (Qmin x a)) as [E|Hin]; [|right; right; exact Hin].
  rewrite <- E. unfold Qmin, GenericMinMax.gmin.
  destruct (Qcompare x a); [left|left|right; left]; reflexivity.
Qed.

Lemma fold_left_Qmax_In (r : list Q) :
  forall x : Q, In (fold_left Qmax r x) (x :: r).
Proof.
  induction r as [|a r IH]; intro x; cbn [fold_left]; [left; reflexivity|].
  destruct (IH (Qmax x a)) as [E|Hin]; [|right; right; exact Hin].
  rewrite <- E. unfold Qmax, GenericMinMax.gmax.
  destruct (Qcompare x a); [left|right; left|left]; reflexivity.
Qed.

Lemma extent_attained (l : list Q) (lo hi : Q) :
  Group.extent l = Some (lo, hi) -> In lo l /\ In hi l.
Proof.
  destruct l as [|x r]; [discriminate|]. cbn [Group.extent].
  intro H. injection H as <- <-.
  split; [apply fold_left_Qmin_In|apply fold_left_Qmax_In].
Qed.

(** X11: the numbers [getDimensions] returns come from the four
    extremes of the positions in the hierarchy: each extreme is a
    coordinate of some anchor and every anchor lies between them;
    [width] and [height] are their differences, not negative;
    [center] is the mean of the extremes, [topLeft] and [bottomRight]
    are [center] minus and plus half the width and height, and the
    other two corners share their coordinates. *)
Theorem getDimensions_spans_the_points :
  forall (m : Shape) (d : Group.Dimensions),
    Group.getDimensions m = Some (Some d) ->
    exists (h : list Shape) (all : list (list Anchor)) (xMin xMax yMin yMax : Q),
      Group.getMobjectHeirarchy m = Some h /\
      mapM Group.points h = Some all /\
      (exists a, In a (concat all) /\ fst (pos a) = xMin) /\
      (exists a, In a (concat all) /\ fst (pos a) = xMax) /\
      (exists a, In a (concat all) /\ snd (pos a) = yMin) /\
      (exists a, In a (concat all) /\ snd (pos a) = yMax) /\
      (forall a : Anchor, In a (concat all) ->
         xMin <= fst (pos a) <= xMax /\ yMin <= snd (pos a) <= yMax) /\
      Group.width d = xMax - xMin /\ Group.height d = yMax - yMin /\
      0 <= Group.width d /\ 0 <= Group.height d /\
      Group.center d = ((xMax + xMin) / 2, (yMax + yMin) / 2) /\
      Group.topLeft d
      = (fst (Group.center d) + - Group.width d / 2,
         snd (Group.center d) + - Group.height d / 2) /\
      Group.bottomRight d
      = (fst (Group.center d) + Group.width d / 2,
         snd (Group.center d) + Group.height d / 2) /\
      Group.topRight d = (fst (Group.bottomRight d), snd (Group.topLeft d)) /\
      Group.bottomLeft d = (fst (Group.topLeft d), snd (Group.bottomRight d)).
Proof.
  intros m d H. unfold Group.getDimensions in H.
  inv_bind H. rename a into h. inv_bind H. rename a into all.
  destruct (Group.extent (map fst (map pos (concat all)))) as [[xMin xMax]|] eqn:Ex;
    [|discriminate].
  destruct (Group.extent (map snd (map pos (concat all)))) as [[yMin yMax]|] eqn:Ey;
    [|discriminate].
  injection H as <-.
  destruct (extent_bounds _ Ex) as (Hx & Hxs).
  destruct (extent_bounds _ Ey) as (Hy & Hys).
  destruct (extent_attained _ Ex) as (Ax1 & Ax2).
  destruct (extent_attained _ Ey) as (Ay1 & Ay2).
  assert (Hat : forall (f : Vec -> Q) (v : Q),
             In v (map f (map pos (concat all))) ->
             exists a, In a (concat all) /\ f (pos a) = v).
  { intros f v Hin. rewrite map_map in Hin. apply in_map_iff in Hin.
    destruct Hin as (a & E & Hin). exists a. split; assumption. }
  exists h, all, xMin, xMax, yMin, yMax.
  cbn [Group.width Group.height Group.topLeft Group.topRight Group.bottomRight
       Group.bottomLeft Group.center fst snd].
  split; [assumption|]. split; [assumption|].
  split; [apply (Hat fst); exact Ax1|]. split; [apply (Hat fst); exact Ax2|].
  split; [apply (Hat snd); exact Ay1|]. split; [apply (Hat snd); exact Ay2|].
  split.
  { intros p Hin.
    assert (Hax : In (fst (pos p)) (map fst (map pos (concat all))))
      by (apply in_map, in_map; exact Hin).
    assert (Hay : In (snd (pos p)) (map snd (map pos (concat all))))
      by (apply in_map, in_map; exact Hin).
    destruct (Hxs _ Hax) as (X1 & X2). destruct (Hys _ Hay) as (Y1 & Y2).
    split; split; assumption. }
  split; [reflexivity|]. split; [reflexivity|].
  split; [lra|]. split; [lra|].
  repeat split.
Qed.

Lemma getDimensions_spans_the_points_witness :
  exists d : Group.Dimensions,
    Group.getDimensions Examples.pair = Some (Some d) /\
    Group.width d = inject_Z 4 - inject_Z 0 /\
    Group.height d = inject_Z 4 - inject_Z 0 /\
    0 <= Group.width d /\ 0 <= Group.height d.
Proof.
  destruct (Group.getDimensions Examples.pair) as [[d|]|] eqn:E;
    [|vm_compute in E; discriminate|vm_compute in E; discriminate].
  destruct (@getDimensions_spans_the_points Examples.pair d E)
    as (h & all & xMin & xMax & yMin & yMax & _ & _ & _ & _ & _ & _ & _
        & _ & _ & H1 & H2 & _).
  exists d. split; [reflexivity|].
  split; [|split; [|split; assumption]];
    vm_compute in E; injection E as <-; reflexivity.
Defined.

(** X12: [getDimensions] returns [null] exactly when no member of the
    hierarchy has a point.  [getPointCenter] agrees with its [center]
    on a node that has points of its own, and returns [0, 0] on a node
    that has none, whatever its submobjects hold. *)
Theorem getPointCenter_and_getDimensions :
  forall (m : Shape) (h : list Shape) (all : list (list Anchor))
         (pts : list Anchor),
    Group.getMobjectHeirarchy m = Some h ->
    mapM Group.points h = Some all ->
    Group.points m = Some pts ->
    (Group.getDimensions m = Some None <-> concat all = []) /\
    (pts = [] -> Group.getPointCenter m = Some (0, 0)) /\
    (pts <> [] ->
     exists d : Group.Dimensions,
       Group.getDimensions m = Some (Some d) /\
       Group.getPointCenter m = Some (Group.center d)).
Proof.
  intros m h all pts Hh Hall Hp.
  unfold Group.getDimensions, Group.getPointCenter.
  rewrite Hh, Hp. cbn [bind]. rewrite Hall. cbn [bind].
  assert (Hhead : pts <> [] -> concat all <> []).
  { intro Hne. destruct m as [vs c|pr st fi lw cs]; [discriminate|].
    cbn [Group.getMobjectHeirarchy] in Hh.
    assert (exists rest, h = TwoGroup pr st fi lw cs :: rest) as (rest & ->).
    { destruct cs; [injection Hh as <-; eexists; reflexivity|].
      inv_bind Hh. injection Hh as <-. eexists; reflexivity. }
    cbn [mapM] in Hall. rewrite Hp in Hall. cbn [bind] in Hall.
    inv_bind Hall. injection Hall as <-. cbn [concat].
    destruct pts; [congruence|discriminate]. }
  destruct (concat all) as [|a rest] eqn:Ec.
  - cbn [map Group.extent]. split; [split; reflexivity|]. split.
    + intros ->. reflexivity.
    + intro Hne. exfalso. apply (Hhead Hne). reflexivity.
  - cbn [map Group.extent]. split; [split; intro; discriminate|]. split.
    + intros ->. reflexivity.
    + intro Hne. destruct pts as [|p pts]; [congruence|].
      cbn [length Nat.eqb]. eexists. split; reflexivity.
Qed.

Lemma getPointCenter_and_getDimensions_witness :
  (Group.getDimensions Examples.pair = Some None <->
   concat [[]; [Examples.corner 0 0; Examples.corner 4 0; Examples.corner 0 4;
                Examples.corner 0 0];
           [Examples.corner 1 1; Examples.corner 2 3]] = []) /\
  Group.getPointCenter Examples.pair = Some (0, 0).
Proof.
  destruct (@getPointCenter_and_getDimensions Examples.pair
              [Examples.pair; Examples.triangle; Examples.segment]
              [[]; [Examples.corner 0 0; Examples.corner 4 0; Examples.corner 0 4;
                    Examples.corner 0 0];
               [Examples.corner 1 1; Examples.corner 2 3]]
              [] eq_refl eq_refl eq_refl) as (H1 & H2 & _).
  split; [exact H1|apply H2; reflexivity].
Defined.

(** ** The anchors of setAnchorsFromPoints *)

Lemma last_cons_default (A : Type) (z : A) (zs : list A) (d d' : A) :
  last (z :: zs) d = last (z :: zs) d'.
Proof.
  revert z. induction zs as [|y zs IH]; intro z; [reflexivity|].
  change (last (y :: zs) d = last (y :: zs) d'). apply IH.
Qed.

(** The filling loop of [setAnchorsFromPoints] from anchor [a] on,
    over [k] segments. *)
Lemma fillAnchors_layout (k : nat) :
  forall (points : list Vec) (pre : list Anchor) (a : Anchor) (zs : list Anchor),
    length points = (4 * k)%nat -> length zs = k ->
    exists body : list Anchor,
      Group.fillAnchors points (length pre) (pre ++ a :: zs) = Some (pre ++ body) /\
      length body = S k /\
      map command body = map command (a :: zs) /\
      map relative body = map relative (a :: zs) /\
      (exists x, nth_error body 0 = Some x /\ controlsLeft x = controlsLeft a) /\
      (exists y, nth_error body k = Some y /\
                 controlsRight y = controlsRight (last zs a) /\
                 (k = 0%nat -> y = a) /\
                 (forall j, k = S j -> nth_error points (4 * j + 3) = Some (pos y))) /\
      (forall i, (i < k)%nat ->
         exists x y,
           nth_error body i = Some x /\ nth_error body (S i) = Some y /\
           nth_error points (4 * i) = Some (pos x) /\
           nth_error points (4 * i + 1) = Some (controlsRight x) /\
           nth_error points (4 * i + 2) = Some (controlsLeft y)).
Proof.
  induction k as [|k IH]; intros points pre a zs Hlen Hzs.
  - destruct points; [|simpl in Hlen; lia]. destruct zs; [|discriminate].
    exists [a]. cbn [Group.fillAnchors]. repeat split; try reflexivity.
    + exists a. split; reflexivity.
    + exists a. repeat split; try reflexivity. intros j Hj. discriminate.
    + intros i Hi. lia.
  - destruct points as [|p0 [|p1 [|p2 [|p3 rest]]]]; simpl in Hlen; try lia.
    destruct zs as [|z zs]; [discriminate|].
    cbn [Group.fillAnchors].
    rewrite update_app_here, update_app_next.
    set (a' := mkAnchor p0 (controlsLeft a) p1 (command a) (relative a)).
    set (z' := mkAnchor p3 p2 (controlsRight z) (command z) (relative z)).
    destruct (IH rest (pre ++ [a']) z' zs) as
      (body & Hf & Hl & Hc & Hr & (x0 & Hx0 & Hx0l) & (y & Hy & Hyr & Hy0 & Hyp) & Hall);
      [lia|simpl in Hzs; lia|].
    exists (a' :: body).
    split.
    { replace (S (length pre)) with (length (pre ++ [a']))
        by (rewrite length_app; simpl; lia).
      replace (pre ++ a' :: z' :: zs) with ((pre ++ [a']) ++ z' :: zs)
        by (rewrite <- app_assoc; reflexivity).
      rewrite Hf, <- app_assoc. reflexivity. }
    split; [simpl; rewrite Hl; reflexivity|].
    split; [cbn [map]; rewrite Hc; reflexivity|].
    split; [cbn [map]; rewrite Hr; reflexivity|].
    split; [exists a'; split; reflexivity|].
    split.
    { exists y. cbn [nth_error]. split; [exact Hy|]. split.
      - rewrite Hyr. destruct zs as [|z1 zs]; [reflexivity|].
        change (last (z :: z1 :: zs) a) with (last (z1 :: zs) a).
        f_equal. apply last_cons_default.
      - split; [discriminate|]. intros j Hj. injection Hj as <-.
        destruct k as [|k'].
        + rewrite (Hy0 eq_refl). reflexivity.
        + replace (4 * S k' + 3)%nat with (S (S (S (S (4 * k' + 3))))) by lia.
          cbn [nth_error]. apply Hyp. reflexivity. }
    intros i Hi. destruct i as [|i].
    + exists a', x0. cbn [nth_error]. repeat split; try reflexivity; try exact Hx0.
      cbn. rewrite Hx0l. reflexivity.
    + destruct (Hall i ltac:(lia)) as (x & y' & H1 & H2 & H3 & H4 & H5).
      exists x, y'. cbn [nth_error]. split; [exact H1|]. split; [exact H2|].
      replace (4 * S i)%nat with (S (S (S (S (4 * i))))) by lia.
      cbn [nth_error Nat.add]. repeat split; assumption.
Qed.

Lemma fillAnchors_partial (rest : list Vec) :
  forall (k : nat) (anchors : list Anchor),
    (length rest mod 4 <> 0)%nat -> Group.fillAnchors rest k anchors = None.
Proof.
  assert (H : forall (n : nat) (rest : list Vec),
             (length rest <= n)%nat ->
             forall (k : nat) (anchors : list Anchor),
               (length rest mod 4 <> 0)%nat ->
               Group.fillAnchors rest k anchors = None).
  { induction n as [|n IH]; intros l Hn k anchors Hm.
    - destruct l; [exfalso; apply Hm; reflexivity|simpl in Hn; lia].
    - destruct l as [|p0 [|p1 [|p2 [|p3 rest']]]]; try reflexivity.
      + exfalso. apply Hm. reflexivity.
      + cbn [Group.fillAnchors]. apply IH.
        * simpl in Hn. lia.
        * intro E. apply Hm. cbn [length].
          replace (S (S (S (S (length rest'))))) with (length rest' + 1 * 4)%nat by lia.
          rewrite Nat.Div0.mod_add. exact E. }
  intros k anchors. apply (H (length rest)). lia.
Qed.

(** X13: [setAnchorsFromPoints] on a node with a path returns exactly
    when the points come in whole segments of four; a shorter last
    segment is read past its end. *)
Theorem setAnchorsFromPoints_whole_segments :
  forall pr st fi lw pts c subs (points : list Vec),
    (exists m',
       Group.setAnchorsFromPoints (TwoGroup pr st fi lw (TwoPath pts c :: subs)) points
       = Some m') <->
    (length points mod 4 = 0)%nat.
Proof.
  intros pr st fi lw pts c subs points. split.
  - intros (m' & H).
    destruct (Nat.eq_dec (length points mod 4) 0) as [E|E]; [exact E|].
    unfold Group.setAnchorsFromPoints, Group.anchorsFromPoints in H.
    rewrite fillAnchors_partial in H by exact E. discriminate.
  - intro E.
    destruct (@setAnchorsFromPoints_node pr st fi lw pts c subs points
                (length points / 4)) as (anchors & H & _).
    { pose proof (Nat.div_mod_eq (length points) 4). lia. }
    eexists. exact H.
Qed.

(** X14: the anchors [setAnchorsFromPoints] builds from [k] segments:
    [k + 1] of them, all with command C and not relative; anchor [i]
    sits on the first point of segment [i] with the second as right
    control, the third point is the left control of anchor [i + 1],
    and only the last segment gives its fourth point, to the last
    anchor.  The left control of the first anchor and the right control
    of the last stay at the origin; the submobjects are untouched. *)
Theorem setAnchorsFromPoints_layout :
  forall (m m' : Shape) (points : list Vec),
    Group.setAnchorsFromPoints m points = Some m' ->
    exists (k : nat) (anchors : list Anchor),
      length points = (4 * k)%nat /\
      Group.points m' = Some anchors /\ length anchors = S k /\
      Group.submobjects m' = Group.submobjects m /\
      Forall (fun a => command a = CmdCurve /\ relative a = false) anchors /\
      (exists x, nth_error anchors 0 = Some x /\ controlsLeft x = (0, 0)) /\
      (exists y, nth_error anchors k = Some y /\ controlsRight y = (0, 0) /\
                 (k = 0%nat -> pos y = (0, 0)) /\
                 (forall j, k = S j -> nth_error points (4 * j + 3) = Some (pos y))) /\
      (forall i, (i < k)%nat ->
         exists x y,
           nth_error anchors i = Some x /\ nth_error anchors (S i) = Some y /\
           nth_error points (4 * i) = Some (pos x) /\
           nth_error points (4 * i + 1) = Some (controlsRight x) /\
           nth_error points (4 * i + 2) = Some (controlsLeft y)).
Proof.
  intros m m' points H.
  unfold Group.setAnchorsFromPoints in H. inv_bind H. rename a into anchors.
  destruct m as [vs c|pr st fi lw [|[ovs oc|] subs]]; try discriminate.
  cbn [Group.setVertices] in H. injection H as <-.
  unfold Group.anchorsFromPoints in Ha.
  destruct (Nat.eq_dec (length points mod 4) 0) as [E|E];
    [|rewrite fillAnchors_partial in Ha by exact E; discriminate].
  set (k := (length points / 4)%nat).
  assert (Hlen : length points = (4 * k)%nat).
  { pose proof (Nat.div_mod_eq (length points) 4). unfold k. lia. }
  assert (Hrep : ((length points + 3) / 4 + 1 = S k)%nat).
  { rewrite Hlen. replace (4 * k + 3)%nat with (3 + k * 4)%nat by lia.
    rewrite Nat.div_add by lia. simpl. lia. }
  rewrite Hrep in Ha. cbn [repeat] in Ha.
  destruct (@fillAnchors_layout k points [] Group.blankAnchor
              (repeat Group.blankAnchor k) Hlen (repeat_length _ _))
    as (body & Hf & Hl & Hc & Hr & (x & Hx & Hxl) & (y & Hy & Hyr & Hy0 & Hyp) & Hall).
  cbn [app length] in Hf. rewrite Hf in Ha. injection Ha as <-.
  exists k, body. split; [exact Hlen|]. split; [reflexivity|]. split; [exact Hl|].
  split; [reflexivity|]. split.
  { apply Forall_forall. intros a0 Hin.
    assert (Hcmd : In (command a0) (map command body)) by (apply in_map; exact Hin).
    assert (Hrel : In (relative a0) (map relative body)) by (apply in_map; exact Hin).
    rewrite Hc in Hcmd. rewrite Hr in Hrel.
    change (Group.blankAnchor :: repeat Group.blankAnchor k)
      with (repeat Group.blankAnchor (S k)) in Hcmd, Hrel.
    apply in_map_iff in Hcmd. destruct Hcmd as (b & Hb & Hinb).
    apply repeat_spec in Hinb. subst b.
    apply in_map_iff in Hrel. destruct Hrel as (b & Hb' & Hinb).
    apply repeat_spec in Hinb. subst b.
    split; symmetry; assumption. }
  split; [exists x; split; [exact Hx|rewrite Hxl; reflexivity]|].
  split; [|exact Hall].
  exists y. split; [exact Hy|]. split.
  { rewrite Hyr.
    assert (Hlast : forall n, last (repeat Group.blankAnchor n) Group.blankAnchor
                              = Group.blankAnchor).
    { induction n as [|n IHn]; [reflexivity|].
      destruct n; [reflexivity|]. exact IHn. }
    rewrite Hlast. reflexivity. }
  split; [|exact Hyp]. intro Hk. rewrite (Hy0 Hk). reflexivity.
Qed.

Lemma setAnchorsFromPoints_layout_witness :
  exists (m' : Shape) (k : nat) (anchors : list Anchor),
    Group.setAnchorsFromPoints Examples.segment
      [(1, 1); (2, 2); (3, 3); (4, 4); (5, 5); (6, 6); (7, 7); (8, 8)] = Some m' /\
    length [(1, 1); (2, 2); (3, 3); (4, 4); (5, 5); (6, 6); (7, 7); (8, 8)]
    = (4 * k)%nat /\
    Group.points m' = Some anchors /\ length anchors = S k.
Proof.
  eexists.
  destruct (@setAnchorsFromPoints_layout Examples.segment _
              [(1, 1); (2, 2); (3, 3); (4, 4); (5, 5); (6, 6); (7, 7); (8, 8)]
              ltac:(vm_compute; reflexivity))
    as (k & anchors & H1 & H2 & H3 & _).
  exists k, anchors. split; [vm_compute; reflexivity|].
  split; [exact H1|]. split; [exact H2|exact H3].
Defined.

(** ** alignPoints on two paths *)

Section AlignPointsMore.

Variable env : Group.Env.

Lemma seedPoint_nonempty (this : Shape) (pt : list Anchor) pr st fi lw pts c subs :
  Group.points this = Some pt -> (1 <= length pts)%nat ->
  Group.seedPoint env this (TwoGroup pr st fi lw (TwoPath pts c :: subs))
  = Some (TwoGroup pr st fi lw (TwoPath pts c :: subs)).
Proof.
  intros Ht Hl.
  destruct (@seedPoint_node env this pt pr st fi lw pts c subs Ht) as (pts' & Hs & [[H0 _]|[_ ->]]).
  - lia.
  - exact Hs.
Qed.

End AlignPointsMore.

(** X15: [alignPoints] on two paths of at least two points each: both
    end with the point count of the longer one, and the longer one (or
    both, when the counts agree) is left as it is. *)
Theorem alignPoints_grows_shorter_path :
  forall (env : Group.Env) prx stx fix_ lwx px cx sx pry sty fiy lwy py cy sy,
    (2 <= length px)%nat -> (2 <= length py)%nat ->
    exists px' py',
      Group.alignPoints env (TwoGroup prx stx fix_ lwx (TwoPath px cx :: sx))
                            (TwoGroup pry sty fiy lwy (TwoPath py cy :: sy))
      = Some (TwoGroup prx stx fix_ lwx (TwoPath px' cx :: sx),
              TwoGroup pry sty fiy lwy (TwoPath py' cy :: sy)) /\
      length px' = Nat.max (length px) (length py) /\
      length py' = Nat.max (length px) (length py) /\
      ((length py <= length px)%nat -> px' = px) /\
      ((length px <= length py)%nat -> py' = py).
Proof.
  intros env prx stx fix_ lwx px cx sx pry sty fiy lwy py cy sy Hx Hy.
  unfold Group.alignPoints. rewrite !points_node. cbn [bind].
  destruct (Nat.eqb_spec (length px) (length py)) as [E|E].
  { exists px, py. split; [reflexivity|]. repeat split; try reflexivity; lia. }
  rewrite (@seedPoint_nonempty env _ px) by (try apply points_node; lia).
  cbn [bind].
  rewrite (@seedPoint_nonempty env _ px) by (try apply points_node; lia).
  cbn [bind]. rewrite !points_node. cbn [bind].
  destruct (Nat.ltb_spec (length px) (length py)) as [L|L].
  - destruct (@grow_fewer prx stx fix_ lwx px cx sx py)
      as (newPoints & fewer & px' & Hadd & Hset & Hres); [lia|lia|].
    rewrite Hadd. cbn [bind]. rewrite Hset. cbn [bind].
    exists px', py. split; [reflexivity|].
    destruct Hres as [[H1 _]|[_ Hl]]; [lia|].
    repeat split; try reflexivity; lia.
  - destruct (@grow_fewer pry sty fiy lwy py cy sy px)
      as (newPoints & fewer & py' & Hadd & Hset & Hres); [lia|lia|].
    rewrite Hadd. cbn [bind]. rewrite Hset. cbn [bind].
    exists px, py'. split; [reflexivity|].
    destruct Hres as [[H1 _]|[_ Hl]]; [lia|].
    repeat split; try reflexivity; lia.
Qed.

Lemma alignPoints_grows_shorter_path_witness :
  exists px' py',
    Group.alignPoints Examples.env0 Examples.segment Examples.triangle
    = Some (TwoGroup PMobject (16777215%N, 1) (0%N, 0) (4 / 100)
              [TwoPath px' false],
            TwoGroup PMobject (16777215%N, 1) (0%N, 0) (4 / 100)
              [TwoPath py' false]) /\
    length px' = 4%nat /\ length py' = 4%nat.
Proof.
  destruct (@alignPoints_grows_shorter_path Examples.env0
              PMobject (16777215%N, 1) (0%N, 0) (4 / 100)
              [Examples.corner 1 1; Examples.corner 2 3] false []
              PMobject (16777215%N, 1) (0%N, 0) (4 / 100)
              [Examples.corner 0 0; Examples.corner 4 0; Examples.corner 0 4;
               Examples.corner 0 0] false []
              ltac:(simpl; lia) ltac:(simpl; lia))
    as (px' & py' & H & H1 & H2 & _).
  exists px', py'. split; [exact H|]. split; [exact H1|exact H2].
Defined.

(** [alignPoints] between a path of one point and a longer one. *)
Lemma alignPoints_single (env : Group.Env) prx stx fix_ lwx (a : Anchor) cx sx
    pry sty fiy lwy (more : list Anchor) cy sy :
  (2 <= length more)%nat ->
  Group.alignPoints env (TwoGroup prx stx fix_ lwx (TwoPath [a] cx :: sx))
                        (TwoGroup pry sty fiy lwy (TwoPath more cy :: sy))
  = Some (TwoGroup prx stx fix_ lwx (TwoPath [Group.blankAnchor] cx :: sx),
          TwoGroup pry sty fiy lwy (TwoPath more cy :: sy)) /\
  Group.alignPoints env (TwoGroup pry sty fiy lwy (TwoPath more cy :: sy))
                        (TwoGroup prx stx fix_ lwx (TwoPath [a] cx :: sx))
  = Some (TwoGroup pry sty fiy lwy (TwoPath more cy :: sy),
          TwoGroup prx stx fix_ lwx (TwoPath [Group.blankAnchor] cx :: sx)).
Proof.
  intros Hm.
  split; unfold Group.alignPoints; rewrite !points_node; cbn [bind length].
  - destruct (Nat.eqb_spec 1 (length more)) as [E|E]; [lia|].
    rewrite (@seedPoint_nonempty env _ [a]) by (try apply points_node; simpl; lia).
    cbn [bind].
    rewrite (@seedPoint_nonempty env _ [a]) by (try apply points_node; lia).
    cbn [bind]. rewrite !points_node. cbn [bind length].
    destruct (Nat.ltb_spec 1 (length more)) as [L|L]; [|lia].
    rewrite addPoints_single. cbn [bind]. rewrite setAnchorsFromPoints_nil.
    reflexivity.
  - destruct (Nat.eqb_spec (length more) 1) as [E|E]; [lia|].
    rewrite (@seedPoint_nonempty env _ more) by (try apply points_node; lia).
    cbn [bind].
    rewrite (@seedPoint_nonempty env _ more) by (try apply points_node; simpl; lia).
    cbn [bind]. rewrite !points_node. cbn [bind length].
    destruct (Nat.ltb_spec (length more) 1) as [L|L]; [lia|].
    rewrite addPoints_single. cbn [bind]. rewrite setAnchorsFromPoints_nil.
    reflexivity.
Qed.

(** X16: [alignPoints] between a path of one point and a path of two
    or more does not even the counts out: the clones [addPoints] pushes
    are dropped, and the one-point path ends as a single blank anchor
    at the origin, on whichever side it is. *)
Theorem alignPoints_resets_single_point :
  forall (env : Group.Env) prx stx fix_ lwx (a : Anchor) cx sx
         pry sty fiy lwy (more : list Anchor) cy sy,
    (2 <= length more)%nat ->
    Group.alignPoints env (TwoGroup prx stx fix_ lwx (TwoPath [a] cx :: sx))
                          (TwoGroup pry sty fiy lwy (TwoPath more cy :: sy))
    = Some (TwoGroup prx stx fix_ lwx (TwoPath [Group.blankAnchor] cx :: sx),
            TwoGroup pry sty fiy lwy (TwoPath more cy :: sy)) /\
    Group.alignPoints env (TwoGroup pry sty fiy lwy (TwoPath more cy :: sy))
                          (TwoGroup prx stx fix_ lwx (TwoPath [a] cx :: sx))
    = Some (TwoGroup pry sty fiy lwy (TwoPath more cy :: sy),
            TwoGroup prx stx fix_ lwx (TwoPath [Group.blankAnchor] cx :: sx)).
Proof.
  intros. apply alignPoints_single. assumption.
Qed.

Lemma alignPoints_resets_single_point_witness :
  Group.alignPoints Examples.env0
    (TwoGroup PMobject (16777215%N, 1) (0%N, 0) (4 / 100)
       [TwoPath [Examples.corner 5 5] false])
    Examples.triangle
  = Some (TwoGroup PMobject (16777215%N, 1) (0%N, 0) (4 / 100)
            [TwoPath [Group.blankAnchor] false],
          Examples.triangle).
Proof.
  apply (@alignPoints_resets_single_point Examples.env0
           PMobject (16777215%N, 1) (0%N, 0) (4 / 100) (Examples.corner 5 5) false []
           PMobject (16777215%N, 1) (0%N, 0) (4 / 100)
           [Examples.corner 0 0; Examples.corner 4 0; Examples.corner 0 4;
            Examples.corner 0 0] false []).
  simpl. lia.
Defined.

(** ** pushSelfIntoSubmobjects *)

(** X17: [pushSelfIntoSubmobjects] keeps the class, the style and the
    submobjects of the node, puts the path
    [pathFromAnchors([center], [center], [center])] at
    [getPointCenter()] in place of its path, and appends one [Mobject]
    without submobjects that carries the former path, styled with what
    [getStyleDict] reads from the node: its colours, each with the
    alpha read from the byte of its hex string, and the line width
    [linewidth * 100 / 100]. *)
Theorem pushSelfIntoSubmobjects_moves_path_down :
  forall (env : Group.Env) pr st fi lw vs c subs,
    Forall WellFormed subs ->
    exists center : Vec,
      Group.getPointCenter (TwoGroup pr st fi lw (TwoPath vs c :: subs))
      = Some center /\
      Group.pushSelfIntoSubmobjects env (TwoGroup pr st fi lw (TwoPath vs c :: subs))
      = Some (TwoGroup pr st fi lw
                (pathFromAnchors [center] [center] [center]
                   :: subs ++ [TwoGroup PMobject (fst st, hexAlpha st)
                                 (fst fi, hexAlpha fi) (lw * 100 / 100)
                                 [TwoPath vs c]])).
Proof.
  intros env pr st fi lw vs c subs Hsubs.
  destruct (@getPointCenter_wf (TwoGroup pr st fi lw (TwoPath vs c :: subs)))
    as (center & Hc); [constructor; exact Hsubs|].
  exists center. split; [exact Hc|].
  unfold Group.pushSelfIntoSubmobjects.
  cbn [Group.path Group.getChildren bind nth_error Group.clone Group.getStyleDict
       Group.newMobject Group.restyle Group.paint map Group.applyStyle Group.propagates].
  rewrite Hc. cbn [bind Group.setPath Group.add tl]. reflexivity.
Qed.

Lemma pushSelfIntoSubmobjects_moves_path_down_witness :
  exists center : Vec,
    Group.getPointCenter Examples.tinted = Some center /\
    Group.pushSelfIntoSubmobjects Examples.env0 Examples.tinted
    = Some (TwoGroup PPolygon (16711680%N, 1) (16711680%N, 1 # 3) (4 / 100)
              (pathFromAnchors [center] [center] [center]
                 :: [] ++ [TwoGroup PMobject (16711680%N, 1) (16711680%N, 33 # 100)
                             (4 / 100 * 100 / 100)
                             [TwoPath [Examples.corner 0 0; Examples.corner 4 0;
                                       Examples.corner 0 4; Examples.corner 0 0]
                                      true]])).
Proof.
  apply (@pushSelfIntoSubmobjects_moves_path_down Examples.env0
           PPolygon (16711680%N, 1) (16711680%N, 1 # 3) (4 / 100)
           [Examples.corner 0 0; Examples.corner 4 0; Examples.corner 0 4;
            Examples.corner 0 0] true []).
  constructor.
Defined.

(** ** pointwiseBecomePartial and the children of the node *)

(** What [pointwiseBecomePartial] leaves of a node: the new path after
    the former children (but the first, when Two.js has it on record),
    and a restyled node. *)
Lemma pointwiseBecomePartial_shape (onRecord : bool) pr st fi lw ovs oc subs
    (other : Shape) (a b : Q) (this' : Shape) :
  Group.pointwiseBecomePartial onRecord
    (TwoGroup pr st fi lw (TwoPath ovs oc :: subs)) other a b = Some this' ->
  exists (commands : list Command) (coeffs : list (list Vec)) (vs' : list Anchor),
    Group.pathFromManimPoints (concat coeffs) commands = Some (TwoPath vs' false) /\
    (forall rec2 pr2 st2 fi2 lw2 ovs2 oc2 a2 r2,
       Group.pointwiseBecomePartial rec2
         (TwoGroup pr2 st2 fi2 lw2 [TwoPath ovs2 oc2]) other a2 b = Some r2 ->
       rec2 = true -> Group.points r2 = Some vs') /\
    Group.applyStyle (fullPatch (Group.styleOf st fi lw))
      (TwoGroup pr st fi lw
         ((if onRecord then subs else TwoPath ovs oc :: subs)
            ++ [TwoPath vs' false])) = Some this'.
Proof.
  unfold Group.pointwiseBecomePartial. intro H.
  inv_bind H. rename a0 into manimPoints.
  destruct (integerInterpolate 0
              (Z.of_nat (length (chunk manimPoints 4))) b) as [bIndex bResidue] eqn:EI.
  inv_bind H. rename a0 into bResidueCoeffs.
  inv_bind H. rename a0 into vs.
  cbn [Group.path Group.getChildren bind nth_error] in H.
  inv_bind H. rename a0 into partialPath.
  destruct partialPath as [vertices' closed'|]; [|discriminate].
  cbn [Group.replacePath tl bind Group.getStyleDict] in H.
  assert (Hc : closed' = false).
  { unfold Group.pathFromManimPoints in Ha2. inv_bind Ha2. congruence. }
  subst closed'.
  eexists. eexists. exists vertices'. split; [exact Ha2|]. split; [|exact H].
  intros rec2 pr2 st2 fi2 lw2 ovs2 oc2 a2 r2 H2 ->.
  rewrite Ha in H2. cbn [bind] in H2. rewrite EI, Ha0 in H2. cbn [bind] in H2.
  rewrite Ha1 in H2.
  cbn [Group.path Group.getChildren bind nth_error] in H2.
  rewrite Ha2 in H2.
  cbn [bind Group.replacePath tl app Group.getStyleDict Group.applyStyle] in H2.
  destruct (Group.propagates pr2); cbn [mapM bind] in H2;
    injection H2 as <-; reflexivity.
Qed.

(** X18: on a node without submobjects, its path on record with
    Two.js as the constructor leaves it, [pointwiseBecomePartial] keeps
    the class and the colours; for a class that keeps its style the
    closing [applyStyle(getStyleDict())] writes stroke and fill back
    with the alpha read from their hex bytes and the line width
    [linewidth * 100 / 100], for a class that hands styles on they and
    the line width stay as they are.  The open path it puts in place
    depends on [other] and [b] alone: the same points result from every
    other such node, whatever path it had before. *)
Theorem pointwiseBecomePartial_on_leaf :
  forall pr st fi lw ovs oc (other : Shape) (a b : Q) (this' : Shape),
    Group.pointwiseBecomePartial true (TwoGroup pr st fi lw [TwoPath ovs oc])
      other a b = Some this' ->
    exists (st' fi' : Hex) (lw' : Q) (vs' : list Anchor),
      this' = TwoGroup pr st' fi' lw' [TwoPath vs' false] /\
      (Group.propagates pr = false ->
       st' = (fst st, hexAlpha st) /\ fi' = (fst fi, hexAlpha fi) /\
       lw' = lw * 100 / 100) /\
      (Group.propagates pr = true -> st' = st /\ fi' = fi /\ lw' = lw) /\
      forall pr2 st2 fi2 lw2 ovs2 oc2 a2 r2,
        Group.pointwiseBecomePartial true
          (TwoGroup pr2 st2 fi2 lw2 [TwoPath ovs2 oc2]) other a2 b = Some r2 ->
        Group.points r2 = Some vs'.
Proof.
  intros pr st fi lw ovs oc other a b this' H.
  destruct (pointwiseBecomePartial_shape _ _ _ _ _ _ _ _ _ _ _ H)
    as (commands & coeffs & vs' & _ & Hall & Hs).
  assert (Hall' : forall pr2 st2 fi2 lw2 ovs2 oc2 a2 r2,
             Group.pointwiseBecomePartial true
               (TwoGroup pr2 st2 fi2 lw2 [TwoPath ovs2 oc2]) other a2 b = Some r2 ->
             Group.points r2 = Some vs').
  { intros pr2 st2 fi2 lw2 ovs2 oc2 a2 r2 H2.
    exact (Hall _ _ _ _ _ _ _ _ _ H2 eq_refl). }
  cbn [app Group.applyStyle] in Hs.
  destruct (Group.propagates pr).
  - cbn [mapM bind] in Hs. injection Hs as <-.
    exists st, fi, lw, vs'. split; [reflexivity|].
    split; [discriminate|]. split; [intros _; repeat split|exact Hall'].
  - injection Hs as <-. do 3 eexists. exists vs'.
    split; [reflexivity|]. split; [intros _; repeat split|].
    split; [discriminate|exact Hall'].
Qed.

Lemma pointwiseBecomePartial_on_leaf_witness :
  exists (this' : Shape) (vs' : list Anchor),
    Group.pointwiseBecomePartial true Examples.tinted Examples.triangle 0 (1 # 2)
    = Some this' /\
    this' = TwoGroup PPolygon (16711680%N, 1) (16711680%N, 33 # 100)
              (4 / 100 * 100 / 100) [TwoPath vs' false] /\
    length vs' = 3%nat.
Proof.
  destruct (Group.pointwiseBecomePartial true Examples.tinted Examples.triangle
              0 (1 # 2))
    as [this'|] eqn:E; [|vm_compute in E; discriminate].
  destruct (@pointwiseBecomePartial_on_leaf
              PPolygon (16711680%N, 1) (16711680%N, 1 # 3) (4 / 100)
              [Examples.corner 0 0; Examples.corner 4 0; Examples.corner 0 4;
               Examples.corner 0 0] true
              Examples.triangle 0 (1 # 2) this' E)
    as (st' & fi' & lw' & vs' & H1 & H2 & _ & H4).
  destruct (H2 eq_refl) as (-> & -> & ->).
  exists this', vs'. split; [reflexivity|]. split; [exact H1|].
  specialize (H4 _ _ _ _ _ _ _ _ E). subst this'.
  vm_compute in E. injection E as <-. reflexivity.
Defined.

(** X19: on a node that has a submobject [pointwiseBecomePartial]
    throws when the class hands styles on to submobjects: the closing
    [applyStyle] reaches the new path, which has no [applyStyle].
    Otherwise the new path is the last child, behind the submobjects;
    the former path is gone when Two.js had it on record and is still
    [children[0]], with its points, when it had not (the state
    [pushSelfIntoSubmobjects] leaves).  Either way
    [getMobjectHeirarchy()] takes the new path for a submobject and
    throws on the node that is left. *)
Theorem pointwiseBecomePartial_with_submobjects :
  forall (onRecord : bool) pr st fi lw ovs oc (sub : Shape) (subs : list Shape)
         (other : Shape) (a b : Q),
    (Group.propagates pr = true ->
     Group.pointwiseBecomePartial onRecord
       (TwoGroup pr st fi lw (TwoPath ovs oc :: sub :: subs)) other a b = None) /\
    (forall this' : Shape,
       Group.pointwiseBecomePartial onRecord
         (TwoGroup pr st fi lw (TwoPath ovs oc :: sub :: subs)) other a b
       = Some this' ->
       exists st' fi' lw' rest vs',
         this' = TwoGroup pr st' fi' lw'
                   ((if onRecord then rest else TwoPath ovs oc :: rest)
                      ++ [TwoPath vs' false]) /\
         length rest = S (length subs) /\
         (onRecord = false -> Group.points this' = Some ovs) /\
         Group.getMobjectHeirarchy this' = None).
Proof.
  intros onRecord pr st fi lw ovs oc sub subs other a b.
  assert (Hn : forall vs' l,
             mapM Group.getMobjectHeirarchy (l ++ [TwoPath vs' false]) = None).
  { intros vs' l. induction l as [|s l IH]; [reflexivity|].
    cbn [app mapM]. destruct (Group.getMobjectHeirarchy s); [|reflexivity].
    cbn [bind]. fold (mapM Group.getMobjectHeirarchy). rewrite IH. reflexivity. }
  assert (Hres : forall this',
             Group.pointwiseBecomePartial onRecord
               (TwoGroup pr st fi lw (TwoPath ovs oc :: sub :: subs)) other a b
             = Some this' ->
             Group.propagates pr = false /\
             exists st' fi' lw' rest vs',
               this' = TwoGroup pr st' fi' lw'
                         ((if onRecord then rest else TwoPath ovs oc :: rest)
                            ++ [TwoPath vs' false]) /\
               length rest = S (length subs)).
  { intros this' H.
    destruct (pointwiseBecomePartial_shape _ _ _ _ _ _ _ _ _ _ _ H)
      as (commands & coeffs & vs' & _ & _ & Hs).
    destruct (Group.propagates pr) eqn:Hp.
    - exfalso. destruct onRecord; cbn [app Group.applyStyle] in Hs;
        rewrite Hp in Hs.
      + rewrite applyStyle_each_path in Hs. discriminate.
      + change (sub :: subs ++ [TwoPath vs' false])
          with ((sub :: subs) ++ [TwoPath vs' false]) in Hs.
        rewrite applyStyle_each_path in Hs. discriminate.
    - split; [reflexivity|].
      rewrite applyStyle_own in Hs by exact Hp. injection Hs as <-.
      unfold Group.restyle. cbn [Group.paint].
      do 3 eexists.
      exists (map (Group.paint
                     (Group.strokeOf (assign (Group.styleOf st fi lw)
                                        (fullPatch (Group.styleOf st fi lw))))
                     (Group.fillOf (assign (Group.styleOf st fi lw)
                                      (fullPatch (Group.styleOf st fi lw))))
                     (Group.linewidthOf (assign (Group.styleOf st fi lw)
                                           (fullPatch (Group.styleOf st fi lw)))))
                  (sub :: subs)), vs'.
      split; [|cbn [map length]; rewrite length_map; reflexivity].
      destruct onRecord; rewrite map_app; reflexivity. }
  split.
  - intro Hp.
    destruct (Group.pointwiseBecomePartial onRecord
                (TwoGroup pr st fi lw (TwoPath ovs oc :: sub :: subs)) other a b)
      as [this'|] eqn:E; [|reflexivity].
    destruct (Hres this' eq_refl) as (Hf & _). congruence.
  - intros this' H.
    destruct (Hres this' H) as (_ & st' & fi' & lw' & rest & vs' & -> & Hlen).
    exists st', fi', lw', rest, vs'. split; [reflexivity|]. split; [exact Hlen|].
    split.
    + intros ->. reflexivity.
    + destruct rest as [|first rest]; [discriminate|].
      destruct onRecord; cbn [Group.getMobjectHeirarchy app].
      * rewrite Hn. reflexivity.
      * change (first :: rest ++ [TwoPath vs' false])
          with ((first :: rest) ++ [TwoPath vs' false]).
        rewrite Hn. reflexivity.
Qed.

Lemma pointwiseBecomePartial_with_submobjects_witness :
  Group.pointwiseBecomePartial true
    (TwoGroup PGroup (0%N, 1) (16777215%N, 1) 1
       [TwoPath [Examples.corner 0 0; Examples.corner 1 1] false; Examples.segment])
    Examples.triangle 0 (1 # 2) = None /\
  exists (placeholder : list Anchor) (leaf this' : Shape) st' fi' lw' rest vs',
    Group.pushSelfIntoSubmobjects Examples.env0 Examples.segment
    = Some (TwoGroup PMobject (16777215%N, 1) (0%N, 0) (4 / 100)
              [TwoPath placeholder false; leaf]) /\
    Group.pointwiseBecomePartial false
      (TwoGroup PMobject (16777215%N, 1) (0%N, 0) (4 / 100)
         [TwoPath placeholder false; leaf])
      Examples.triangle 0 (1 # 2) = Some this' /\
    this' = TwoGroup PMobject st' fi' lw'
              ((TwoPath placeholder false :: rest) ++ [TwoPath vs' false]) /\
    length rest = 1%nat /\
    Group.points this' = Some placeholder /\
    Group.getMobjectHeirarchy this' = None.
Proof.
  split.
  - apply (proj1 (@pointwiseBecomePartial_with_submobjects true
                    PGroup (0%N, 1) (16777215%N, 1) 1
                    [Examples.corner 0 0; Examples.corner 1 1] false
                    Examples.segment [] Examples.triangle 0 (1 # 2))).
    reflexivity.
  - destruct (@pushSelfIntoSubmobjects_wf Examples.env0
                PMobject (16777215%N, 1) (0%N, 0) (4 / 100)
                [Examples.corner 1 1; Examples.corner 2 3] false []
                (Forall_nil _)) as (c & st0 & fi0 & lw0 & Hpush).
    cbn [app] in Hpush.
    set (leaf := TwoGroup PMobject st0 fi0 lw0
                   [TwoPath [Examples.corner 1 1; Examples.corner 2 3] false]) in *.
    destruct (Group.pointwiseBecomePartial false
                (TwoGroup PMobject (16777215%N, 1) (0%N, 0) (4 / 100)
                   [TwoPath [c] false; leaf])
                Examples.triangle 0 (1 # 2)) as [this'|] eqn:E.
    + destruct (proj2 (@pointwiseBecomePartial_with_submobjects false
                         PMobject (16777215%N, 1) (0%N, 0) (4 / 100)
                         [c] false leaf [] Examples.triangle 0 (1 # 2)) this' E)
        as (st' & fi' & lw' & rest & vs' & H1 & H2 & H3 & H4).
      exists [c], leaf, this', st', fi', lw', rest, vs'.
      split; [exact Hpush|]. split; [exact E|]. split; [exact H1|].
      split; [exact H2|]. split; [exact (H3 eq_refl)|exact H4].
    + exfalso.
      destruct (@pointwiseBecomePartial_returns false
                  PMobject (16777215%N, 1) (0%N, 0) (4 / 100) [c] false [leaf]
                  Examples.triangle (1 # 2)
                  [Examples.corner 0 0; Examples.corner 4 0; Examples.corner 0 4;
                   Examples.corner 0 0]) as (t & Ht);
        [left; reflexivity|reflexivity|cbn [length]; lia|discriminate|discriminate
        |left; cbn [length]; lia|congruence].
Defined.

(** ** Group.interpolate and ReplacementTransform *)

Section InterpolateFacts.

Variable interpolateStyles : Style -> Style -> Q -> StylePatch.

Lemma mapM_seq_nth (B : Type) (f : nat -> Exc B) (n : nat) (r : list B) :
  forall start : nat,
    mapM f (seq start n) = Some r ->
    length r = n /\
    forall i, (i < n)%nat -> exists y, f (start + i)%nat = Some y /\ nth_error r i = Some y.
Proof.
  revert r. induction n as [|n IH]; intros r start H.
  - injection H as <-. split; [reflexivity|]. intros i Hi. lia.
  - cbn [seq mapM] in H. inv_bind H. fold (mapM f) in H. inv_bind H.
    injection H as <-. destruct (IH _ _ Ha0) as (Hl & Hall).
    split; [simpl; rewrite Hl; reflexivity|].
    intros [|i] Hi.
    + exists a. rewrite Nat.add_0_r. split; [exact Ha|reflexivity].
    + destruct (Hall i ltac:(lia)) as (y & Hy & Hn).
      exists y. rewrite Nat.add_succ_r. split; [exact Hy|exact Hn].
Qed.

Lemma mapM_None_at (B : Type) (f : nat -> Exc B) (n i : nat) :
  (i < n)%nat -> f i = None -> mapM f (seq 0 n) = None.
Proof.
  intros Hi Hf. destruct (mapM f (seq 0 n)) as [r|] eqn:E; [|reflexivity].
  destruct (mapM_seq_nth _ _ _ E) as (_ & Hall).
  destruct (Hall i Hi) as (y & Hy & _). simpl in Hy. congruence.
Qed.

(** The node [applyStyle] returns has the path of the node it was
    given. *)
Lemma applyStyle_points (style : StylePatch) (m r : Shape) :
  Group.applyStyle style m = Some r -> Group.points r = Group.points m.
Proof.
  destruct m as [vs c|pr st fi lw cs]; [discriminate|].
  cbn [Group.applyStyle]. destruct (Group.propagates pr).
  - destruct cs as [|c0 subs]; intro H.
    + injection H as <-. reflexivity.
    + inv_bind H. injection H as <-. reflexivity.
  - intro H. injection H as <-.
    destruct cs as [|[vs0 c0|pr0 st0 fi0 lw0 cs0] cs]; reflexivity.
Qed.

Lemma interpolate_result (this mobject1 mobject2 r : Shape) (alpha : Q)
    (pts p1 p2 : list Anchor) :
  Group.points this = Some pts ->
  Group.points mobject1 = Some p1 -> Group.points mobject2 = Some p2 ->
  Group.interpolate interpolateStyles this mobject1 mobject2 alpha = Some r ->
  exists newAnchors,
    Group.points r = Some newAnchors /\ length newAnchors = length pts /\
    forall i, (i < length pts)%nat ->
      exists a1 a2,
        nth_error p1 i = Some a1 /\ nth_error p2 i = Some a2 /\
        nth_error newAnchors i = Some (Group.lerpAnchor a1 a2 alpha).
Proof.
  intros Hp H1 H2 H. unfold Group.interpolate in H.
  rewrite Hp in H. cbn [bind] in H. inv_bind H. rename a into newAnchors.
  inv_bind H. rename a into this1. inv_bind H. inv_bind H.
  apply applyStyle_points in H.
  node Hp. cbn [Group.setVertices] in Ha0. injection Ha0 as <-.
  rewrite points_node in H.
  destruct (mapM_seq_nth _ _ _ Ha) as (Hl & Hall).
  exists newAnchors. split; [exact H|]. split; [exact Hl|].
  intros i Hi. destruct (Hall i Hi) as (y & Hy & Hn). cbn [Nat.add] in Hy.
  rewrite H1, H2 in Hy. cbn [bind] in Hy.
  destruct (nth_error p1 i) as [a1|]; [|discriminate]. cbn [bind] in Hy.
  destruct (nth_error p2 i) as [a2|]; [|discriminate]. cbn [bind] in Hy.
  injection Hy as <-. exists a1, a2. repeat split. exact Hn.
Qed.

End InterpolateFacts.

Lemma interpolate_short (interpolateStyles : Style -> Style -> Q -> StylePatch)
    (this mobject1 mobject2 : Shape) (alpha : Q) (pts p1 p2 : list Anchor) :
  Group.points this = Some pts ->
  Group.points mobject1 = Some p1 -> Group.points mobject2 = Some p2 ->
  (length p1 < length pts)%nat \/ (length p2 < length pts)%nat ->
  Group.interpolate interpolateStyles this mobject1 mobject2 alpha = None.
Proof.
  intros Hp H1 H2 Hshort.
  destruct (Group.interpolate interpolateStyles this mobject1 mobject2 alpha)
    as [r|] eqn:E; [|reflexivity].
  destruct (@interpolate_result interpolateStyles this mobject1 mobject2 r alpha
              pts p1 p2 Hp H1 H2 E) as (newAnchors & _ & _ & Hall).
  destruct Hshort as [L|L].
  - destruct (Hall (length p1) L) as (a1 & _ & Hn & _).
    assert (nth_error p1 (length p1) = None) by (apply nth_error_None; lia).
    congruence.
  - destruct (Hall (length p2) L) as (_ & a2 & _ & Hn & _).
    assert (nth_error p2 (length p2) = None) by (apply nth_error_None; lia).
    congruence.
Qed.

(** X20: [interpolate] runs over the points of [this] and reads the
    point of the same index of both arguments: it throws as soon as
    one of them has fewer points than [this]. *)
Theorem interpolate_needs_as_many_points :
  forall (interpolateStyles : Style -> Style -> Q -> StylePatch)
         (this mobject1 mobject2 : Shape) (alpha : Q) (pts p1 p2 : list Anchor),
    Group.points this = Some pts ->
    Group.points mobject1 = Some p1 -> Group.points mobject2 = Some p2 ->
    (length p1 < length pts)%nat \/ (length p2 < length pts)%nat ->
    Group.interpolate interpolateStyles this mobject1 mobject2 alpha = None.
Proof.
  intros. eapply interpolate_short; eassumption.
Qed.

Lemma interpolate_needs_as_many_points_witness :
  Group.interpolate (fun _ _ _ => noPatch)
    Examples.triangle Examples.triangle Examples.segment (1 # 2) = None.
Proof.
  apply (@interpolate_needs_as_many_points (fun _ _ _ => noPatch)
           Examples.triangle Examples.triangle Examples.segment (1 # 2)
           [Examples.corner 0 0; Examples.corner 4 0; Examples.corner 0 4;
            Examples.corner 0 0]
           [Examples.corner 0 0; Examples.corner 4 0; Examples.corner 0 4;
            Examples.corner 0 0]
           [Examples.corner 1 1; Examples.corner 2 3]
           eq_refl eq_refl eq_refl).
  right. simpl. lia.
Defined.

(** X21: when [interpolate] returns, the node has as many points as
    before; point [i] keeps the command and the [relative] flag of
    point [i] of [mobject1], its position and its two controls are
    [(v2 - v1) * alpha + v1] coordinate by coordinate for the
    corresponding vectors [v1] of [mobject1] and [v2] of [mobject2],
    and at alpha 0 they are those of [mobject1]. *)
Theorem interpolate_starts_from_mobject1 :
  forall (interpolateStyles : Style -> Style -> Q -> StylePatch)
         (this mobject1 mobject2 r : Shape) (alpha : Q) (pts p1 p2 : list Anchor),
    Group.points this = Some pts ->
    Group.points mobject1 = Some p1 -> Group.points mobject2 = Some p2 ->
    Group.interpolate interpolateStyles this mobject1 mobject2 alpha = Some r ->
    exists newAnchors,
      Group.points r = Some newAnchors /\ length newAnchors = length pts /\
      forall i, (i < length pts)%nat ->
        exists a a1 a2,
          nth_error newAnchors i = Some a /\
          nth_error p1 i = Some a1 /\ nth_error p2 i = Some a2 /\
          command a = command a1 /\ relative a = relative a1 /\
          pos a = ((fst (pos a2) - fst (pos a1)) * alpha + fst (pos a1),
                   (snd (pos a2) - snd (pos a1)) * alpha + snd (pos a1)) /\
          controlsLeft a
          = ((fst (controlsLeft a2) - fst (controlsLeft a1)) * alpha
               + fst (controlsLeft a1),
             (snd (controlsLeft a2) - snd (controlsLeft a1)) * alpha
               + snd (controlsLeft a1)) /\
          controlsRight a
          = ((fst (controlsRight a2) - fst (controlsRight a1)) * alpha
               + fst (controlsRight a1),
             (snd (controlsRight a2) - snd (controlsRight a1)) * alpha
               + snd (controlsRight a1)) /\
          (alpha == 0 -> Aeq a a1).
Proof.
  intros iS this m1 m2 r alpha pts p1 p2 Hp H1 H2 E.
  destruct (@interpolate_result iS this m1 m2 r alpha pts p1 p2 Hp H1 H2 E)
    as (newAnchors & Hr & Hl & Hall).
  exists newAnchors. split; [exact Hr|]. split; [exact Hl|].
  intros i Hi. destruct (Hall i Hi) as (a1 & a2 & Hn1 & Hn2 & Hn).
  exists (Group.lerpAnchor a1 a2 alpha), a1, a2.
  split; [exact Hn|]. split; [exact Hn1|]. split; [exact Hn2|].
  split; [reflexivity|]. split; [reflexivity|].
  split; [reflexivity|]. split; [reflexivity|]. split; [reflexivity|].
  assert (L0 : forall x y : Q, alpha == 0 -> (y - x) * alpha + x == x).
  { intros x y Ha. rewrite Ha. ring. }
  intro Ha. unfold Aeq, Veq, Group.lerpAnchor, Group.vectorLerp.
  cbn [pos controlsLeft controlsRight command relative fst snd].
  repeat split; try reflexivity; apply L0; exact Ha.
Qed.

Lemma interpolate_starts_from_mobject1_witness :
  exists r newAnchors a,
    Group.interpolate (fun _ _ _ => noPatch)
      Examples.segment Examples.segment Examples.triangle 0 = Some r /\
    Group.points r = Some newAnchors /\ length newAnchors = 2%nat /\
    nth_error newAnchors 1 = Some a /\ Aeq a (Examples.corner 2 3).
Proof.
  destruct (Group.interpolate (fun _ _ _ => noPatch)
              Examples.segment Examples.segment Examples.triangle 0)
    as [r|] eqn:E; [|vm_compute in E; discriminate].
  destruct (@interpolate_starts_from_mobject1 (fun _ _ _ => noPatch)
              Examples.segment Examples.segment Examples.triangle r 0
              [Examples.corner 1 1; Examples.corner 2 3]
              [Examples.corner 1 1; Examples.corner 2 3]
              [Examples.corner 0 0; Examples.corner 4 0; Examples.corner 0 4;
               Examples.corner 0 0]
              eq_refl eq_refl eq_refl E) as (newAnchors & Hr & Hl & Hall).
  destruct (Hall 1%nat (le_n 2)) as (a & a1 & a2 & Hn & Hn1 & _ & _ & _ & _ & _ & _ & H0).
  injection Hn1 as <-.
  exists r, newAnchors, a. split; [reflexivity|]. split; [exact Hr|].
  split; [exact Hl|]. split; [exact Hn|]. apply H0. reflexivity.
Defined.

(** ** ReplacementTransform on two paths *)

Lemma heirarchy_leaf pr st fi lw vs c :
  Group.getMobjectHeirarchy (TwoGroup pr st fi lw [TwoPath vs c])
  = Some [TwoGroup pr st fi lw [TwoPath vs c]].
Proof. reflexivity. Qed.

(** X22: a [ReplacementTransform] from a mobject that is one path of
    two or more points to a mobject that is one path of a single
    point: [begin()] aligns and clones, the argument list holds the one
    triple of the three nodes, and on it the step throws at every
    alpha, since the copy of the target still has one point. *)
Theorem replacementTransform_to_single_point_throws :
  forall (env : Group.Env)
         (interpolateStyles : Style -> Style -> Q -> StylePatch) (fuel : nat)
         pr st fi lw (vs : list Anchor) c pr2 st2 fi2 lw2 (a : Anchor) c2,
    (2 <= length vs)%nat ->
    exists mob start target,
      ReplacementTransform.begin env (S fuel)
        (TwoGroup pr st fi lw [TwoPath vs c])
        (TwoGroup pr2 st2 fi2 lw2 [TwoPath [a] c2])
      = Some [mob; start; target] /\
      Group.points mob = Some vs /\
      Group.points target = Some [Group.blankAnchor] /\
      Animation.getAllArgsToInterpolateSubmobject [mob; start; target]
      = Some [[Some mob; Some start; Some target]] /\
      forall alpha : Q,
        ReplacementTransform.interpolateSubmobject interpolateStyles alpha
          mob start target = None.
Proof.
  intros env iS fuel pr st fi lw vs c pr2 st2 fi2 lw2 a c2 Hvs.
  destruct (clone_own env pr2 st2 fi2 lw2 [a] c2 (Forall_nil _)) as (subs2 & HF2 & Hc2).
  inversion HF2; subst.
  destruct (clone_own env pr st fi lw vs c (Forall_nil _)) as (subs1 & HF1 & Hc1).
  inversion HF1; subst.
  unfold ReplacementTransform.begin. rewrite Hc2. clear Hc2 HF1 HF2.
  set (tc := if Group.cloneStyled pr2
             then TwoGroup (Group.cloneProto pr2) (fst st2, hexAlpha st2) (fst fi2, hexAlpha fi2)
                           (lw2 * 100 / 100) [TwoPath [a] c2]
             else TwoGroup (Group.cloneProto pr2) (Group.groupStroke env)
                           (Group.groupFill env) (Group.groupLinewidth env)
                           [TwoPath [a] c2]).
  assert (Htc : exists pr' st' fi' lw', tc = TwoGroup pr' st' fi' lw' [TwoPath [a] c2]).
  { unfold tc. destruct (Group.cloneStyled pr2); repeat eexists. }
  destruct Htc as (pr' & st' & fi' & lw' & ->).
  cbn [bind Group.alignData Group.alignLevel].
  assert (Hn : Group.nullPointAlign env (TwoGroup pr st fi lw [TwoPath vs c])
                 (TwoGroup pr' st' fi' lw' [TwoPath [a] c2])
               = Some (TwoGroup pr st fi lw [TwoPath vs c],
                       TwoGroup pr' st' fi' lw' [TwoPath [a] c2])).
  { unfold Group.nullPointAlign. rewrite !points_node. cbn [bind length Nat.eqb].
    destruct vs; [simpl in Hvs; lia|]. reflexivity. }
  unfold Group.alignLevel. rewrite Hn. cbn [bind].
  assert (Hs : Group.alignSubmobjects env (TwoGroup pr st fi lw [TwoPath vs c])
                 (TwoGroup pr' st' fi' lw' [TwoPath [a] c2])
               = Some (TwoGroup pr st fi lw [TwoPath vs c],
                       TwoGroup pr' st' fi' lw' [TwoPath [a] c2])) by reflexivity.
  rewrite Hs. cbn [bind].
  destruct (@alignPoints_single env pr' st' fi' lw' a c2 [] pr st fi lw vs c [] Hvs)
    as (_ & Hp).
  rewrite Hp.
  cbn [bind Group.submobjects Group.getChildren tl Group.alignEach
       Group.setSubmobjects].
  unfold Animation.createStartingMobject. rewrite Hc1. cbn [bind].
  set (start := if Group.cloneStyled pr
                then TwoGroup (Group.cloneProto pr) (fst st, hexAlpha st) (fst fi, hexAlpha fi)
                              (lw * 100 / 100) [TwoPath vs c]
                else TwoGroup (Group.cloneProto pr) (Group.groupStroke env)
                              (Group.groupFill env) (Group.groupLinewidth env)
                              [TwoPath vs c]).
  assert (Hst : exists pr0 st0 fi0 lw0, start = TwoGroup pr0 st0 fi0 lw0 [TwoPath vs c]).
  { unfold start. destruct (Group.cloneStyled pr); repeat eexists. }
  destruct Hst as (pr0 & st0 & fi0 & lw0 & ->).
  eexists. eexists. eexists. split; [reflexivity|].
  split; [reflexivity|]. split; [reflexivity|]. split.
  - unfold Animation.getAllArgsToInterpolateSubmobject,
           Animation.heirarchyMembersWithPoints.
    cbn [mapM]. rewrite !heirarchy_leaf. cbn [bind filterM].
    rewrite !points_node. cbn [bind].
    destruct vs as [|v0 vs']; [simpl in Hvs; lia|]. reflexivity.
  - intro alpha. unfold ReplacementTransform.interpolateSubmobject.
    eapply interpolate_short; try apply points_node.
    right. simpl. lia.
Qed.

Lemma replacementTransform_to_single_point_throws_witness :
  exists mob start target,
    ReplacementTransform.begin Examples.env0 1 Examples.triangle
      (TwoGroup PMobject (16777215%N, 1) (0%N, 0) (4 / 100)
         [TwoPath [Examples.corner 5 5] false])
    = Some [mob; start; target] /\
    Group.points target = Some [Group.blankAnchor] /\
    ReplacementTransform.interpolateSubmobject (fun _ _ _ => noPatch) (1 # 2)
      mob start target = None.
Proof.
  destruct (@replacementTransform_to_single_point_throws Examples.env0
              (fun _ _ _ => noPatch) 0
              PMobject (16777215%N, 1) (0%N, 0) (4 / 100)
              [Examples.corner 0 0; Examples.corner 4 0; Examples.corner 0 4;
               Examples.corner 0 0] false
              PMobject (16777215%N, 1) (0%N, 0) (4 / 100) (Examples.corner 5 5) false
              ltac:(simpl; lia))
    as (mob & start & target & H1 & _ & H2 & _ & H3).
  exists mob, start, target. split; [exact H1|]. split; [exact H2|apply H3].
Defined.

(** ** The argument tuples of ReplacementTransform *)

Lemma filterM_app (A : Type) (f : A -> Exc bool) (l1 l2 r1 r2 : list A) :
  filterM f l1 = Some r1 -> filterM f l2 = Some r2 ->
  filterM f (l1 ++ l2) = Some (r1 ++ r2).
Proof.
  revert r1. induction l1 as [|x l1 IH]; intros r1 H1 H2.
  - injection H1 as <-. exact H2.
  - rewrite filterM_cons in H1. inv_bind H1. inv_bind H1. injection H1 as <-.
    cbn [app]. rewrite filterM_cons, Ha. cbn [bind].
    rewrite (IH _ Ha0 H2). cbn [bind]. destruct a; reflexivity.
Qed.

Lemma SameMembers_list (xs ys : list Shape) :
  Forall2 SameMembers xs ys ->
  exists hx hy mx my,
    mapM Group.getMobjectHeirarchy xs = Some hx /\
    mapM Group.getMobjectHeirarchy ys = Some hy /\
    Animation.heirarchyMembersWithPoints (concat hx) = Some mx /\
    Animation.heirarchyMembersWithPoints (concat hy) = Some my /\
    length mx = length my.
Proof.
  induction 1 as [|x y xs ys (ha & hb & ma & mb & Ha & Hb & Hma & Hmb & Hl) _
                   (hx & hy & mx & my & Hx & Hy & Hmx & Hmy & Hlen)].
  - exists [], [], [], []. repeat split; reflexivity.
  - exists (ha :: hx), (hb :: hy), (ma ++ mx), (mb ++ my).
    split; [cbn [mapM]; rewrite Ha; cbn [bind];
            fold (mapM Group.getMobjectHeirarchy); rewrite Hx; reflexivity|].
    split; [cbn [mapM]; rewrite Hb; cbn [bind];
            fold (mapM Group.getMobjectHeirarchy); rewrite Hy; reflexivity|].
    split; [cbn [concat]; apply filterM_app; assumption|].
    split; [cbn [concat]; apply filterM_app; assumption|].
    rewrite !length_app. lia.
Qed.

Lemma PointsSettled_empty (px py : list Anchor) :
  PointsSettled px py -> ((0 <? length px)%nat = (0 <? length py)%nat).
Proof.
  intros [E|[(-> & H)|(-> & H)]].
  - rewrite E. reflexivity.
  - destruct py; [simpl in H; lia|reflexivity].
  - destruct px; [simpl in H; lia|reflexivity].
Qed.

Section AlignedTrees.

Variable env : Group.Env.

Lemma Kids_wf (H : nat) (m : Shape) : Kids H m -> WellFormed m.
Proof.
  intros (pr & st & fi & lw & vs & c & subs & -> & Hf).
  constructor. eapply Fits_wf; eassumption.
Qed.

Lemma alignLevel_wf (x y x3 y3 : Shape) :
  WellFormed x -> WellFormed y ->
  Group.alignLevel env x y = Some (x3, y3) -> WellFormed x3 /\ WellFormed y3.
Proof.
  intros Hx Hy Hl.
  destruct (@alignLevel_kids env (Nat.max (height x) (height y)) x y)
    as (x3' & y3' & Hl' & Kx & Ky).
  - apply Kids_of_wf; [exact Hx|lia].
  - apply Kids_of_wf; [exact Hy|lia].
  - rewrite Hl in Hl'. injection Hl' as <- <-.
    split; eapply Kids_wf; eassumption.
Qed.

Lemma alignEach_Forall_both (rec : Shape -> Shape -> Exc (Shape * Shape))
    (P : Shape -> Prop) :
  (forall x y x' y', P x -> P y -> rec x y = Some (x', y') -> P x' /\ P y') ->
  forall xs ys xs' ys',
    Forall P xs -> Forall P ys ->
    Group.alignEach rec xs ys = Some (xs', ys') -> Forall P xs' /\ Forall P ys'.
Proof.
  intro HP. induction xs as [|x xs IH]; intros ys xs' ys' Hxs Hys H; simpl in H.
  - injection H as <- <-. split; [constructor|exact Hys].
  - destruct ys as [|y ys]; [discriminate|].
    inv_bind H. destruct a as [x1 y1]. inv_bind H. destruct a as [rx ry].
    injection H as <- <-.
    inversion Hxs as [|? ? Px Pxs]; subst. inversion Hys as [|? ? Py Pys]; subst.
    destruct (HP _ _ _ _ Px Py Ha) as (Px1 & Py1).
    destruct (IH _ _ _ Pxs Pys Ha0) as (Prx & Pry).
    split; constructor; assumption.
Qed.

Lemma alignData_wf (fuel : nat) :
  forall x y x' y',
    WellFormed x -> WellFormed y ->
    Group.alignData env fuel x y = Some (x', y') ->
    WellFormed x' /\ WellFormed y'.
Proof.
  induction fuel as [|fuel IH]; intros x y x' y' Hx Hy H; [discriminate|].
  destruct (alignData_unfold _ _ _ _ H)
    as (x3 & y3 & sx & sy & sx' & sy' & Hl & Hsx & Hsy & Hlen & He & Hx' & Hy' & _).
  destruct (alignLevel_wf Hx Hy Hl) as (Hx3 & Hy3).
  destruct Hx3 as [pr st fi lw vs c subs Hsubs].
  destruct Hy3 as [pr0 st0 fi0 lw0 vs0 c0 subs0 Hsubs0].
  cbn [Group.submobjects Group.getChildren bind tl] in Hsx, Hsy.
  injection Hsx as <-. injection Hsy as <-.
  destruct (@alignEach_Forall_both (Group.alignData env fuel) WellFormed IH
              _ _ _ _ Hsubs Hsubs0 He) as (Wx & Wy).
  cbn [Group.setSubmobjects] in Hx', Hy'.
  injection Hx' as <-. injection Hy' as <-.
  split; constructor; assumption.
Qed.

Lemma alignData_members (fuel : nat) :
  forall x y x' y',
    Group.alignData env fuel x y = Some (x', y') -> SameMembers x' y'.
Proof.
  induction fuel as [|fuel IH]; intros x y x' y' H; [discriminate|].
  destruct (alignData_unfold _ _ _ _ H)
    as (x3 & y3 & sx & sy & sx' & sy' & Hl & Hsx & Hsy & Hlen & He & Hx' & Hy'
        & Hsx' & Hsy' & Hpx' & Hpy').
  assert (HF : Forall2 SameMembers sx' sy').
  { eapply alignEach_Forall2; [|exact Hlen|exact He].
    intros a b a' b' Hab. apply (IH _ _ _ _ Hab). }
  destruct (SameMembers_list HF)
    as (hx & hy & mx & my & Hhx & Hhy & Hmx & Hmy & Hm).
  destruct (alignLevel_settled _ _ _ Hl)
    as (px & py & sx0 & sy0 & Hpx & Hpy & _ & _ & _ & Hset).
  rewrite Hpx in Hpx'. rewrite Hpy in Hpy'.
  node Hpx'. node Hpy'.
  cbn [Group.submobjects Group.getChildren bind tl] in Hsx', Hsy'.
  injection Hsx' as ->. injection Hsy' as ->.
  exists (TwoGroup pr st fi lw (TwoPath px c :: sx') :: concat hx),
         (TwoGroup pr0 st0 fi0 lw0 (TwoPath py c0 :: sy') :: concat hy),
         ((if (0 <? length px)%nat
           then [TwoGroup pr st fi lw (TwoPath px c :: sx')] else []) ++ mx),
         ((if (0 <? length py)%nat
           then [TwoGroup pr0 st0 fi0 lw0 (TwoPath py c0 :: sy')] else []) ++ my).
  split; [cbn [Group.getMobjectHeirarchy]; rewrite Hhx; reflexivity|].
  split; [cbn [Group.getMobjectHeirarchy]; rewrite Hhy; reflexivity|].
  unfold Animation.heirarchyMembersWithPoints in *.
  split; [rewrite filterM_cons, points_node; cbn [bind]; rewrite Hmx; cbn [bind];
          destruct (0 <? length px)%nat; reflexivity|].
  split; [rewrite filterM_cons, points_node; cbn [bind]; rewrite Hmy; cbn [bind];
          destruct (0 <? length py)%nat; reflexivity|].
  rewrite !length_app, (PointsSettled_empty Hset).
  destruct (0 <? length py)%nat; simpl; lia.
Qed.

End AlignedTrees.

Lemma Forall2_nth_error (A B : Type) (R : A -> B -> Prop) (l : list A) (l' : list B) :
  Forall2 R l l' ->
  forall i, (i < length l)%nat ->
    exists a b, nth_error l i = Some a /\ nth_error l' i = Some b /\ R a b.
Proof.
  induction 1 as [|a b l l' Hab _ IH]; intros i Hi; [simpl in Hi; lia|].
  destruct i as [|i].
  - exists a, b. repeat split; assumption.
  - apply IH. simpl in Hi. lia.
Qed.

(** X23: [ReplacementTransform.begin()] on two well-formed mobjects
    returns (with enough budget for the recursion of [alignData]), and
    afterwards the three copies have equally many members with points:
    every argument tuple is a triple of nodes, none of them
    [undefined], and the node of the starting mobject has the points
    of the node of the mobject. *)
Theorem replacementTransform_args_are_triples :
  forall (env : Group.Env) (mobject targetMobject : Shape),
    WellFormed mobject -> WellFormed targetMobject ->
    exists (fuel : nat) (mob start target : Shape)
           (args : list (list (option Shape))),
      ReplacementTransform.begin env fuel mobject targetMobject
      = Some [mob; start; target] /\
      Animation.getAllArgsToInterpolateSubmobject [mob; start; target] = Some args /\
      Forall (fun t => exists a b c vs,
                t = [Some a; Some b; Some c] /\
                Group.points a = Some vs /\ Group.points b = Some vs /\ vs <> [])
             args.
Proof.
  intros env mobject targetMobject Hm Ht.
  destruct (clone_wf env Ht) as (tc & Htc & Hsf).
  pose proof (SameFrame_wf Hsf) as Hwtc.
  destruct (alignData_total env Hm Hwtc) as (mob & target & Hal).
  destruct (@alignData_wf env _ _ _ _ _ Hm Hwtc Hal) as (Hwm & _).
  destruct (@alignData_members env _ _ _ _ _ Hal)
    as (hm & ht & mm & mt & Hhm & Hht & Hmm & Hmt & Hlen).
  destruct (clone_heirarchy env Hwm)
    as (start & hm' & hs & Hc & _ & Hhm' & Hhs & Hw & _ & Hp).
  rewrite Hhm in Hhm'. injection Hhm' as <-.
  destruct (heirarchyMembersWithPoints_pairs hs Hw Hp) as (mm' & ms & Hmm' & Hms & HF).
  rewrite Hmm in Hmm'. injection Hmm' as <-.
  eexists. exists mob, start, target. eexists.
  split.
  { unfold ReplacementTransform.begin. rewrite Htc. cbn [bind]. rewrite Hal.
    cbn [bind]. unfold Animation.createStartingMobject. rewrite Hc. reflexivity. }
  split.
  { unfold Animation.getAllArgsToInterpolateSubmobject. cbn [mapM].
    rewrite Hhm, Hhs, Hht. cbn [bind]. rewrite Hmm, Hms, Hmt. reflexivity. }
  apply Forall_forall. intros t Hin. cbn [nth_error bind] in Hin.
  apply in_map_iff in Hin. destruct Hin as (i & <- & Hi). apply in_seq in Hi.
  destruct (Forall2_nth_error HF (i := i) ltac:(lia))
    as (a & b & Ha & Hb & vs & Hva & Hvb & Hne).
  destruct (nth_error mt i) as [c|] eqn:Ec;
    [|apply nth_error_None in Ec; lia].
  exists a, b, c, vs. cbn [map]. rewrite Ha, Hb, Ec.
  repeat split; assumption.
Qed.

Lemma replacementTransform_args_are_triples_witness :
  exists (fuel : nat) (mob start target : Shape)
         (args : list (list (option Shape))),
    ReplacementTransform.begin Examples.env0 fuel Examples.pair Examples.triangle
    = Some [mob; start; target] /\
    Animation.getAllArgsToInterpolateSubmobject [mob; start; target] = Some args /\
    Forall (fun t => exists a b c vs,
              t = [Some a; Some b; Some c] /\
              Group.points a = Some vs /\ Group.points b = Some vs /\ vs <> [])
           args.
Proof.
  apply (@replacementTransform_args_are_triples Examples.env0
           Examples.pair Examples.triangle); repeat constructor.
Defined.

(** ** transformWithMatrix and applyFunction *)

(** X24: [transformWithMatrix] moves the anchors and the controls of
    the path of the node itself by the upper left 2 x 2 block of the
    matrix, which is what [applyFunction] does with that linear map;
    the third column and the third row play no part, so nothing is
    translated, and the submobjects are left as they are. *)
Theorem transformWithMatrix_is_linear :
  forall (m00 m01 m02 m10 m11 m12 m20 m21 m22 : Q) (m r : Shape),
    Group.transformWithMatrix
      ((m00, m01, m02), (m10, m11, m12), (m20, m21, m22)) m = Some r ->
    exists (r' : Shape) (vs vs' : list Anchor),
      Group.applyFunction
        (fun v => (m00 * fst v + m01 * snd v, m10 * fst v + m11 * snd v)) m
      = Some r' /\
      Group.points r = Some vs /\ Group.points r' = Some vs' /\
      Forall2 Aeq vs vs' /\
      Group.submobjects r = Group.submobjects m /\
      Group.submobjects r' = Group.submobjects m.
Proof.
  intros m00 m01 m02 m10 m11 m12 m20 m21 m22 m r H.
  unfold Group.transformWithMatrix in H. inv_bind H. rename a into pts.
  node Ha. cbn [Group.setVertices] in H. injection H as <-.
  unfold Group.applyFunction. rewrite points_node.
  cbn [bind Group.setVertices].
  eexists. eexists. eexists. split; [reflexivity|].
  split; [reflexivity|]. split; [reflexivity|].
  split; [|split; reflexivity].
  induction pts as [|p pts IH]; cbn [map]; constructor; [|exact IH].
  unfold Aeq, Veq, Group.mapAnchor, Group.multiply.
  cbn [pos controlsLeft controlsRight command relative fst snd].
  repeat split; ring.
Qed.

Lemma transformWithMatrix_is_linear_witness :
  exists (r r' : Shape) (vs vs' : list Anchor),
    Group.transformWithMatrix ((0, -(1), 7), (1, 0, 9), (0, 0, 1)) Examples.segment
    = Some r /\
    Group.applyFunction (fun v => (0 * fst v + -(1) * snd v, 1 * fst v + 0 * snd v))
      Examples.segment = Some r' /\
    Group.points r = Some vs /\ Group.points r' = Some vs' /\
    Forall2 Aeq vs vs'.
Proof.
  eexists.
  destruct (@transformWithMatrix_is_linear 0 (-(1)) 7 1 0 9 0 0 1
              Examples.segment _ ltac:(vm_compute; reflexivity))
    as (r' & vs & vs' & H1 & H2 & H3 & H4 & _).
  exists r', vs, vs'. split; [vm_compute; reflexivity|].
  split; [exact H1|]. split; [exact H2|]. split; [exact H3|exact H4].
Defined.

(** ** The diff of FadeOut *)

Lemma getDiff_fold (mobject : String.string)
    (mobjectData : list (String.string * list String.string)) :
  forall acc : list (list String.string),
    fold_left
      (fun modify (entry : String.string * list String.string) =>
         if existsb (String.eqb mobject) (snd entry)
         then modify ++ [[fst entry; String.append "remove " mobject;
                          String.append "add " mobject]]
         else modify)
      mobjectData acc
    = acc ++ map (fun entry : String.string * list String.string =>
                    [fst entry; String.append "remove " mobject;
                     String.append "add " mobject])
                 (filter (fun entry : String.string * list String.string =>
                            existsb (String.eqb mobject) (snd entry))
                         mobjectData).
Proof.
  induction mobjectData as [|e l IH]; intro acc; cbn [fold_left filter].
  - cbn [map]. rewrite app_nil_r. reflexivity.
  - rewrite IH. destruct (existsb (String.eqb mobject) (snd e)).
    + cbn [map]. rewrite <- app_assoc. reflexivity.
    + reflexivity.
Qed.

(** X25: the diff of [FadeOut] removes the mobject and nothing else,
    and its [modify] list has one entry, in the order of the keys, for
    every mobject of [mobjectData] whose submobjects include it: a
    name heads an entry exactly when that mobject refers to it. *)
Theorem fadeOut_getDiff_names_every_parent :
  forall (mobject : String.string)
         (mobjectData : list (String.string * list String.string)),
    FadeOut.remove (FadeOut.getDiff mobject mobjectData) = [mobject] /\
    FadeOut.modify (FadeOut.getDiff mobject mobjectData)
    = map (fun entry : String.string * list String.string =>
             [fst entry; String.append "remove " mobject;
              String.append "add " mobject])
          (filter (fun entry : String.string * list String.string =>
                     existsb (String.eqb mobject) (snd entry))
                  mobjectData) /\
    (forall name : String.string,
       In name (map (fun e => hd name e)
                    (FadeOut.modify (FadeOut.getDiff mobject mobjectData))) <->
       exists submobjects,
         In (name, submobjects) mobjectData /\ In mobject submobjects).
Proof.
  intros mobject mobjectData.
  assert (Hm : FadeOut.modify (FadeOut.getDiff mobject mobjectData)
               = map (fun entry : String.string * list String.string =>
                        [fst entry; String.append "remove " mobject;
                         String.append "add " mobject])
                     (filter (fun entry : String.string * list String.string =>
                                existsb (String.eqb mobject) (snd entry))
                             mobjectData)).
  { unfold FadeOut.getDiff. cbn [FadeOut.modify]. rewrite getDiff_fold. reflexivity. }
  split; [reflexivity|]. split; [exact Hm|].
  intro name. rewrite Hm, map_map. cbn [hd]. split.
  - intro H. apply in_map_iff in H. destruct H as ([n subs] & <- & Hin).
    apply filter_In in Hin. destruct Hin as (Hin & He). cbn [fst snd] in *.
    apply existsb_exists in He. destruct He as (x & Hx & Heq).
    apply String.eqb_eq in Heq. subst x.
    exists subs. split; assumption.
  - intros (subs & Hin & Hsub). apply in_map_iff. exists (name, subs).
    split; [reflexivity|]. apply filter_In. split; [exact Hin|].
    cbn [snd]. apply existsb_exists. exists mobject. split; [exact Hsub|].
    apply String.eqb_refl.
Qed.

(** ** The frames of ShowCreation *)

(** X26: a frame of [ShowCreation] at a sub-alpha that is not positive
    leaves the node as earlier frames left it; at a positive sub-alpha,
    on a node without submobjects (its path on record with Two.js, as
    the constructor leaves it), the points after the frame depend on
    the starting node and the sub-alpha alone, whatever path the node
    had before; the node keeps its class and the colours of its stroke
    and fill, and its path is left open. *)
Theorem showCreation_frames :
  forall (alpha : Q) (submob start : Shape),
    (alpha <= 0 ->
     forall onRecord : bool,
       ShowCreation.interpolateSubmobject onRecord alpha submob start
       = Some submob) /\
    (0 < alpha ->
     forall pr st fi lw vs c pr2 st2 fi2 lw2 vs2 c2 r r2,
       submob = TwoGroup pr st fi lw [TwoPath vs c] ->
       ShowCreation.interpolateSubmobject true alpha submob start = Some r ->
       ShowCreation.interpolateSubmobject true alpha
         (TwoGroup pr2 st2 fi2 lw2 [TwoPath vs2 c2]) start = Some r2 ->
       Group.points r2 = Group.points r /\
       exists st' fi' lw' vs',
         r = TwoGroup pr st' fi' lw' [TwoPath vs' false] /\
         fst st' = fst st /\ fst fi' = fst fi).
Proof.
  intros alpha submob start. unfold ShowCreation.interpolateSubmobject. split.
  - intros H onRecord. apply Qltb_false in H. rewrite H. reflexivity.
  - intro H. apply Qltb_true in H. rewrite H.
    intros pr st fi lw vs c pr2 st2 fi2 lw2 vs2 c2 r r2 -> Hr Hr2.
    destruct (pointwiseBecomePartial_shape _ _ _ _ _ _ _ _ _ _ _ Hr)
      as (commands & coeffs & vs' & _ & Hall & Hs).
    rewrite (Hall _ _ _ _ _ _ _ _ _ Hr eq_refl), (Hall _ _ _ _ _ _ _ _ _ Hr2 eq_refl).
    split; [reflexivity|].
    cbn [app Group.applyStyle] in Hs. destruct (Group.propagates pr).
    + cbn [mapM bind] in Hs. injection Hs as <-.
      exists st, fi, lw, vs'. repeat split.
    + injection Hs as <-. do 3 eexists. exists vs'.
      split; [reflexivity|]. split; reflexivity.
Qed.

Lemma showCreation_frames_witness :
  ShowCreation.interpolateSubmobject true 0 Examples.collapsed Examples.triangle
  = Some Examples.collapsed /\
  exists r r2,
    ShowCreation.interpolateSubmobject true (1 # 2) Examples.segment
      Examples.triangle = Some r /\
    ShowCreation.interpolateSubmobject true (1 # 2) Examples.collapsed
      Examples.triangle = Some r2 /\
    Group.points r2 = Group.points r /\
    exists st' fi' lw' vs',
      r = TwoGroup PMobject st' fi' lw' [TwoPath vs' false] /\
      fst st' = 16777215%N /\ fst fi' = 0%N.
Proof.
  split.
  - apply (proj1 (@showCreation_frames 0 Examples.collapsed Examples.triangle)).
    apply Qle_refl.
  - eexists. eexists.
    split; [vm_compute; reflexivity|]. split; [vm_compute; reflexivity|].
    apply (proj2 (@showCreation_frames (1 # 2) Examples.segment Examples.triangle)
             eq_refl
             PMobject (16777215%N, 1) (0%N, 0) (4 / 100)
             [Examples.corner 1 1; Examples.corner 2 3] false
             PMobject (16777215%N, 1) (0%N, 0) (4 / 100)
             [Examples.corner 0 0; Examples.corner 0 0] false _ _
             eq_refl ltac:(vm_compute; reflexivity) ltac:(vm_compute; reflexivity)).
Defined.

(** ** Further invariants of the alignment and of styling *)

(** X27: [alignSubmobjects] leaves both nodes with the larger of the
    two submobject counts and does not touch the node that had it. *)
Theorem alignSubmobjects_grows_to_the_larger_count :
  forall (env : Group.Env) (x y x' y' : Shape) (sx sy : list Shape),
    Group.submobjects x = Some sx -> Group.submobjects y = Some sy ->
    Group.alignSubmobjects env x y = Some (x', y') ->
    exists sx' sy',
      Group.submobjects x' = Some sx' /\ Group.submobjects y' = Some sy' /\
      length sx' = Nat.max (length sx) (length sy) /\
      length sy' = Nat.max (length sx) (length sy) /\
      ((length sy <= length sx)%nat -> x' = x) /\
      ((length sx <= length sy)%nat -> y' = y).
Proof.
  intros env x y x' y' sx sy Hsx Hsy H.
  assert (Hgrow : forall m s n m',
             Group.submobjects m = Some s -> (1 <= n)%nat ->
             Group.addSubmobjects env m n = Some m' ->
             exists s', Group.submobjects m' = Some s' /\
                        length s' = (length s + n)%nat).
  { intros m s n m' Hs Hn Ha.
    destruct m as [vs c|pr st fi lw [|p subs]]; [discriminate| |].
    - exfalso. unfold Group.addSubmobjects in Ha.
      cbn [Group.submobjects Group.getChildren bind tl length Nat.eqb] in Ha.
      destruct n as [|n]; [lia|]. discriminate.
    - cbn [Group.submobjects Group.getChildren bind tl] in Hs. injection Hs as <-.
      apply addSubmobjects_node in Ha. destruct Ha as (subs' & -> & Hl).
      exists subs'. split; [reflexivity|exact Hl]. }
  unfold Group.alignSubmobjects in H. rewrite Hsx, Hsy in H. cbn [bind] in H.
  destruct (Nat.eqb_spec (length sx) (length sy)) as [E|E].
  { injection H as <- <-. exists sx, sy. repeat split; try assumption; lia. }
  destruct (Nat.ltb_spec (length sx) (length sy)) as [L|L].
  - inv_bind H. injection H as <- <-.
    assert (Hn : (1 <= length sy - length sx)%nat) by lia.
    destruct (Hgrow _ _ _ _ Hsx Hn Ha) as (s' & Hs' & Hl).
    exists s', sy. repeat split; try assumption; try lia; exfalso; lia.
  - inv_bind H. injection H as <- <-.
    assert (Hn : (1 <= length sx - length sy)%nat) by lia.
    destruct (Hgrow _ _ _ _ Hsy Hn Ha) as (s' & Hs' & Hl).
    exists sx, s'. repeat split; try assumption; try lia; exfalso; lia.
Qed.

Lemma alignSubmobjects_grows_to_the_larger_count_witness :
  exists x' y' sx' sy',
    Group.alignSubmobjects Examples.env0 Examples.pair Examples.triangle
    = Some (x', y') /\
    Group.submobjects x' = Some sx' /\ Group.submobjects y' = Some sy' /\
    length sx' = 2%nat /\ length sy' = 2%nat /\ x' = Examples.pair.
Proof.
  eexists. eexists.
  destruct (@alignSubmobjects_grows_to_the_larger_count Examples.env0
              Examples.pair Examples.triangle _ _
              [Examples.triangle; Examples.segment] []
              eq_refl eq_refl ltac:(vm_compute; reflexivity))
    as (sx' & sy' & H1 & H2 & H3 & H4 & H5 & _).
  exists sx', sy'. split; [vm_compute; reflexivity|].
  split; [exact H1|]. split; [exact H2|]. split; [exact H3|]. split; [exact H4|].
  apply H5. simpl. lia.
Defined.

(** X28: [alignData] keeps trees well formed: when it returns on two
    trees in which every node has a path as first child and well-formed
    mobjects after it, both trees it leaves are of that kind. *)
Theorem alignData_keeps_well_formed :
  forall (env : Group.Env) (fuel : nat) (x y x' y' : Shape),
    WellFormed x -> WellFormed y ->
    Group.alignData env fuel x y = Some (x', y') ->
    WellFormed x' /\ WellFormed y'.
Proof.
  intros env fuel x y x' y' Hx Hy H.
  exact (@alignData_wf env fuel x y x' y' Hx Hy H).
Qed.

Lemma alignData_keeps_well_formed_witness :
  exists x' y',
    Group.alignData Examples.env0 4 Examples.pair Examples.segment = Some (x', y') /\
    WellFormed x' /\ WellFormed y'.
Proof.
  eexists. eexists. split; [vm_compute; reflexivity|].
  apply (@alignData_keeps_well_formed Examples.env0 4 Examples.pair Examples.segment).
  - repeat constructor.
  - repeat constructor.
  - vm_compute. reflexivity.
Defined.

Lemma paint_heirarchy (st fi : Hex) (lw : Q) (m : Shape) :
  WellFormed m ->
  exists h h',
    Group.getMobjectHeirarchy m = Some h /\
    Group.getMobjectHeirarchy (Group.paint st fi lw m) = Some h' /\
    map Group.points h' = map Group.points h.
Proof.
  intro H. induction H as [pr st0 fi0 lw0 vs c subs Hsubs IH]
    using WellFormed_nested_ind.
  assert (Hl : exists hs hs',
             mapM Group.getMobjectHeirarchy subs = Some hs /\
             mapM Group.getMobjectHeirarchy (map (Group.paint st fi lw) subs)
             = Some hs' /\
             map Group.points (concat hs') = map Group.points (concat hs)).
  { clear Hsubs. induction IH as [|s subs (h & h' & Hh & Hh' & Hp) _ IHs].
    - exists [], []. repeat split.
    - destruct IHs as (hs & hs' & Hgs & Hgs' & Hps).
      exists (h :: hs), (h' :: hs'). repeat split.
      + cbn [mapM]. rewrite Hh. cbn [bind]. fold (mapM Group.getMobjectHeirarchy).
        rewrite Hgs. reflexivity.
      + cbn [map mapM]. rewrite Hh'. cbn [bind].
        fold (mapM Group.getMobjectHeirarchy). rewrite Hgs'. reflexivity.
      + cbn [concat]. rewrite !map_app, Hp, Hps. reflexivity. }
  destruct Hl as (hs & hs' & Hgs & Hgs' & Hps).
  cbn [Group.paint map Group.getMobjectHeirarchy]. rewrite Hgs, Hgs'. cbn [bind].
  eexists. eexists. split; [reflexivity|]. split; [reflexivity|].
  cbn [map]. rewrite !points_node, Hps. reflexivity.
Qed.

Lemma applyStyle_heirarchy (style : StylePatch) (m : Shape) :
  WellFormed m ->
  exists m' h h',
    Group.applyStyle style m = Some m' /\ SameFrame m m' /\
    Group.getMobjectHeirarchy m = Some h /\
    Group.getMobjectHeirarchy m' = Some h' /\
    map Group.points h' = map Group.points h.
Proof.
  intro H. induction H as [pr st fi lw vs c subs Hsubs IH] using WellFormed_nested_ind.
  destruct (@getMobjectHeirarchy_wf (TwoGroup pr st fi lw (TwoPath vs c :: subs)))
    as (rest & Hh & _); [constructor; exact Hsubs|].
  cbn [Group.applyStyle]. destruct (Group.propagates pr).
  - assert (Hl : exists subs' hs hs',
               mapM (Group.applyStyle style) subs = Some subs' /\
               Forall2 SameFrame subs subs' /\
               mapM Group.getMobjectHeirarchy subs = Some hs /\
               mapM Group.getMobjectHeirarchy subs' = Some hs' /\
               map Group.points (concat hs') = map Group.points (concat hs)).
    { clear Hsubs Hh.
      induction IH as [|s subs (s' & h & h' & Hc & Hf & Hhs & Hhs' & Hp) _ IHs].
      - exists [], [], []. repeat split; constructor.
      - destruct IHs as (subs' & hs & hs' & Hcs & Hfs & Hgs & Hgs' & Hps).
        exists (s' :: subs'), (h :: hs), (h' :: hs').
        repeat split.
        + cbn [mapM]. rewrite Hc. cbn [bind]. fold (mapM (Group.applyStyle style)).
          rewrite Hcs. reflexivity.
        + constructor; assumption.
        + cbn [mapM]. rewrite Hhs. cbn [bind]. fold (mapM Group.getMobjectHeirarchy).
          rewrite Hgs. reflexivity.
        + cbn [mapM]. rewrite Hhs'. cbn [bind]. fold (mapM Group.getMobjectHeirarchy).
          rewrite Hgs'. reflexivity.
        + cbn [concat]. rewrite !map_app, Hp, Hps. reflexivity. }
    destruct Hl as (subs' & hs & hs' & Hcs & Hfs & Hgs & Hgs' & Hps).
    destruct (Forall2_SameFrame Hfs) as (Hwf' & Hht).
    rewrite Hcs. cbn [bind].
    exists (TwoGroup pr st fi lw (TwoPath vs c :: subs')),
           (TwoGroup pr st fi lw (TwoPath vs c :: subs) :: concat hs),
           (TwoGroup pr st fi lw (TwoPath vs c :: subs') :: concat hs').
    split; [reflexivity|]. split; [repeat eexists; assumption|].
    cbn [Group.getMobjectHeirarchy]. rewrite Hgs, Hgs'. cbn [bind].
    split; [reflexivity|]. split; [reflexivity|].
    cbn [map]. rewrite !points_node, Hps. reflexivity.
  - set (combined := assign (Group.styleOf st fi lw) style).
    change (Group.restyle pr combined (TwoPath vs c :: subs))
      with (Group.paint (Group.strokeOf combined) (Group.fillOf combined)
              (Group.linewidthOf combined)
              (TwoGroup pr st fi lw (TwoPath vs c :: subs))).
    assert (Hwf : WellFormed (TwoGroup pr st fi lw (TwoPath vs c :: subs)))
      by (constructor; exact Hsubs).
    destruct (paint_heirarchy (Group.strokeOf combined) (Group.fillOf combined)
                (Group.linewidthOf combined) Hwf) as (h & h' & Hg & Hg' & Hp).
    eexists. exists h, h'. split; [reflexivity|].
    split; [apply paint_frame; exact Hwf|].
    split; [exact Hg|]. split; [exact Hg'|exact Hp].
Qed.

(** X29: [applyStyle] returns on every well-formed tree and moves no
    point: the tree it leaves is well formed, and its hierarchy has the
    same points, member for member, as before. *)
Theorem applyStyle_keeps_points :
  forall (style : StylePatch) (m : Shape),
    WellFormed m ->
    exists m' h h',
      Group.applyStyle style m = Some m' /\ WellFormed m' /\
      Group.getMobjectHeirarchy m = Some h /\
      Group.getMobjectHeirarchy m' = Some h' /\
      map Group.points h' = map Group.points h.
Proof.
  intros style m H.
  destruct (applyStyle_heirarchy style H) as (m' & h & h' & Ha & Hf & Hh & Hh' & Hp).
  exists m', h, h'. repeat split; try assumption.
  eapply SameFrame_wf; eassumption.
Qed.

Lemma applyStyle_keeps_points_witness :
  exists m' h h',
    Group.applyStyle (mkPatch None None None (Some (1 # 2)) None) Examples.pair
    = Some m' /\ WellFormed m' /\
    Group.getMobjectHeirarchy Examples.pair = Some h /\
    Group.getMobjectHeirarchy m' = Some h' /\
    map Group.points h' = map Group.points h.
Proof.
  apply (@applyStyle_keeps_points (mkPatch None None None (Some (1 # 2)) None)
           Examples.pair).
  repeat constructor.
Defined.

(** ** addSubmobjects on a node without submobjects *)

Lemma Qmin_left (a b : Q) : a <= b -> Qmin a b = a.
Proof.
  intro H. unfold Qmin, GenericMinMax.gmin.
  destruct (Qcompare a b) eqn:E; try reflexivity.
  apply Qgt_alt in E. exfalso. apply (Qlt_not_le _ _ E H).
Qed.

Lemma Qmax_left (a b : Q) : b <= a -> Qmax a b = a.
Proof.
  intro H. unfold Qmax, GenericMinMax.gmax.
  destruct (Qcompare a b) eqn:E; try reflexivity.
  apply Qlt_alt in E. exfalso. apply (Qlt_not_le _ _ E H).
Qed.

Lemma fold_left_Qmin_repeat (c : Q) (k : nat) (lo : Q) :
  lo <= c -> fold_left Qmin (repeat c k) lo = lo.
Proof.
  intro H. induction k as [|k IH]; [reflexivity|].
  cbn [repeat fold_left]. rewrite (Qmin_left H). exact IH.
Qed.

Lemma fold_left_Qmax_repeat (c : Q) (k : nat) (hi : Q) :
  c <= hi -> fold_left Qmax (repeat c k) hi = hi.
Proof.
  intro H. induction k as [|k IH]; [reflexivity|].
  cbn [repeat fold_left]. rewrite (Qmax_left H). exact IH.
Qed.

(** The extent of a list is that of the list followed by copies of the
    middle of the extent. *)
Lemma extent_with_middle (l : list Q) (lo hi : Q) (k : nat) :
  Group.extent l = Some (lo, hi) ->
  Group.extent (l ++ repeat ((hi + lo) / 2) k) = Some (lo, hi).
Proof.
  intro H. destruct (extent_bounds _ H) as (Hle & _).
  destruct l as [|x r]; [discriminate|]. cbn [Group.extent] in H.
  injection H as Hlo Hhi.
  cbn [app Group.extent]. rewrite !fold_left_app, Hlo, Hhi.
  rewrite fold_left_Qmin_repeat, fold_left_Qmax_repeat; [reflexivity| |].
  - apply Qle_shift_div_r; [reflexivity|]. lra.
  - apply Qle_shift_div_l; [reflexivity|]. lra.
Qed.

Section PointMobjects.

Variable env : Group.Env.

Lemma mapM_repeat (A B : Type) (f : A -> Exc B) (x : A) (y : B) (k : nat) :
  f x = Some y -> mapM f (repeat x k) = Some (repeat y k).
Proof.
  intro H. induction k as [|k IH]; [reflexivity|].
  cbn [repeat mapM]. rewrite H. cbn [bind]. fold (mapM f). rewrite IH. reflexivity.
Qed.

Lemma concat_repeat_one (A : Type) (x : A) (k : nat) :
  concat (repeat [x] k) = repeat x k.
Proof. induction k as [|k IH]; [reflexivity|]. cbn [repeat concat app]. rewrite IH. reflexivity. Qed.

Lemma map_repeat (A B : Type) (f : A -> B) (x : A) (k : nat) :
  map f (repeat x k) = repeat (f x) k.
Proof. induction k as [|k IH]; [reflexivity|]. cbn [repeat map]. rewrite IH. reflexivity. Qed.

(** The centre of a node does not move when point mobjects at that
    centre are appended to it. *)
Lemma getPointCenter_with_point_mobjects pr st fi lw vs c (center : Vec) (k : nat) :
  Group.getPointCenter (TwoGroup pr st fi lw [TwoPath vs c]) = Some center ->
  Group.getPointCenter
    (TwoGroup pr st fi lw
       (TwoPath vs c
          :: repeat (Group.newMobject env PMobject
                       (pathFromAnchors [center] [center] [center]) [] noPatch) k))
  = Some center.
Proof.
  unfold Group.getPointCenter. rewrite !points_node. cbn [bind].
  destruct vs as [|a vs]; [cbn [length Nat.eqb]; intro H; exact H|].
  cbn [length Nat.eqb Group.getMobjectHeirarchy mapM bind].
  rewrite points_node. cbn [bind mapM concat]. rewrite app_nil_r.
  set (pm := Group.newMobject env PMobject
               (pathFromAnchors [center] [center] [center]) [] noPatch).
  set (anchor := mkAnchor center center center CmdMove false).
  assert (Hh : Group.getMobjectHeirarchy pm = Some [pm]) by reflexivity.
  assert (Hp : Group.points pm = Some [anchor]) by reflexivity.
  rewrite (mapM_repeat _ _ k Hh). cbn [bind]. rewrite concat_repeat_one.
  cbn [mapM]. rewrite points_node. cbn [bind]. fold (mapM Group.points).
  rewrite (mapM_repeat _ _ k Hp). cbn [bind concat].
  rewrite concat_repeat_one.
  intro H.
  destruct (Group.extent (map fst (map pos (a :: vs)))) as [[xMin xMax]|] eqn:Ex;
    [|discriminate].
  destruct (Group.extent (map snd (map pos (a :: vs)))) as [[yMin yMax]|] eqn:Ey;
    [|discriminate].
  injection H as <-.
  change (a :: vs ++ repeat anchor k) with ((a :: vs) ++ repeat anchor k).
  rewrite !map_app, !map_repeat. cbn [pos anchor fst snd].
  unfold Vec in *.
  rewrite (@extent_with_middle _ _ _ k Ex), (@extent_with_middle _ _ _ k Ey).
  reflexivity.
Qed.

Lemma addPointMobjects_repeat pr st fi lw vs c (center : Vec) (n : nat) :
  Group.getPointCenter (TwoGroup pr st fi lw [TwoPath vs c]) = Some center ->
  forall k : nat,
    Group.addPointMobjects env n
      (TwoGroup pr st fi lw
         (TwoPath vs c
            :: repeat (Group.newMobject env PMobject
                         (pathFromAnchors [center] [center] [center]) [] noPatch) k))
    = Some (TwoGroup pr st fi lw
              (TwoPath vs c
                 :: repeat (Group.newMobject env PMobject
                              (pathFromAnchors [center] [center] [center]) [] noPatch)
                           (k + n))).
Proof.
  intro Hc. induction n as [|n IH]; intro k.
  - rewrite Nat.add_0_r. reflexivity.
  - cbn [Group.addPointMobjects]. unfold Group.getPointMobject.
    rewrite (getPointCenter_with_point_mobjects _ _ _ _ _ _ k Hc).
    cbn [bind Group.add app].
    rewrite <- repeat_cons.
    change (TwoPath vs c
              :: Group.newMobject env PMobject
                   (pathFromAnchors [center] [center] [center]) [] noPatch
              :: repeat (Group.newMobject env PMobject
                           (pathFromAnchors [center] [center] [center]) [] noPatch) k)
      with (TwoPath vs c
              :: repeat (Group.newMobject env PMobject
                           (pathFromAnchors [center] [center] [center]) [] noPatch)
                        (S k)).
    rewrite IH. replace (S k + n)%nat with (k + S n)%nat by lia. reflexivity.
Qed.

End PointMobjects.

(** X30: [addSubmobjects(n)] on a node with a path and no submobjects
    appends [n] point mobjects, all alike: each is a new [Mobject] over
    [pathFromAnchors([center], [center], [center])] with the default
    style, where [center] is the [getPointCenter()] of the node before
    the call; the points added at the centre do not move it. *)
Theorem addSubmobjects_without_submobjects :
  forall (env : Group.Env) pr st fi lw vs c (n : nat),
    exists center : Vec,
      Group.getPointCenter (TwoGroup pr st fi lw [TwoPath vs c]) = Some center /\
      Group.addSubmobjects env (TwoGroup pr st fi lw [TwoPath vs c]) n
      = Some (TwoGroup pr st fi lw
                (TwoPath vs c
                   :: repeat (Group.newMobject env PMobject
                                (pathFromAnchors [center] [center] [center])
                                [] noPatch) n)).
Proof.
  intros env pr st fi lw vs c n.
  destruct (@getPointCenter_wf (TwoGroup pr st fi lw [TwoPath vs c]))
    as (center & Hc); [repeat constructor|].
  exists center. split; [exact Hc|].
  unfold Group.addSubmobjects.
  cbn [Group.submobjects Group.getChildren bind tl length Nat.eqb].
  exact (addPointMobjects_repeat env pr st fi lw vs c n Hc 0).
Qed.
